(** * colorkit: piecewise-linear colour maps

    A shallow embedding of [src/index.js] (class [ColorMap]) and the
    properties of its specification.

    Numbers.  The class is embedded twice, with the same control flow and
    two models of the JavaScript numbers.

    In the first embedding a number is a [num]: a rational, one of the two
    infinities, or NaN, and arithmetic on rationals is exact: neither the
    rounding of binary64 nor the sign of zero is modelled.  It serves the
    properties that do not depend on the arithmetic of the numbers (loading,
    names, the frame of each method, the two loops, the relation between the
    formats) and the concrete scenario of the specification, which is
    repeated on doubles further down.

    In the second embedding, module [B64], a number is a double: a primitive
    [float], with the IEEE 754 binary64 operations of the program (round to
    nearest, ties to even; signed zeros; overflow to the infinities; NaN).
    Every property that depends on the computed numbers is stated and proved
    on it.

    Numbers that the code obtains from [Math.ceil], [Math.round] or [length]
    are integers; they are carried in [inum].  Reading an array outside its
    bounds gives [undefined], modelled by [None]; [undefined] used as a number
    is NaN. *)

From Stdlib Require Import Floats.
From Stdlib Require Import QArith Qpower Qminmax Qround Qabs ZArith List String Ascii Bool Lia Lqa.
From Stdlib Require HexString.
Import ListNotations.

Local Open Scope Q_scope.

(** ** JavaScript numbers *)

Module Js.

Inductive num : Type :=
| Fin (q : Q)
| PInf
| NInf
| NaN.

(** Integer-valued numbers: array indices, results of [Math.ceil] and
    [Math.round]. *)
Inductive inum : Type :=
| IInt (z : Z)
| IPInf
| INInf
| INaN.

Definition of_int (i : inum) : num :=
  match i with
  | IInt z => Fin (inject_Z z)
  | IPInf => PInf
  | INInf => NInf
  | INaN => NaN
  end.

(** ToNumber on the result of an array read. *)
Definition to_number (v : option num) : num :=
  match v with
  | Some n => n
  | None => NaN
  end.

Definition Qlt_bool (p q : Q) : bool := negb (Qle_bool q p).

(** [a < b]; every comparison with NaN is false. *)
Definition lt (a b : num) : bool :=
  match a, b with
  | NaN, _ | _, NaN => false
  | Fin p, Fin q => Qlt_bool p q
  | Fin _, PInf => true
  | Fin _, NInf => false
  | PInf, _ => false
  | NInf, NInf => false
  | NInf, _ => true
  end.

(** [a <= b]. *)
Definition le (a b : num) : bool :=
  match a, b with
  | NaN, _ | _, NaN => false
  | Fin p, Fin q => Qle_bool p q
  | Fin _, PInf => true
  | Fin _, NInf => false
  | PInf, PInf => true
  | PInf, _ => false
  | NInf, _ => true
  end.

(** [a > b] and [a >= b]. *)
Definition gt (a b : num) : bool := lt b a.
Definition ge (a b : num) : bool := le b a.

Definition add (a b : num) : num :=
  match a, b with
  | NaN, _ | _, NaN => NaN
  | Fin p, Fin q => Fin (p + q)
  | PInf, NInf | NInf, PInf => NaN
  | PInf, _ | _, PInf => PInf
  | NInf, _ | _, NInf => NInf
  end.

Definition sub (a b : num) : num :=
  match a, b with
  | NaN, _ | _, NaN => NaN
  | Fin p, Fin q => Fin (p - q)
  | PInf, PInf | NInf, NInf => NaN
  | PInf, _ | _, NInf => PInf
  | NInf, _ | _, PInf => NInf
  end.

(** An infinity of sign [positive] times the rational [q]. *)
Definition scale_inf (positive : bool) (q : Q) : num :=
  if Qeq_bool q 0 then NaN
  else if Bool.eqb positive (Qle_bool 0 q) then PInf else NInf.

Definition mul (a b : num) : num :=
  match a, b with
  | NaN, _ | _, NaN => NaN
  | Fin p, Fin q => Fin (p * q)
  | PInf, Fin q | Fin q, PInf => scale_inf true q
  | NInf, Fin q | Fin q, NInf => scale_inf false q
  | PInf, PInf | NInf, NInf => PInf
  | PInf, NInf | NInf, PInf => NInf
  end.

Definition div (a b : num) : num :=
  match a, b with
  | NaN, _ | _, NaN => NaN
  | Fin p, Fin q =>
      if Qeq_bool q 0
      then (if Qeq_bool p 0 then NaN else if Qle_bool 0 p then PInf else NInf)
      else Fin (p / q)
  | Fin _, _ => Fin 0
  | PInf, Fin q => if Qle_bool 0 q then PInf else NInf
  | NInf, Fin q => if Qle_bool 0 q then NInf else PInf
  | _, _ => NaN
  end.

(** [Math.abs]. *)
Definition abs (a : num) : num :=
  match a with
  | Fin q => Fin (Qabs q)
  | PInf | NInf => PInf
  | NaN => NaN
  end.

(** [Math.ceil]. *)
Definition ceil (a : num) : inum :=
  match a with
  | Fin q => IInt (Qceiling q)
  | PInf => IPInf
  | NInf => INInf
  | NaN => INaN
  end.

(** [Math.round]: the nearest integer, a tie going to the larger one. *)
Definition round (a : num) : inum :=
  match a with
  | Fin q => IInt (Qfloor (q + (1 # 2)))
  | PInf => IPInf
  | NInf => INInf
  | NaN => INaN
  end.

(** [i + 1] and [i - 1] on integer-valued numbers ([i++], [i--]). *)
Definition succ (i : inum) : inum :=
  match i with
  | IInt z => IInt (z + 1)
  | _ => i
  end.

Definition pred (i : inum) : inum :=
  match i with
  | IInt z => IInt (z - 1)
  | _ => i
  end.

Definition ilt (i j : inum) : bool :=
  match i, j with
  | INaN, _ | _, INaN => false
  | IInt a, IInt b => (a <? b)%Z
  | IInt _, IPInf => true
  | IInt _, INInf => false
  | IPInf, _ => false
  | INInf, INInf => false
  | INInf, _ => true
  end.

Definition igt (i j : inum) : bool := ilt j i.

(** [i === j] on numbers: NaN is not equal to itself. *)
Definition strict_eq (i j : inum) : bool :=
  match i, j with
  | IInt a, IInt b => (a =? b)%Z
  | IPInf, IPInf | INInf, INInf => true
  | _, _ => false
  end.

(** [arr[i]]: the element when [i] is an index of the array, [undefined]
    otherwise (a negative, infinite or NaN key names no element). *)
Definition get (arr : list Q) (i : inum) : option num :=
  match i with
  | IInt z => if (z <? 0)%Z then None else option_map Fin (nth_error arr (Z.to_nat z))
  | _ => None
  end.

(** [arr.length - 1]. *)
Definition last_index (arr : list Q) : inum :=
  IInt (Z.of_nat (List.length arr) - 1).

(** [val.toString(16)] for an integer-valued number. *)
Definition toString16 (i : inum) : string :=
  match i with
  | IInt Z0 => "0"
  | IInt (Zpos p) => HexString.Raw.of_pos p ""
  | IInt (Zneg p) => String "-" (HexString.Raw.of_pos p "")
  | IPInf => "Infinity"
  | INInf => "-Infinity"
  | INaN => "NaN"
  end%string.

(** [s.slice(-2)]: the last two characters of [s] (all of it when shorter). *)
Definition slice_last2 (s : string) : string :=
  substring (String.length s - 2) 2 s.

End Js.

Import Js.

(** ** Data model *)

(** [ColorFormat]: the three symbols of the frozen enumeration; [Other] stands
    for an argument that is none of them and that the template literal of the
    error message turns into a string: a primitive value that is neither
    [undefined] nor a symbol.  The class over doubles, further down, has the
    other arguments as well. *)
Inductive ColorFormat : Type :=
| DOUBLE
| HEX
| RGB
| Other.

Inductive error : Type :=
| UnrecognizedName (name : string)   (* Error(`Unrecognized colormap name ...`) *)
| UnrecognizedFormat                 (* Error(`Unrecognized ColorFormat ...`) *)
| TypeError.                         (* a property read on undefined or null,
                                        a symbol turned into a string *)

Inductive result (A : Type) : Type :=
| Ok (a : A)
| Throw (e : error).

Arguments Ok {A} a.
Arguments Throw {A} e.

Definition color : Type := (Q * Q * Q)%type.

(** A control point [[x, [r, g, b]]]. *)
Definition point : Type := (Q * color)%type.

(** An element of the array handed to [inputColorSeries].  The method does not
    validate its argument, so besides a control point an element may lack its
    colour ([[x]]: [values[i][1]] is undefined) or be null. *)
Inductive entry : Type :=
| Pair (x : Q) (rgb : color)
| Lone (x : Q)
| Null.

Definition entry_of_point (p : point) : entry := Pair (fst p) (snd p).

(** The four parallel arrays of a [ColorMap]. *)
Record series : Type := mkSeries {
  x_values : list Q;
  r_values : list Q;
  g_values : list Q;
  b_values : list Q
}.

(** The fields of a [ColorMap].  The constructor sets the four arrays to null
    together and [inputColorSeries] assigns the four together before its first
    push, so they are null together: [arrays = None]. *)
Record ColorMap : Type := mkColorMap {
  arrays : option series;
  x_range : (Q * Q)%type
}.

(** What a call returns in each format. *)
Inductive output : Type :=
| Double (c : list (option num))
| Rgb (c : list inum)
| Hex (s : string).

(** The names every object inherits from [Object.prototype]. *)
Definition Object_prototype : list string :=
  [ "constructor"; "hasOwnProperty"; "isPrototypeOf"; "propertyIsEnumerable";
    "toLocaleString"; "toString"; "valueOf"; "__proto__";
    "__defineGetter__"; "__defineSetter__"; "__lookupGetter__";
    "__lookupSetter__" ]%string.

(** The value of [ColorSeriesTable[name]]. *)
Inductive table_value : Type :=
| Series (pts : list point)   (* an own property: a colour series *)
| Inherited                   (* a member of Object.prototype *)
| Undefined.

(** The elements [for (let i in values)] visits: those of an array, none for
    a member of [Object.prototype] (it has no enumerable property). *)
Definition entries (v : table_value) : list entry :=
  match v with
  | Series pts => map entry_of_point pts
  | Inherited | Undefined => []
  end.

(** ** The class [ColorMap] *)

Definition push (arr : list Q) (v : Q) : list Q := arr ++ [v].

(** The loop of [inputColorSeries]: four pushes for each element.  The read
    [values[i][0]] throws on a null element, before any push; the read
    [values[i][1][0]] throws on an element without colour, after the push
    onto [x_values]. *)
Fixpoint fill (values : list entry) (a : series) : series * result unit :=
  match values with
  | [] => (a, Ok tt)
  | Pair x (r, g, b) :: rest =>
      fill rest (mkSeries (push (x_values a) x) (push (r_values a) r)
                          (push (g_values a) g) (push (b_values a) b))
  | Lone x :: _ =>
      (mkSeries (push (x_values a) x) (r_values a) (g_values a) (b_values a),
       Throw TypeError)
  | Null :: _ => (a, Throw TypeError)
  end.

Definition inputColorSeries (values : list entry) (cm : ColorMap)
  : ColorMap * result unit :=
  let (a, r) := fill values (mkSeries [] [] [] []) in
  (mkColorMap (Some a) (x_range cm), r).

(** [range] is the content of the caller's array at the call. *)
Definition setInputRange (range : Q * Q) (cm : ColorMap) : ColorMap :=
  mkColorMap (arrays cm) range.

Definition enforceBounds (x : num) : num :=
  if lt x (Fin 0) then Fin 0
  else if gt x (Fin 1) then Fin 1
  else x.

(** One channel of [rgbVal] and its two characters in [hexVal]. *)
Definition to_byte (v : option num) : inum :=
  round (mul (Fin 255) (to_number v)).

Definition to_hex2 (v : inum) : string :=
  slice_last2 (String "0" (toString16 v)).

Definition formatColor (doubleVal : list (option num)) (format : ColorFormat)
  : result output :=
  match format with
  | DOUBLE => Ok (Double doubleVal)
  | _ =>
      let rgbVal := map to_byte doubleVal in
      match format with
      | RGB => Ok (Rgb rgbVal)
      | HEX =>
          let hexVal := map to_hex2 rgbVal in
          Ok (Hex (String "#" (String.concat "" hexVal)))
      | _ => Throw UnrecognizedFormat
      end
  end.

Definition lookupColor (a : series) (i : inum) (format : ColorFormat)
  : result output :=
  let doubleVal := [get (r_values a) i; get (g_values a) i; get (b_values a) i] in
  formatColor doubleVal format.

(** [x = (val - x_range[0]) / (x_range[1] - x_range[0])]. *)
Definition normalize (range : Q * Q) (val : Q) : num :=
  div (sub (Fin val) (Fin (fst range))) (sub (Fin (snd range)) (Fin (fst range))).

(** The conditions of the two loops of the search:
    [(this.x_values[iLo]) > x && (iLo > 0)] and
    [(this.x_values[iHi] < x) && (iHi < iMax)]. *)
Definition down_guard (xs : list Q) (x : num) (iLo : inum) : bool :=
  gt (to_number (get xs iLo)) x && igt iLo (IInt 0).

Definition up_guard (xs : list Q) (x : num) (iMax iHi : inum) : bool :=
  lt (to_number (get xs iHi)) x && ilt iHi iMax.

(** [while (...) iLo--], run for at most [fuel] iterations. *)
Fixpoint scan_down (fuel : nat) (xs : list Q) (x : num) (iLo : inum) : inum :=
  match fuel with
  | O => iLo
  | S fuel' =>
      if down_guard xs x iLo then scan_down fuel' xs x (pred iLo) else iLo
  end.

(** [while (...) iHi++], run for at most [fuel] iterations. *)
Fixpoint scan_up (fuel : nat) (xs : list Q) (x : num) (iMax iHi : inum) : inum :=
  match fuel with
  | O => iHi
  | S fuel' =>
      if up_guard xs x iMax iHi then scan_up fuel' xs x iMax (succ iHi) else iHi
  end.

(** The search of [interpolateColor]: the seed [Math.ceil(x * iMax)], the walk
    down and the walk up.  Either loop needs at most [length xs] iterations
    ([scan_down_exit], [scan_up_exit]). *)
Definition bracket (xs : list Q) (x : num) : inum * inum :=
  let iMax := last_index xs in
  let iLo := ceil (mul x (of_int iMax)) in
  let iLo := scan_down (List.length xs) xs x iLo in
  let iHi := scan_up (List.length xs) xs x iMax iLo in
  (iLo, iHi).

(** The triplet [doubleResult] computed between [iLo] and [iHi]. *)
Definition blend (a : series) (x : num) (iLo iHi : inum) : list (option num) :=
  let at_ (arr : list Q) (i : inum) := to_number (get arr i) in
  let width := abs (sub (at_ (x_values a) iHi) (at_ (x_values a) iLo)) in
  let scaling_factor := div (sub x (at_ (x_values a) iLo)) width in
  let channel (arr : list Q) :=
    add (at_ arr iLo) (mul scaling_factor (sub (at_ arr iHi) (at_ arr iLo))) in
  [Some (enforceBounds (channel (r_values a)));
   Some (enforceBounds (channel (g_values a)));
   Some (enforceBounds (channel (b_values a)))].

(** The body of [interpolateColor] once a series is loaded.  The statement
    [console.assert(iHi = iLo + 1)] assigns [iLo + 1] to [iHi]; the value is
    nonzero on every path that reaches it with a number, and [console.assert]
    only logs otherwise.  The two lookups [colorLo] and [colorHi] are not
    used and cannot throw (their format is [DOUBLE]); they are left out. *)
Definition interpolate (a : series) (range : Q * Q) (val : Q)
    (format : ColorFormat) : result output :=
  let x := normalize range val in
  if le x (Fin 0) then lookupColor a (IInt 0) format
  else
    let iMax := last_index (x_values a) in
    if ge x (Fin 1) then lookupColor a iMax format
    else
      let (iLo, iHi) := bracket (x_values a) x in
      if strict_eq iLo iHi then lookupColor a iLo format
      else
        let iHi := succ iLo in
        formatColor (blend a x iLo iHi) format.

Section WithRainbow.

(** The series exported by [./rainbow.js]. *)
Variable rainbow : list point.

(** [ColorSeriesTable]: its own properties. *)
Definition ColorSeriesTable : list (string * list point) :=
  [("rainbow"%string, rainbow)].

(** [Object.keys(ColorSeriesTable)]. *)
Definition listColorSeries : list string := map fst ColorSeriesTable.

Definition mem (name : string) (names : list string) : bool :=
  existsb (String.eqb name) names.

(** [name in ColorSeriesTable]: an own property or one found on the prototype
    chain of the object literal. *)
Definition has_property (name : string) : bool :=
  mem name listColorSeries || mem name Object_prototype.

(** [ColorSeriesTable[name]]. *)
Definition table_get (name : string) : table_value :=
  match find (fun kv => String.eqb name (fst kv)) ColorSeriesTable with
  | Some kv => Series (snd kv)
  | None => if mem name Object_prototype then Inherited else Undefined
  end.

(** The final [console.log] writes no field and is left out. *)
Definition useColorSeries (name : string) (cm : ColorMap)
  : ColorMap * result unit :=
  if negb (has_property name) then (cm, Throw (UnrecognizedName name))
  else inputColorSeries (entries (table_get name)) cm.

(** [new ColorMap(colorSeriesName)]; the argument may be absent. *)
Definition new_ColorMap (colorSeriesName : option string)
  : ColorMap * result unit :=
  let cm := mkColorMap None (0, 1) in
  match colorSeriesName with
  | None | Some EmptyString => (cm, Ok tt)
  | Some name => useColorSeries name cm
  end.

(** A store never loaded first loads the rainbow series.  That load cannot
    throw and leaves the arrays set ([interpolateColor_fresh]), so the first
    two cases of the last [match] are never taken. *)
Definition interpolateColor (val : Q) (format : ColorFormat) (cm : ColorMap)
  : ColorMap * result output :=
  let (cm1, loaded) :=
    match arrays cm with
    | None => inputColorSeries (map entry_of_point rainbow) cm
    | Some _ => (cm, Ok tt)
    end in
  match loaded, arrays cm1 with
  | Throw e, _ => (cm1, Throw e)
  | Ok _, None => (cm1, Throw TypeError)
  | Ok _, Some a => (cm1, interpolate a (x_range cm1) val format)
  end.

End WithRainbow.

(** The series of the test suite ([test/colorkit.spec.js]). *)
Definition smallSeries : list point :=
  [ (0, (0, 6 # 10, 55 # 100));
    (2 # 10, (2 # 10, 4 # 10, 54 # 100));
    (4 # 10, (4 # 10, 2 # 10, 53 # 100));
    (6 # 10, (6 # 10, 2 # 10, 52 # 100));
    (8 # 10, (8 # 10, 4 # 10, 51 # 100));
    (1, (1, 6 # 10, 50 # 100)) ].

(** ** Notions of the specification *)

(** A colour series decomposed into its four parallel sequences. *)
Definition series_of (pts : list point) : series :=
  mkSeries (map fst pts)
           (map (fun p => fst (fst (snd p))) pts)
           (map (fun p => snd (fst (snd p))) pts)
           (map (fun p => snd (snd p)) pts).

(** The colour of a control point as a triplet of fractions. *)
Definition fraction (c : color) : list (option num) :=
  let '(r, g, b) := c in [Some (Fin r); Some (Fin g); Some (Fin b)].

(** Positions strictly increasing along the sequence. *)
Fixpoint increasing (xs : list Q) : bool :=
  match xs with
  | x :: (y :: _) as rest => Qlt_bool x y && increasing rest
  | _ => true
  end.

Definition in_unit (q : Q) : bool := Qle_bool 0 q && Qle_bool q 1.

(** Each colour channel within [0.0, 1.0]. *)
Definition channels_in_unit (pts : list point) : bool :=
  forallb (fun p => let '(r, g, b) := snd p in in_unit r && in_unit g && in_unit b) pts.

(** Rounding to the nearest integer, ties going away from zero, in the words
    of the specification. *)
Definition round_half_away (q : Q) : Z :=
  if Qle_bool 0 q then Qfloor (q + (1 # 2)) else Qceiling (q - (1 # 2)).

Definition hex_digit (d : Z) : ascii :=
  nth (Z.to_nat d) (list_ascii_of_string "0123456789abcdef") "0"%char.

(** A byte as two lowercase hexadecimal digits, padded with a zero. *)
Definition hex2 (z : Z) : string :=
  String (hex_digit (z / 16)) (String (hex_digit (z mod 16)) EmptyString).

(** [returns_fraction res r g b]: the call returned the triplet of fractions
    [(r, g, b)], each channel up to equality of rationals. *)
Definition returns_fraction (res : result output) (r g b : Q) : Prop :=
  match res with
  | Ok (Double [Some (Fin r'); Some (Fin g'); Some (Fin b')]) =>
      r' == r /\ g' == g /\ b' == b
  | _ => False
  end.

(** A raw load of control points, [inputColorSeries(pts)], on a store. *)
Definition load (pts : list point) (cm : ColorMap) : ColorMap :=
  fst (inputColorSeries (map entry_of_point pts) cm).

(** A store never loaded ([new ColorMap()]), and one loaded with the series
    of the test suite. *)
Definition fresh : ColorMap := mkColorMap None (0, 1).

Definition small_map : ColorMap := load smallSeries fresh.

(** Raw data whose second element has no colour. *)
Definition truncated : list entry := [Pair 0 (0, 0, 0); Lone 1; Pair 1 (1, 1, 1)].

(** A series whose first colour is out of range, loaded as it is. *)
Definition overbright : ColorMap :=
  load [(0, (2, 0, 0)); (1, (0, 0, 0))] fresh.

(** Series whose positions crowd towards 0: the linear estimate of the search
    falls short of the bracket by more than one index. *)
Definition skewed : list point :=
  [ (0, (0, 0, 0));
    (1 # 16, (1 # 4, 0, 0));
    (1 # 8, (1 # 2, 0, 0));
    (1 # 2, (3 # 4, 0, 0));
    (1, (1, 0, 0)) ].

Definition skewed_hit : list point :=
  [ (0, (0, 0, 0));
    (1 # 16, (1 # 4, 0, 0));
    (1 # 8, (1 # 2, 0, 0));
    (1 # 4, (3 # 4, 0, 0));
    (1, (1, 0, 0)) ].

(** The number a string of hexadecimal digits denotes. *)
Definition hex_value (s : string) : N := HexString.Raw.to_N s 0%N.

(** * The class over binary64 numbers *)

(** ** Doubles and their exact values *)

(** [2^e]. *)
Definition pow2 (e : Z) : Q := (2 # 1) ^ e.

(** The exact value of a double, read from its sign, mantissa and exponent.
    The two infinities are given the values [2^1024] and [-2^1024], beyond
    every finite double, so that the order of the doubles is the order of
    their values ([SFcompare_ext]); NaN has no value, and is given 0. *)
Definition ext (f : spec_float) : Q :=
  match f with
  | S754_zero _ => 0
  | S754_infinity s => if s then - pow2 1024 else pow2 1024
  | S754_nan => 0
  | S754_finite s m e => inject_Z (cond_Zopp s (Zpos m)) * pow2 e
  end.

Definition val (x : float) : Q := ext (Prim2SF x).

(** A double that is neither NaN nor infinite. *)
Definition fin (f : spec_float) : Prop :=
  match f with
  | S754_zero _ | S754_finite _ _ _ => True
  | _ => False
  end.

Definition finite (x : float) : Prop := fin (Prim2SF x).

Module B64.

(** [Math.ceil]: the least integer not below the number.  The sign of an
    integer zero is not kept: as an index, in a comparison and in [toString]
    the program does not tell [-0] from [0]. *)
Definition ceil (a : float) : inum :=
  match Prim2SF a with
  | S754_nan => INaN
  | S754_infinity false => IPInf
  | S754_infinity true => INInf
  | _ => IInt (Qceiling (val a))
  end.

(** [Math.round]: the nearest integer, a tie going to the larger one; the
    sign of zero as for [ceil]. *)
Definition round (a : float) : inum :=
  match Prim2SF a with
  | S754_nan => INaN
  | S754_infinity false => IPInf
  | S754_infinity true => INInf
  | _ => IInt (Qfloor (val a + (1 # 2)))
  end.

(** An integer as a double: the nearest one (the integer itself below
    [2^53]). *)
Definition of_Z (z : Z) : float := SF2Prim (binary_normalize prec emax z 0 false).

Definition of_int (i : inum) : float :=
  match i with
  | IInt z => of_Z z
  | IPInf => infinity
  | INInf => neg_infinity
  | INaN => nan
  end.

(** ToNumber on the result of an array read. *)
Definition to_number (v : option float) : float :=
  match v with
  | Some n => n
  | None => nan
  end.

(** [arr[i]]. *)
Definition get (arr : list float) (i : inum) : option float :=
  match i with
  | IInt z => if (z <? 0)%Z then None else nth_error arr (Z.to_nat z)
  | _ => None
  end.

(** [arr.length - 1]. *)
Definition last_index (arr : list float) : inum :=
  IInt (Z.of_nat (List.length arr) - 1).

(** The [format] argument: one of the three symbols of [ColorFormat]; a
    symbol that is none of them, which the template literal of the error
    message cannot turn into a string; or a primitive value that is neither
    a symbol nor [undefined].  An argument left out or [undefined] is
    replaced by the default parameter ([default_format]). *)
Inductive ColorFormat : Type :=
| DOUBLE
| HEX
| RGB
| OtherSymbol
| OtherValue.

Definition color : Type := (float * float * float)%type.

Definition point : Type := (float * color)%type.

Inductive entry : Type :=
| Pair (x : float) (rgb : color)
| Lone (x : float)
| Null.

Definition entry_of_point (p : point) : entry := Pair (fst p) (snd p).

Record series : Type := mkSeries {
  x_values : list float;
  r_values : list float;
  g_values : list float;
  b_values : list float
}.

Record ColorMap : Type := mkColorMap {
  arrays : option series;
  x_range : (float * float)%type
}.

Inductive output : Type :=
| Double (c : list (option float))
| Rgb (c : list inum)
| Hex (s : string).

Definition push (arr : list float) (v : float) : list float := arr ++ [v].

Fixpoint fill (values : list entry) (a : series) : series * result unit :=
  match values with
  | [] => (a, Ok tt)
  | Pair x (r, g, b) :: rest =>
      fill rest (mkSeries (push (x_values a) x) (push (r_values a) r)
                          (push (g_values a) g) (push (b_values a) b))
  | Lone x :: _ =>
      (mkSeries (push (x_values a) x) (r_values a) (g_values a) (b_values a),
       Throw TypeError)
  | Null :: _ => (a, Throw TypeError)
  end.

Definition inputColorSeries (values : list entry) (cm : ColorMap)
  : ColorMap * result unit :=
  let (a, r) := fill values (mkSeries [] [] [] []) in
  (mkColorMap (Some a) (x_range cm), r).

Definition setInputRange (range : float * float) (cm : ColorMap) : ColorMap :=
  mkColorMap (arrays cm) range.

Definition enforceBounds (x : float) : float :=
  if (x <? 0)%float then 0%float
  else if (1 <? x)%float then 1%float
  else x.

(** [Math.round(255.0 * val)]: the product is a double, rounded as such,
    before [Math.round] is applied to it. *)
Definition to_byte (v : option float) : inum :=
  round (255 * to_number v)%float.

(** The template literal of the last statement converts [format] to a
    string, which throws a TypeError on a symbol, before [Error] is called. *)
Definition formatColor (doubleVal : list (option float)) (format : ColorFormat)
  : result output :=
  match format with
  | DOUBLE => Ok (Double doubleVal)
  | _ =>
      let rgbVal := map to_byte doubleVal in
      match format with
      | RGB => Ok (Rgb rgbVal)
      | HEX =>
          let hexVal := map to_hex2 rgbVal in
          Ok (Hex (String "#" (String.concat "" hexVal)))
      | OtherSymbol => Throw TypeError
      | _ => Throw UnrecognizedFormat
      end
  end.

Definition lookupColor (a : series) (i : inum) (format : ColorFormat)
  : result output :=
  let doubleVal := [get (r_values a) i; get (g_values a) i; get (b_values a) i] in
  formatColor doubleVal format.

(** [x = (val - x_range[0]) / (x_range[1] - x_range[0])]. *)
Definition normalize (range : float * float) (v : float) : float :=
  ((v - fst range) / (snd range - fst range))%float.

Definition down_guard (xs : list float) (x : float) (iLo : inum) : bool :=
  (x <? to_number (get xs iLo))%float && igt iLo (IInt 0).

Definition up_guard (xs : list float) (x : float) (iMax iHi : inum) : bool :=
  (to_number (get xs iHi) <? x)%float && ilt iHi iMax.

Fixpoint scan_down (fuel : nat) (xs : list float) (x : float) (iLo : inum) : inum :=
  match fuel with
  | O => iLo
  | S fuel' =>
      if down_guard xs x iLo then scan_down fuel' xs x (pred iLo) else iLo
  end.

Fixpoint scan_up (fuel : nat) (xs : list float) (x : float) (iMax iHi : inum) : inum :=
  match fuel with
  | O => iHi
  | S fuel' =>
      if up_guard xs x iMax iHi then scan_up fuel' xs x iMax (succ iHi) else iHi
  end.

(** The search, with the fuel of the first embedding: either loop has left
    within [length xs] iterations ([f64_scan_down_exit],
    [f64_scan_up_exit]). *)
Definition bracket (xs : list float) (x : float) : inum * inum :=
  let iMax := last_index xs in
  let iLo := ceil (x * of_int iMax)%float in
  let iLo := scan_down (List.length xs) xs x iLo in
  let iHi := scan_up (List.length xs) xs x iMax iLo in
  (iLo, iHi).

Definition blend (a : series) (x : float) (iLo iHi : inum) : list (option float) :=
  let at_ (arr : list float) (i : inum) := to_number (get arr i) in
  let width := PrimFloat.abs (at_ (x_values a) iHi - at_ (x_values a) iLo)%float in
  let scaling_factor := ((x - at_ (x_values a) iLo) / width)%float in
  let channel (arr : list float) :=
    (at_ arr iLo + scaling_factor * (at_ arr iHi - at_ arr iLo))%float in
  [Some (enforceBounds (channel (r_values a)));
   Some (enforceBounds (channel (g_values a)));
   Some (enforceBounds (channel (b_values a)))].

Definition interpolate (a : series) (range : float * float) (v : float)
    (format : ColorFormat) : result output :=
  let x := normalize range v in
  if (x <=? 0)%float then lookupColor a (IInt 0) format
  else
    let iMax := last_index (x_values a) in
    if (1 <=? x)%float then lookupColor a iMax format
    else
      let (iLo, iHi) := bracket (x_values a) x in
      if strict_eq iLo iHi then lookupColor a iLo format
      else
        let iHi := succ iLo in
        formatColor (blend a x iLo iHi) format.

(** The default parameter: [format = ColorFormat.RGB] when the argument is
    absent or [undefined]. *)
Definition default_format (format : option ColorFormat) : ColorFormat :=
  match format with
  | Some f => f
  | None => RGB
  end.

Section WithRainbow.

Variable rainbow : list point.

Definition interpolateColor (v : float) (format : option ColorFormat) (cm : ColorMap)
  : ColorMap * result output :=
  let format := default_format format in
  let (cm1, loaded) :=
    match arrays cm with
    | None => inputColorSeries (map entry_of_point rainbow) cm
    | Some _ => (cm, Ok tt)
    end in
  match loaded, arrays cm1 with
  | Throw e, _ => (cm1, Throw e)
  | Ok _, None => (cm1, Throw TypeError)
  | Ok _, Some a => (cm1, interpolate a (x_range cm1) v format)
  end.

End WithRainbow.

(** Notions of the specification, on doubles. *)

Definition series_of (pts : list point) : series :=
  mkSeries (map fst pts)
           (map (fun p => fst (fst (snd p))) pts)
           (map (fun p => snd (fst (snd p))) pts)
           (map (fun p => snd (snd p)) pts).

Definition fraction (c : color) : list (option float) :=
  let '(r, g, b) := c in [Some r; Some g; Some b].

Definition load (pts : list point) (cm : ColorMap) : ColorMap :=
  fst (inputColorSeries (map entry_of_point pts) cm).

Definition fresh : ColorMap := mkColorMap None (0, 1)%float.

(** A number within [0.0, 1.0], by the comparisons of the program. *)
Definition in_unit (c : float) : bool := ((0 <=? c) && (c <=? 1))%float.

(** Each colour channel of every point within [0.0, 1.0]. *)
Definition channels_in_unit (pts : list point) : bool :=
  forallb (fun p => let '(r, g, b) := snd p in in_unit r && in_unit g && in_unit b) pts.

(** What a channel of a blended triplet can be. *)
Definition clamped (c : option float) : Prop :=
  exists v, c = Some v /\ (is_nan v = true \/ in_unit v = true).

(** The decimal literals below denote the nearest doubles, as they do in
    JavaScript. *)
#[local] Set Warnings "-inexact-float".

Definition smallSeries : list point :=
  [ (0, (0, 0.6, 0.55));
    (0.2, (0.2, 0.4, 0.54));
    (0.4, (0.4, 0.2, 0.53));
    (0.6, (0.6, 0.2, 0.52));
    (0.8, (0.8, 0.4, 0.51));
    (1, (1, 0.6, 0.50)) ]%float.

(** The series of the exact embedding whose search falls short of the
    bracket, and the store with a colour out of range: their numbers are
    doubles. *)
Definition skewed : list point :=
  [ (0, (0, 0, 0));
    (0.0625, (0.25, 0, 0));
    (0.125, (0.5, 0, 0));
    (0.5, (0.75, 0, 0));
    (1, (1, 0, 0)) ]%float.

Definition skewed_hit : list point :=
  [ (0, (0, 0, 0));
    (0.0625, (0.25, 0, 0));
    (0.125, (0.5, 0, 0));
    (0.25, (0.75, 0, 0));
    (1, (1, 0, 0)) ]%float.

Definition overbright : ColorMap :=
  load [(0, (2, 0, 0)); (1, (0, 0, 0))]%float fresh.

(** [2^1023]: the width of the range from [-2^1023] to [2^1023] is not a
    finite double. *)
Definition huge : float := 0x1p1023%float.

End B64.

(** ** Notions of the proofs about rounding *)

(** The exponent of the doubles in the binade [2^(k-1) <= u < 2^k]. *)
Definition fexp64 (k : Z) : Z := SpecFloat.fexp prec emax k.

(** The nearest integer, a tie going to the even one. *)
Definition rne (t : Q) : Z :=
  let f := Qfloor t in
  match ((t - inject_Z f) ?= (1 # 2))%Q with
  | Lt => f
  | Gt => (f + 1)%Z
  | Eq => if Z.even f then f else (f + 1)%Z
  end.

(** Where [t] lies between the integers [m] and [m + 1]. *)
Definition loc_of (t : Q) (m : Z) : location :=
  match (t - inject_Z m) ?= 0 with
  | Eq => loc_Exact
  | _ => loc_Inexact ((t - inject_Z m) ?= (1 # 2))
  end.

(** The record of a shift stands for the number [t]. *)
Definition inv (rs : shr_record) (t : Q) : Prop :=
  (0 <= shr_m rs)%Z /\
  inject_Z (shr_m rs) <= t < inject_Z (shr_m rs) + 1 /\
  loc_of_shr_record rs = loc_of t (shr_m rs).

(** [u] lies in the binade of exponent [k]. *)
Definition binade (u : Q) (k : Z) : Prop := pow2 (k - 1) <= u < pow2 k.

(** The sign bit of a number. *)
Definition has_sign (s : bool) (f : spec_float) : Prop :=
  match f with
  | S754_zero s' | S754_infinity s' | S754_finite s' _ _ => s' = s
  | S754_nan => False
  end.

(** Overflow: a magnitude of [2^1024] or more becomes an infinity. *)
Definition cap (v : Q) : Q := Qmin v (pow2 1024).

(** [v] is the magnitude [a] rounded to the precision of a double, the
    exponent unbounded above. *)
Definition rounded (a v : Q) : Prop :=
  (a == 0 /\ v == 0) \/
  (exists k, binade a k /\
             v == inject_Z (rne (a / pow2 (fexp64 k))) * pow2 (fexp64 k)).

(** The magnitude [v] with the sign [s]. *)
Definition signed (s : bool) (v : Q) : Q := if s then - v else v.

(** The double [r] is the exact number [u] rounded. *)
Definition rnd (u : Q) (r : spec_float) : Prop :=
  r <> S754_nan /\
  exists v, rounded (Qabs u) v /\
            (0 <= u -> ext r == cap v) /\ (u <= 0 -> ext r == - cap v).

(** * Properties of the class over exact numbers *)

(** ** Loading *)

Lemma fill_points (pts : list point) (a : series) :
  fill (map entry_of_point pts) a =
  (mkSeries (x_values a ++ x_values (series_of pts))
            (r_values a ++ r_values (series_of pts))
            (g_values a ++ g_values (series_of pts))
            (b_values a ++ b_values (series_of pts)), Ok tt).
Proof.
  revert a.
  induction pts as [|[x [[r g] b]] pts IH]; intros a; simpl.
  - rewrite !app_nil_r. now destruct a.
  - rewrite IH. unfold push. simpl. now rewrite <- !app_assoc.
Qed.

Lemma inputColorSeries_points (pts : list point) (cm : ColorMap) :
  inputColorSeries (map entry_of_point pts) cm =
  (mkColorMap (Some (series_of pts)) (x_range cm), Ok tt).
Proof.
  unfold inputColorSeries. rewrite fill_points. reflexivity.
Qed.

Lemma inputColorSeries_range (values : list entry) (cm : ColorMap) :
  x_range (fst (inputColorSeries values cm)) = x_range cm.
Proof.
  unfold inputColorSeries. now destruct (fill values _).
Qed.

(** A raw load stopped by a null element keeps the points before it. *)
Lemma fill_null (pts : list point) (rest : list entry) (a : series) :
  fill (map entry_of_point pts ++ Null :: rest) a =
  (fst (fill (map entry_of_point pts) a), Throw TypeError).
Proof.
  revert a.
  induction pts as [|[x [[r g] b]] pts IH]; intros a; simpl; [reflexivity|].
  apply IH.
Qed.

(** A raw load stopped by an element without colour keeps the points before
    it and the position of that element. *)
Lemma fill_lone (pts : list point) (x : Q) (rest : list entry) (a : series) :
  fill (map entry_of_point pts ++ Lone x :: rest) a =
  (let a' := fst (fill (map entry_of_point pts) a) in
   mkSeries (push (x_values a') x) (r_values a') (g_values a') (b_values a'),
   Throw TypeError).
Proof.
  revert a.
  induction pts as [|[y [[r g] b]] pts IH]; intros a; simpl; [reflexivity|].
  apply IH.
Qed.

Section Loading.

Variable rainbow : list point.

Lemma rainbow_listed : listColorSeries rainbow = ["rainbow"%string].
Proof. reflexivity. Qed.

Lemma useColorSeries_rainbow (cm : ColorMap) :
  useColorSeries rainbow "rainbow" cm =
  (mkColorMap (Some (series_of rainbow)) (x_range cm), Ok tt).
Proof.
  unfold useColorSeries. simpl. apply inputColorSeries_points.
Qed.

(** A name that is neither a series nor inherited is refused, and nothing
    is written. *)
Lemma useColorSeries_unknown (name : string) (cm : ColorMap) :
  has_property rainbow name = false ->
  useColorSeries rainbow name cm = (cm, Throw (UnrecognizedName name)).
Proof. intros H. unfold useColorSeries. now rewrite H. Qed.

Lemma entries_table_get (name : string) :
  exists pts, entries (table_get rainbow name) = map entry_of_point pts.
Proof.
  unfold table_get.
  destruct (find _ _) as [kv|].
  - now exists (snd kv).
  - exists []. now destruct (mem name Object_prototype).
Qed.

Lemma useColorSeries_throw (name : string) (cm : ColorMap) (e : error) :
  snd (useColorSeries rainbow name cm) = Throw e ->
  has_property rainbow name = false /\ e = UnrecognizedName name /\
  fst (useColorSeries rainbow name cm) = cm.
Proof.
  unfold useColorSeries.
  destruct (has_property rainbow name); simpl.
  - destruct (entries_table_get name) as [pts ->].
    rewrite inputColorSeries_points. discriminate.
  - intros [= <-]. auto.
Qed.

Lemma useColorSeries_range (name : string) (cm : ColorMap) :
  x_range (fst (useColorSeries rainbow name cm)) = x_range cm.
Proof.
  unfold useColorSeries.
  destruct (negb _); [reflexivity | apply inputColorSeries_range].
Qed.

(** [interpolateColor] runs its body on the loaded series; a store never
    loaded first receives the rainbow series. *)
Lemma interpolateColor_loaded (val : Q) (format : ColorFormat) (a : series)
    (range : Q * Q) :
  interpolateColor rainbow val format (mkColorMap (Some a) range) =
  (mkColorMap (Some a) range, interpolate a range val format).
Proof. reflexivity. Qed.

Lemma interpolateColor_fresh (val : Q) (format : ColorFormat) (range : Q * Q) :
  interpolateColor rainbow val format (mkColorMap None range) =
  (mkColorMap (Some (series_of rainbow)) range,
   interpolate (series_of rainbow) range val format).
Proof.
  unfold interpolateColor. simpl arrays. cbv iota.
  now rewrite inputColorSeries_points.
Qed.

End Loading.

(** The store after a raw load of control points and a change of range. *)
Lemma loaded_state (pts : list point) (range : Q * Q) (cm0 : ColorMap) :
  setInputRange range (load pts cm0) = mkColorMap (Some (series_of pts)) range.
Proof. unfold load. now rewrite inputColorSeries_points. Qed.

(** ** Numbers *)

Lemma lt_Fin (p q : Q) : lt (Fin p) (Fin q) = true <-> p < q.
Proof.
  unfold lt, Qlt_bool. rewrite negb_true_iff.
  split.
  - intros H. apply Qnot_le_lt. intros Hle.
    apply Qle_bool_iff in Hle. congruence.
  - intros H. destruct (Qle_bool q p) eqn:E; [|reflexivity].
    apply Qle_bool_iff in E. exfalso. apply (Qlt_not_le _ _ H E).
Qed.

Lemma get_nth (arr : list Q) (z : Z) (q : Q) :
  (0 <= z)%Z -> nth_error arr (Z.to_nat z) = Some q ->
  get arr (IInt z) = Some (Fin q).
Proof.
  intros Hz H. unfold get.
  destruct (z <? 0)%Z eqn:E; [lia|]. now rewrite H.
Qed.

(** A lookup inside the series gives the stored colour of the point. *)
Lemma lookupColor_point (pts : list point) (z : Z) (p : point)
    (format : ColorFormat) :
  (0 <= z)%Z -> nth_error pts (Z.to_nat z) = Some p ->
  lookupColor (series_of pts) (IInt z) format = formatColor (fraction (snd p)) format.
Proof.
  intros Hz H. unfold lookupColor, series_of.
  cbn [r_values g_values b_values].
  rewrite !(get_nth _ z _ Hz (map_nth_error _ _ _ H)).
  now destruct p as [x [[r g] b]].
Qed.

(** ** The two loops of the search *)

Lemma get_Some_inside (arr : list Q) (i : inum) (n : num) :
  get arr i = Some n ->
  exists z, i = IInt z /\ (0 <= z < Z.of_nat (List.length arr))%Z.
Proof.
  destruct i as [z| | |]; simpl; try discriminate.
  destruct (z <? 0)%Z eqn:E; [discriminate|].
  destruct (nth_error arr (Z.to_nat z)) eqn:N; [|discriminate].
  intros _. exists z. split; [reflexivity|].
  assert (Z.to_nat z < List.length arr)%nat
    by (apply nth_error_Some; congruence).
  lia.
Qed.

(** A comparison that holds was made on an element of the array. *)
Lemma lt_get_inside (arr : list Q) (i : inum) (x : num) :
  lt (to_number (get arr i)) x = true ->
  exists z, i = IInt z /\ (0 <= z < Z.of_nat (List.length arr))%Z.
Proof.
  destruct (get arr i) as [n|] eqn:E; [intros _; eapply get_Some_inside; eauto|].
  simpl. discriminate.
Qed.

Lemma gt_get_inside (arr : list Q) (i : inum) (x : num) :
  gt (to_number (get arr i)) x = true ->
  exists z, i = IInt z /\ (0 <= z < Z.of_nat (List.length arr))%Z.
Proof.
  destruct (get arr i) as [n|] eqn:E; [intros _; eapply get_Some_inside; eauto|].
  unfold gt. destruct x; simpl; discriminate.
Qed.

Lemma scan_down_exit_fuel (fuel : nat) (xs : list Q) (x : num) (i : inum) :
  match i with
  | IInt z => (z < Z.of_nat fuel \/ Z.of_nat (List.length xs) <= z)%Z
  | _ => True
  end ->
  down_guard xs x (scan_down fuel xs x i) = false.
Proof.
  revert i.
  induction fuel as [|fuel IH]; intros i H; cbn [scan_down].
  - destruct (down_guard xs x i) eqn:G; [|reflexivity].
    apply andb_prop in G. destruct G as [G _].
    apply gt_get_inside in G. destruct G as (z & -> & Hz). lia.
  - destruct (down_guard xs x i) eqn:G; [|exact G].
    apply IH.
    apply andb_prop in G. destruct G as [G _].
    apply gt_get_inside in G. destruct G as (z & -> & Hz).
    simpl. lia.
Qed.

(** The walk down leaves its loop within [length xs] iterations: the
    condition of the loop is false at the index it returns. *)
Lemma scan_down_exit (xs : list Q) (x : num) (i : inum) :
  down_guard xs x (scan_down (List.length xs) xs x i) = false.
Proof.
  apply scan_down_exit_fuel. destruct i; trivial. lia.
Qed.

Lemma scan_up_exit_fuel (fuel : nat) (xs : list Q) (x : num) (iMax i : inum) :
  match i with
  | IInt z => (Z.of_nat (List.length xs) - z <= Z.of_nat fuel \/ z < 0)%Z
  | _ => True
  end ->
  up_guard xs x iMax (scan_up fuel xs x iMax i) = false.
Proof.
  revert i.
  induction fuel as [|fuel IH]; intros i H; cbn [scan_up].
  - destruct (up_guard xs x iMax i) eqn:G; [|reflexivity].
    apply andb_prop in G. destruct G as [G _].
    apply lt_get_inside in G. destruct G as (z & -> & Hz). lia.
  - destruct (up_guard xs x iMax i) eqn:G; [|exact G].
    apply IH.
    apply andb_prop in G. destruct G as [G _].
    apply lt_get_inside in G. destruct G as (z & -> & Hz).
    simpl. lia.
Qed.

(** So does the walk up. *)
Lemma scan_up_exit (xs : list Q) (x : num) (iMax i : inum) :
  up_guard xs x iMax (scan_up (List.length xs) xs x iMax i) = false.
Proof.
  apply scan_up_exit_fuel. destruct i; trivial. lia.
Qed.

(** More iterations than [length xs] change nothing. *)
Lemma scan_down_more (fuel : nat) (xs : list Q) (x : num) (i : inum) :
  (List.length xs <= fuel)%nat ->
  scan_down fuel xs x i = scan_down (List.length xs) xs x i.
Proof.
  assert (stable : forall k j, down_guard xs x j = false -> scan_down k xs x j = j).
  { intros [|k] j G; cbn [scan_down]; [reflexivity|].
    now rewrite G. }
  assert (split : forall a b j,
             scan_down (a + b) xs x j = scan_down b xs x (scan_down a xs x j)).
  { induction a as [|a IHa]; intros b j; cbn [scan_down Nat.add]; [reflexivity|].
    destruct (down_guard xs x j) eqn:G; [apply IHa|].
    symmetry. now apply stable. }
  intros Hle.
  replace fuel with (List.length xs + (fuel - List.length xs))%nat by lia.
  rewrite split. apply stable, scan_down_exit.
Qed.

Lemma scan_up_more (fuel : nat) (xs : list Q) (x : num) (iMax i : inum) :
  (List.length xs <= fuel)%nat ->
  scan_up fuel xs x iMax i = scan_up (List.length xs) xs x iMax i.
Proof.
  assert (stable : forall k j, up_guard xs x iMax j = false -> scan_up k xs x iMax j = j).
  { intros [|k] j G; cbn [scan_up]; [reflexivity|].
    now rewrite G. }
  assert (split : forall a b j,
             scan_up (a + b) xs x iMax j = scan_up b xs x iMax (scan_up a xs x iMax j)).
  { induction a as [|a IHa]; intros b j; cbn [scan_up Nat.add]; [reflexivity|].
    destruct (up_guard xs x iMax j) eqn:G; [apply IHa|].
    symmetry. now apply stable. }
  intros Hle.
  replace fuel with (List.length xs + (fuel - List.length xs))%nat by lia.
  rewrite split. apply stable, scan_up_exit.
Qed.

(** ** The search and the blend on a series *)

Lemma enforceBounds_Fin (v : Q) :
  exists v', enforceBounds (Fin v) = Fin v' /\ 0 <= v' <= 1.
Proof.
  unfold enforceBounds, gt.
  destruct (lt (Fin v) (Fin 0)) eqn:L0.
  - exists 0. split; [reflexivity | lra].
  - destruct (lt (Fin 1) (Fin v)) eqn:L1.
    + exists 1. split; [reflexivity | lra].
    + exists v. split; [reflexivity|].
      apply not_true_iff_false in L0, L1.
      rewrite lt_Fin in L0, L1.
      split; apply Qnot_lt_le; assumption.
Qed.

(** Whatever is blended, the clamp brings every number into [0, 1]; only NaN
    passes through. *)
Lemma enforceBounds_unit (x : num) :
  x <> NaN -> exists v, enforceBounds x = Fin v /\ 0 <= v <= 1.
Proof.
  destruct x as [v| | |]; intros H.
  - apply enforceBounds_Fin.
  - exists 1. split; [reflexivity | lra].
  - exists 0. split; [reflexivity | lra].
  - contradiction.
Qed.

(** ** Formats *)

Lemma length_append (s1 s2 : string) :
  String.length (s1 ++ s2) = (String.length s1 + String.length s2)%nat.
Proof. induction s1 as [|c s1 IH]; simpl; [reflexivity | now rewrite IH]. Qed.

Lemma length_substring (s : string) (n m : nat) :
  (n + m <= String.length s)%nat -> String.length (substring n m s) = m.
Proof.
  revert n m.
  induction s as [|c s IH]; intros n m H; simpl in H.
  - assert (n = 0%nat /\ m = 0%nat) as [-> ->] by lia. reflexivity.
  - destruct n as [|n]; destruct m as [|m]; simpl.
    + reflexivity.
    + rewrite (IH 0%nat m); [reflexivity | simpl in *; lia].
    + apply (IH n 0%nat). lia.
    + apply (IH n (S m)). lia.
Qed.

(** A positive number has at least one hexadecimal digit. *)
Lemma of_pos_longer (p : positive) (rest : string) :
  (String.length rest < String.length (HexString.Raw.of_pos p rest))%nat.
Proof.
  revert p rest. fix IH 1. intros p rest.
  do 4 try destruct p as [p|p|]; cbn [HexString.Raw.of_pos];
    try (simpl; lia);
    (eapply Nat.lt_trans; [|apply IH]); simpl; lia.
Qed.

Lemma toString16_nonempty (v : inum) : (1 <= String.length (toString16 v))%nat.
Proof.
  destruct v as [[|p|p]| | |]; simpl; try lia.
  - pose proof (of_pos_longer p ""). lia.
Qed.

(** Each channel of [hexVal] has two characters, whatever the number. *)
Lemma to_hex2_length (v : inum) : String.length (to_hex2 v) = 2%nat.
Proof.
  unfold to_hex2, slice_last2.
  pose proof (toString16_nonempty v) as H.
  apply length_substring. simpl String.length. lia.
Qed.

Lemma hex_length (a b c : inum) :
  String.length (String "#" (String.concat "" (map to_hex2 [a; b; c]))) = 7%nat.
Proof.
  simpl. rewrite !length_append, !to_hex2_length. reflexivity.
Qed.

Lemma to_byte_range (q : Q) :
  0 <= q <= 1 ->
  exists z, to_byte (Some (Fin q)) = IInt z /\ (0 <= z <= 255)%Z.
Proof.
  intros [H0 H1]. unfold to_byte. cbn [to_number mul round].
  eexists. split; [reflexivity|]. split.
  - apply (Z.le_trans _ (Qfloor 0)); [discriminate|].
    apply Qfloor_resp_le. lra.
  - apply (Z.le_trans _ (Qfloor ((255 # 1) + (1 # 2)))); [|discriminate].
    apply Qfloor_resp_le. lra.
Qed.

(** For a byte the two characters are its two hexadecimal digits. *)
Lemma to_hex2_byte (z : Z) : (0 <= z <= 255)%Z -> to_hex2 (IInt z) = hex2 z.
Proof.
  intros Hz.
  assert (all : forallb (fun n => String.eqb (to_hex2 (IInt (Z.of_nat n)))
                                             (hex2 (Z.of_nat n)))
                        (seq 0 256) = true) by (vm_compute; reflexivity).
  rewrite forallb_forall in all.
  specialize (all (Z.to_nat z)).
  rewrite Z2Nat.id in all by lia.
  apply String.eqb_eq, all, in_seq. lia.
Qed.

(** * Rounding to the nearest double *)

#[local] Set Warnings "-inexact-float".

(** ** Powers of two *)

Lemma pow2_pos e : 0 < pow2 e.
Proof. apply Qpower_0_lt. reflexivity. Qed.

Lemma pow2_add a b : pow2 (a + b) == pow2 a * pow2 b.
Proof. apply Qpower_plus. discriminate. Qed.

Lemma pow2_1 : pow2 1 == 2.
Proof. reflexivity. Qed.

Lemma pow2_succ e : pow2 (e + 1) == 2 * pow2 e.
Proof. rewrite pow2_add, pow2_1. ring. Qed.

Lemma pow2_pred e : pow2 e == 2 * pow2 (e - 1).
Proof. rewrite <- pow2_succ. replace (e - 1 + 1)%Z with e by lia. reflexivity. Qed.

Lemma pow2_le a b : (a <= b)%Z -> pow2 a <= pow2 b.
Proof. intros H. apply Qpower_le_compat_l; [exact H | discriminate]. Qed.

Lemma pow2_lt a b : (a < b)%Z -> pow2 a < pow2 b.
Proof. intros H. apply Qpower_lt_compat_l; [exact H | reflexivity]. Qed.

Lemma pow2_Z n : (0 <= n)%Z -> pow2 n == inject_Z (2 ^ n).
Proof. intros H. unfold pow2. now rewrite Zpower_Qpower. Qed.

Lemma pow2_sub a b : pow2 (a - b) == pow2 a / pow2 b.
Proof.
  assert (H := pow2_add (a - b) b). replace (a - b + b)%Z with a in H by lia.
  assert (P := pow2_pos b). rewrite H. field. lra.
Qed.

Lemma pow2_lt_inv a b : pow2 a < pow2 b -> (a < b)%Z.
Proof.
  intros H. destruct (Z_lt_le_dec a b) as [L|L]; [exact L|].
  apply pow2_le in L. lra.
Qed.

(** ** Binades *)

Lemma binade_unique u k k' : binade u k -> binade u k' -> k = k'.
Proof.
  intros [A B] [A' B'].
  assert (k - 1 < k')%Z by (apply pow2_lt_inv; lra).
  assert (k' - 1 < k)%Z by (apply pow2_lt_inv; lra).
  lia.
Qed.

Lemma binade_mono u w k k' : binade u k -> binade w k' -> u <= w -> (k <= k')%Z.
Proof.
  intros [A B] [A' B'] H.
  assert (k - 1 < k')%Z by (apply pow2_lt_inv; lra). lia.
Qed.

Lemma binade_pos u k : binade u k -> 0 < u.
Proof. intros [A _]. pose proof (pow2_pos (k - 1)). lra. Qed.

(** ** The number of binary digits *)

Lemma digits2_bounds m :
  (2 ^ (Zpos (digits2_pos m) - 1) <= Zpos m < 2 ^ Zpos (digits2_pos m))%Z.
Proof.
  induction m as [m IH|m IH|]; cbn [digits2_pos].
  - rewrite Pos2Z.inj_succ.
    replace (Z.succ (Z.pos (digits2_pos m)) - 1)%Z with (Z.pos (digits2_pos m) - 1 + 1)%Z by lia.
    rewrite Z.pow_succ_r by lia. rewrite Z.pow_add_r by lia. change (2 ^ 1)%Z with 2%Z. lia.
  - rewrite Pos2Z.inj_succ.
    replace (Z.succ (Z.pos (digits2_pos m)) - 1)%Z with (Z.pos (digits2_pos m) - 1 + 1)%Z by lia.
    rewrite Z.pow_succ_r by lia. rewrite Z.pow_add_r by lia. change (2 ^ 1)%Z with 2%Z. lia.
  - cbn. lia.
Qed.

Lemma digits2_binade m e :
  binade (inject_Z (Zpos m) * pow2 e) (Zpos (digits2_pos m) + e).
Proof.
  destruct (digits2_bounds m) as [A B].
  set (d := Zpos (digits2_pos m)) in *.
  assert (Hd : (0 < d)%Z) by (subst d; lia).
  unfold binade.
  replace (d + e - 1)%Z with ((d - 1) + e)%Z by lia.
  rewrite !pow2_add, (pow2_Z (d - 1)), (pow2_Z d) by lia.
  pose proof (pow2_pos e) as P.
  rewrite Zle_Qle in A. rewrite Zlt_Qlt in B.
  split.
  - apply Qmult_le_compat_r; [exact A | lra].
  - apply Qmult_lt_compat_r; [exact P | exact B].
Qed.

(** ** Rounding to the nearest integer, ties to even *)

Lemma Qcompare_Lt a b : a < b -> (a ?= b) = Lt.
Proof. apply Qlt_alt. Qed.

Lemma Qcompare_Gt a b : b < a -> (a ?= b) = Gt.
Proof. apply Qgt_alt. Qed.

Lemma Qcompare_Eq a b : a == b -> (a ?= b) = Eq.
Proof. apply Qeq_alt. Qed.

Lemma rne_Z z : rne (inject_Z z) = z.
Proof.
  unfold rne. rewrite Qfloor_Z.
  rewrite Qcompare_Lt by lra. reflexivity.
Qed.

Lemma rne_le_Z t n : t <= inject_Z n -> (rne t <= n)%Z.
Proof.
  intros H. unfold rne.
  pose proof (Qfloor_le t) as A. pose proof (Qlt_floor t) as B.
  rewrite inject_Z_plus in B. change (inject_Z 1) with 1 in B.
  assert (Hf : (Qfloor t <= n)%Z) by (rewrite Zle_Qle; lra).
  destruct (Z.eq_dec (Qfloor t) n) as [E|E].
  - assert (t == inject_Z n) by (rewrite E in A; lra).
    rewrite Qcompare_Lt by (rewrite E; lra). lia.
  - destruct (t - inject_Z (Qfloor t) ?= 1 # 2); [destruct (Z.even _)| |]; lia.
Qed.

Lemma rne_ge_Z t n : inject_Z n <= t -> (n <= rne t)%Z.
Proof.
  intros H. unfold rne.
  assert (Hf : (n <= Qfloor t)%Z).
  { rewrite <- (Qfloor_Z n). now apply Qfloor_resp_le. }
  destruct (t - inject_Z (Qfloor t) ?= 1 # 2); [destruct (Z.even _)| |]; lia.
Qed.

Lemma rne_mono t t' : t <= t' -> (rne t <= rne t')%Z.
Proof.
  intros H.
  pose proof (Qfloor_resp_le _ _ H) as Hf.
  destruct (Z.eq_dec (Qfloor t) (Qfloor t')) as [E|E].
  - unfold rne. rewrite <- E.
    destruct (Qcompare_spec (t - inject_Z (Qfloor t)) (1 # 2)) as [A|A|A];
    destruct (Qcompare_spec (t' - inject_Z (Qfloor t)) (1 # 2)) as [B|B|B];
    try destruct (Z.even (Qfloor t)); try lia; lra.
  - transitivity (Qfloor t + 1)%Z.
    + unfold rne. destruct (_ ?= _); [destruct (Z.even _)| |]; lia.
    + apply rne_ge_Z. pose proof (Qfloor_le t') as A.
      assert (Hf' : (Qfloor t + 1 <= Qfloor t')%Z) by lia.
      rewrite Zle_Qle in Hf'. lra.
Qed.

Lemma rne_comp t t' : t == t' -> rne t = rne t'.
Proof.
  intros H. unfold rne. rewrite (Qfloor_comp _ _ H).
  now rewrite H.
Qed.

Lemma loc_of_comp t t' m : t == t' -> loc_of t m = loc_of t' m.
Proof.
  intros H. unfold loc_of.
  assert (E : forall c, (t - inject_Z m ?= c) = (t' - inject_Z m ?= c)).
  { intros c. apply Qcompare_comp; [now rewrite H | reflexivity]. }
  now rewrite !E.
Qed.

Lemma inv_comp rs t t' : t == t' -> inv rs t -> inv rs t'.
Proof.
  intros H (A & B & C). unfold inv.
  rewrite <- (loc_of_comp _ _ _ H), <- H. auto.
Qed.

Lemma inject_Z_xO p : inject_Z (Zpos p~0) == 2 * inject_Z (Zpos p).
Proof. unfold Qeq, inject_Z; simpl. lia. Qed.

Lemma inject_Z_xI p : inject_Z (Zpos p~1) == 2 * inject_Z (Zpos p) + 1.
Proof. unfold Qeq, inject_Z, Qplus, Qmult; simpl. lia. Qed.

Ltac solve_cmp :=
  repeat first [ rewrite Qcompare_Eq by lra
               | rewrite Qcompare_Lt by lra
               | rewrite Qcompare_Gt by lra ];
  reflexivity.

Lemma shr_1_inv rs t : inv rs t -> inv (shr_1 rs) (t / 2).
Proof.
  destruct rs as [m r s]. unfold inv, loc_of. cbn [shr_m].
  intros (Hm & Hb & Hl).
  assert (H0 : inject_Z 0 == 0) by reflexivity.
  assert (H1 : inject_Z 1 == 1) by reflexivity.
  assert (Hh : t / 2 == t * (1 # 2)) by (field).
  destruct m as [|[p|p|]|p]; try lia; cbn [shr_1 shr_m];
    try pose proof (inject_Z_xO p) as Hp0; try pose proof (inject_Z_xI p) as Hp1;
    (split; [lia|]);
    (split; [split; lra|]);
    match type of Hl with context [(?a ?= 0)] =>
      destruct (Qcompare_spec a 0) as [E0|E0|E0];
      destruct (Qcompare_spec a (1 # 2)) as [E1|E1|E1]
    end;
    destruct r, s; try discriminate Hl; cbn [orb loc_of_shr_record]; try lra;
    solve_cmp.
Qed.

Lemma iter_pos_nat {A} (f : A -> A) p x :
  SpecFloat.iter_pos f p x = Nat.iter (Pos.to_nat p) f x.
Proof.
  revert x. induction p as [p IH|p IH|]; intros x; cbn [SpecFloat.iter_pos].
  - rewrite !IH, Pos2Nat.inj_xI, <- Nat.iter_add, <- Nat.iter_succ_r.
    f_equal. lia.
  - rewrite !IH, Pos2Nat.inj_xO, <- Nat.iter_add. f_equal. lia.
  - reflexivity.
Qed.

Lemma iter_inv rs t n :
  inv rs t -> inv (Nat.iter n shr_1 rs) (t / pow2 (Z.of_nat n)).
Proof.
  intros H. induction n as [|n IH].
  - cbn [Nat.iter nat_rect]. eapply inv_comp; [|exact H].
    change (pow2 (Z.of_nat 0)) with 1. field.
  - cbn [Nat.iter nat_rect]. apply shr_1_inv in IH.
    eapply inv_comp; [|exact IH].
    rewrite Nat2Z.inj_succ. unfold Z.succ. rewrite pow2_succ.
    pose proof (pow2_pos (Z.of_nat n)). field. lra.
Qed.

Lemma shr_inv rs e n t :
  inv rs t ->
  snd (shr rs e n) = (e + Z.max n 0)%Z /\
  inv (fst (shr rs e n)) (t / pow2 (Z.max n 0)).
Proof.
  intros H. destruct n as [|p|p]; cbn [shr fst snd].
  - split; [lia|]. eapply inv_comp; [|exact H].
    change (pow2 (Z.max 0 0)) with 1. field.
  - split; [lia|]. rewrite iter_pos_nat.
    replace (Z.max (Z.pos p) 0) with (Z.of_nat (Pos.to_nat p)) by lia.
    now apply iter_inv.
  - split; [lia|]. eapply inv_comp; [|exact H].
    change (pow2 (Z.max (Z.neg p) 0)) with 1. field.
Qed.

Lemma shr_record_of_loc_inv m l t :
  (0 <= m)%Z -> inject_Z m <= t < inject_Z m + 1 -> l = loc_of t m ->
  inv (shr_record_of_loc m l) t.
Proof.
  intros Hm Hb Hl. unfold inv.
  assert (E : shr_m (shr_record_of_loc m l) = m).
  { destruct l as [|[| |]]; reflexivity. }
  rewrite E. split; [exact Hm|]. split; [exact Hb|].
  rewrite <- Hl. destruct l as [|[| |]]; reflexivity.
Qed.

Lemma shr_fexp_inv m e l t :
  (0 <= m)%Z -> inject_Z m <= t < inject_Z m + 1 -> l = loc_of t m ->
  let e' := Z.max e (fexp64 (Zdigits2 m + e)) in
  snd (shr_fexp prec emax m e l) = e' /\
  inv (fst (shr_fexp prec emax m e l)) (t / pow2 (e' - e)).
Proof.
  intros Hm Hb Hl e'. unfold shr_fexp.
  destruct (shr_inv (shr_record_of_loc m l) e
              (SpecFloat.fexp prec emax (Zdigits2 m + e) - e) t
              (shr_record_of_loc_inv m l t Hm Hb Hl)) as [A B].
  split.
  - rewrite A. subst e'. unfold fexp64. lia.
  - replace (e' - e)%Z with (Z.max (SpecFloat.fexp prec emax (Zdigits2 m + e) - e) 0).
    + exact B.
    + subst e'. unfold fexp64. lia.
Qed.

Lemma round_nearest_even_rne m t :
  inject_Z m <= t < inject_Z m + 1 ->
  round_nearest_even m (loc_of t m) = rne t.
Proof.
  intros [A B].
  assert (F : Qfloor t = m).
  { apply Z.le_antisymm.
    - assert (Qfloor t < m + 1)%Z; [|lia].
      rewrite Zlt_Qlt, inject_Z_plus. change (inject_Z 1) with 1.
      pose proof (Qfloor_le t). lra.
    - rewrite <- (Qfloor_Z m). now apply Qfloor_resp_le. }
  unfold rne, loc_of. rewrite F.
  destruct (Qcompare_spec (t - inject_Z m) 0) as [E0|E0|E0];
  destruct (Qcompare_spec (t - inject_Z m) (1 # 2)) as [E1|E1|E1];
  cbn [round_nearest_even]; try reflexivity; lra.
Qed.

(** ** The rounding step of every operation *)

Lemma binade_exists u : 0 < u -> exists k, binade u k.
Proof.
  destruct u as [a b]. intros H.
  assert (Ha : (0 < a)%Z).
  { unfold Qlt in H. simpl in H. lia. }
  destruct (Z.log2_spec a Ha) as [A1 A2].
  destruct (Z.log2_spec (Zpos b) ltac:(lia)) as [B1 B2].
  pose proof (Z.log2_nonneg a) as La. pose proof (Z.log2_nonneg (Zpos b)) as Lb.
  set (la := Z.log2 a) in *. set (lb := Z.log2 (Zpos b)) in *.
  assert (E : a # b == inject_Z a / inject_Z (Zpos b)).
  { rewrite Qmake_Qdiv. reflexivity. }
  assert (Hb : 0 < inject_Z (Zpos b)) by (rewrite <- (Zlt_Qlt 0); lia).
  rewrite Zle_Qle, <- pow2_Z in A1, B1 by lia.
  rewrite Zlt_Qlt, <- pow2_Z in A2, B2 by lia.
  unfold Z.succ in A2, B2. rewrite pow2_succ in A2, B2.
  pose proof (pow2_pos la) as Pa. pose proof (pow2_pos lb) as Pb.
  pose proof (pow2_pos (la - lb)) as Pab.
  assert (Eab : pow2 la == pow2 (la - lb) * pow2 lb).
  { rewrite <- pow2_add. replace (la - lb + lb)%Z with la by lia. reflexivity. }
  destruct (Qlt_le_dec (a # b) (pow2 (la - lb))) as [L|L].
  - exists (la - lb)%Z. split; [|exact L].
    rewrite E. apply Qle_shift_div_l; [exact Hb|].
    rewrite (pow2_pred (la - lb)) in Eab.
    set (x := pow2 (la - lb - 1)) in *.
    assert (0 < x) by (subst x; apply pow2_pos).
    assert (x * inject_Z (Zpos b) <= x * (2 * pow2 lb)).
    { apply Qmult_le_l; [assumption | lra]. }
    nra.
  - exists (la - lb + 1)%Z. split.
    + replace (la - lb + 1 - 1)%Z with (la - lb)%Z by lia. exact L.
    + rewrite E. apply Qlt_shift_div_r; [exact Hb|].
      rewrite pow2_succ.
      set (x := pow2 (la - lb)) in *.
      assert (x * pow2 lb <= x * inject_Z (Zpos b)).
      { apply Qmult_le_l; [assumption | lra]. }
      nra.
Qed.

Lemma fexp64_eq k : fexp64 k = Z.max (k - 53) (-1074).
Proof. reflexivity. Qed.

Lemma div_bounds u e m :
  inject_Z m <= u / pow2 e < inject_Z m + 1 ->
  inject_Z m * pow2 e <= u < (inject_Z m + 1) * pow2 e.
Proof.
  intros [A B]. pose proof (pow2_pos e) as P.
  assert (E : u == u / pow2 e * pow2 e) by (field; lra).
  split.
  - rewrite E at 1. apply Qmult_le_compat_r; [exact A | lra].
  - rewrite E at 1. apply Qmult_lt_compat_r; [exact P | exact B].
Qed.

Lemma div_pow2_pow2 u a b : u / pow2 a / pow2 (b - a) == u / pow2 b.
Proof.
  pose proof (pow2_pos a). pose proof (pow2_pos b). pose proof (pow2_pos (b - a)).
  assert (E : pow2 b == pow2 a * pow2 (b - a)).
  { rewrite <- pow2_add. replace (a + (b - a))%Z with b by lia. reflexivity. }
  rewrite E. field. lra.
Qed.

Lemma digits_binade p e u :
  inject_Z (Zpos p) * pow2 e <= u < (inject_Z (Zpos p) + 1) * pow2 e ->
  binade u (Zpos (digits2_pos p) + e).
Proof.
  intros [B1 B2].
  destruct (digits2_binade p e) as [D1 D2].
  destruct (digits2_bounds p) as [_ D3].
  set (d := Zpos (digits2_pos p)) in *.
  pose proof (pow2_pos e) as P.
  split; [lra|].
  eapply Qlt_le_trans; [exact B2|].
  rewrite pow2_add, (pow2_Z d) by (subst d; lia).
  apply Qmult_le_compat_r; [|lra].
  assert (H : (Zpos p + 1 <= 2 ^ d)%Z) by lia.
  rewrite Zle_Qle, inject_Z_plus in H. exact H.
Qed.

Lemma first_exponent m e u k :
  (0 <= m)%Z -> inject_Z m <= u / pow2 e < inject_Z m + 1 ->
  binade u k -> (e <= fexp64 k)%Z ->
  Z.max e (fexp64 (Zdigits2 m + e)) = fexp64 k.
Proof.
  intros Hm Hb Hk He.
  pose proof (div_bounds _ _ _ Hb) as B.
  destruct m as [|p|p]; [| |lia].
  - cbn [Zdigits2].
    assert (k <= e)%Z.
    { destruct Hk as [K1 K2]. destruct B as [B1 B2].
      assert (k - 1 < e)%Z; [apply pow2_lt_inv|lia].
      change (inject_Z 0) with 0 in B2. lra. }
    rewrite !fexp64_eq in *. lia.
  - cbn [Zdigits2].
    rewrite (binade_unique _ _ _ Hk (digits_binade _ _ _ B)) in *. lia.
Qed.

Lemma inv_shr_m rs z : inv rs (inject_Z z) -> shr_m rs = z.
Proof.
  intros (A & [B C] & _).
  rewrite <- Zle_Qle in B.
  assert (z < shr_m rs + 1)%Z.
  { rewrite Zlt_Qlt, inject_Z_plus. exact C. }
  lia.
Qed.

Lemma cap_small v : v <= pow2 1024 -> cap v == v.
Proof. intros H. unfold cap. now apply Q.min_l. Qed.

Lemma cap_big v : pow2 1024 <= v -> cap v == pow2 1024.
Proof. intros H. unfold cap. now apply Q.min_r. Qed.

Lemma signed_comp s v v' : v == v' -> signed s v == signed s v'.
Proof. intros H. destruct s; cbn; rewrite H; reflexivity. Qed.

#[global] Instance signed_Proper s : Proper (Qeq ==> Qeq) (signed s).
Proof. intros v v' H. now apply signed_comp. Qed.

#[global] Instance cap_Proper : Proper (Qeq ==> Qeq) cap.
Proof. intros v v' H. unfold cap. now rewrite H. Qed.

Lemma ext_finite s p e : ext (S754_finite s p e) == signed s (inject_Z (Zpos p) * pow2 e).
Proof.
  destruct s; cbn [ext cond_Zopp signed]; [|reflexivity].
  change (Z.opp (Zpos p)) with (- Zpos p)%Z.
  rewrite inject_Z_opp. ring.
Qed.

Lemma ext_infinity s : ext (S754_infinity s) == signed s (pow2 1024).
Proof. destruct s; reflexivity. Qed.

Lemma pow2_1024_split : pow2 1024 == pow2 53 * pow2 971.
Proof. rewrite <- pow2_add. reflexivity. Qed.

Ltac pow2_nz :=
  match goal with
  | |- ~ pow2 ?e == 0 =>
      let H := fresh in intro H; pose proof (pow2_pos e); lra
  end.

(** The rounding step shared by every operation: given the integer part
    [m] of [u / 2^e] and the place of [u / 2^e] between [m] and [m + 1], with
    [e] not above the exponent of the binade of [u], the result is a valid
    double of the sign asked for, whose value is [u] rounded to the nearest
    double, ties to even, or the infinity past the largest double. *)
Theorem binary_round_aux_spec sx m e l u :
  (0 <= m)%Z ->
  inject_Z m <= u / pow2 e < inject_Z m + 1 -> l = loc_of (u / pow2 e) m ->
  (forall k, binade u k -> (e <= fexp64 k)%Z) ->
  has_sign sx (binary_round_aux prec emax sx m e l) /\
  SpecFloat.valid_binary prec emax (binary_round_aux prec emax sx m e l) = true /\
  exists v, rounded u v /\
            ext (binary_round_aux prec emax sx m e l) == signed sx (cap v).
Proof.
  intros Hm Hb Hl Hk.
  unfold binary_round_aux.
  destruct (shr_fexp_inv m e l (u / pow2 e) Hm Hb Hl) as [E1 I1].
  destruct (shr_fexp prec emax m e l) as [rs1 e1]. cbn [fst snd] in E1, I1.
  remember (Z.max e (fexp64 (Zdigits2 m + e))) as e1' eqn:De1.
  apply (inv_comp _ _ _ (div_pow2_pow2 u e e1')) in I1.
  subst e1.
  assert (HM : round_nearest_even (shr_m rs1) (loc_of_shr_record rs1)
               = rne (u / pow2 e1')).
  { destruct I1 as (_ & B & L). rewrite L. now apply round_nearest_even_rne. }
  rewrite HM. clear HM. remember (rne (u / pow2 e1')) as M eqn:DM.
  assert (Hu : 0 <= u).
  { destruct (div_bounds _ _ _ Hb) as [B _]. pose proof (pow2_pos e).
    rewrite Zle_Qle in Hm. change (inject_Z 0) with 0 in Hm.
    assert (0 <= inject_Z m * pow2 e) by (apply Qmult_le_0_compat; lra). lra. }
  assert (HM0 : (0 <= M)%Z).
  { rewrite DM. apply rne_ge_Z. change (inject_Z 0) with 0.
    pose proof (pow2_pos e1'). apply Qle_shift_div_l; [assumption|lra]. }
  assert (MB : inject_Z M <= inject_Z M < inject_Z M + 1) by lra.
  destruct (shr_fexp_inv M e1' loc_Exact (inject_Z M) HM0 MB) as [E2 I2].
  { unfold loc_of. rewrite Qcompare_Eq by lra. reflexivity. }
  destruct (shr_fexp prec emax M e1' loc_Exact) as [rs2 e2]. cbn [fst snd] in E2, I2.
  rewrite <- E2 in I2.
  destruct (Qlt_le_dec 0 u) as [Hpos|Hzero].
  2:{ (* u == 0 *)
    assert (U0 : u == 0) by lra.
    assert (M0 : M = 0%Z).
    { rewrite DM. rewrite (rne_comp _ 0); [apply (rne_Z 0)|]. rewrite U0.
      field. pow2_nz. }
    rewrite M0 in I2.
    assert (Z2 : shr_m rs2 = 0%Z).
    { apply inv_shr_m. eapply inv_comp; [|exact I2].
      change (inject_Z 0) with 0. field. pow2_nz. }
    rewrite Z2. cbn [has_sign]. split; [reflexivity|]. split; [reflexivity|].
    exists 0. split; [left; split; [exact U0|reflexivity]|].
    cbn [ext]. rewrite (cap_small 0) by (pose proof (pow2_pos 1024); lra).
    destruct sx; reflexivity. }
  destruct (binade_exists u Hpos) as [k Bk].
  pose proof (Hk k Bk) as He.
  assert (E1 : e1' = fexp64 k) by (rewrite De1; apply (first_exponent m e u k); assumption).
  set (E := fexp64 k) in *.
  assert (HE : E = Z.max (k - 53) (-1074)) by apply fexp64_eq.
  assert (Hv : rounded u (inject_Z M * pow2 E)).
  { right. exists k. split; [exact Bk|]. fold E. rewrite DM, E1. reflexivity. }
  clear De1. subst e1'.
  pose proof (pow2_pos E) as PE.
  assert (Mle : (M <= 2 ^ 53)%Z).
  { rewrite DM. apply rne_le_Z. rewrite <- pow2_Z by lia.
    apply Qle_shift_div_r; [exact PE|].
    rewrite <- pow2_add. destruct Bk as [_ K2].
    assert (pow2 k <= pow2 (53 + E)) by (apply pow2_le; lia). lra. }
  assert (Mge : (-1074 < E)%Z -> (2 ^ 52 <= M)%Z).
  { intros HEm. rewrite DM. apply rne_ge_Z. rewrite <- pow2_Z by lia.
    apply Qle_shift_div_l; [exact PE|].
    rewrite <- pow2_add. destruct Bk as [K1 _].
    replace (52 + E)%Z with (k - 1)%Z by lia. exact K1. }
  destruct (Z.eq_dec M 0) as [M0|M0].
  { (* rounds to zero *)
    assert (E2' : e2 = E).
    { rewrite E2, M0. cbn [Zdigits2]. rewrite fexp64_eq. lia. }
    rewrite E2', M0 in I2.
    assert (Z2 : shr_m rs2 = 0%Z).
    { apply inv_shr_m. eapply inv_comp; [|exact I2].
      change (inject_Z 0) with 0. field. pow2_nz. }
    rewrite Z2. cbn [has_sign]. split; [reflexivity|]. split; [reflexivity|].
    exists (inject_Z M * pow2 E). split; [exact Hv|].
    rewrite M0. cbn [ext]. change (inject_Z 0) with 0.
    rewrite (cap_small (0 * pow2 E)) by (pose proof (pow2_pos 1024); lra).
    destruct sx; cbn [signed]; ring. }
  destruct (Z.eq_dec M (2 ^ 53)) as [Mtop|Mtop].
  { (* rounds up to the next binade *)
    assert (E2' : e2 = (E + 1)%Z).
    { rewrite E2, Mtop. change (Zdigits2 (2 ^ 53)) with 54%Z. rewrite fexp64_eq. lia. }
    rewrite E2', Mtop in I2.
    assert (Z2 : shr_m rs2 = (2 ^ 52)%Z).
    { apply inv_shr_m. eapply inv_comp; [|exact I2].
      replace (E + 1 - E)%Z with 1%Z by lia. reflexivity. }
    rewrite Z2, E2'. change (2 ^ 52)%Z with (Zpos (2 ^ 52)).
    assert (V : inject_Z (Zpos (2 ^ 52)) * pow2 (E + 1) == inject_Z M * pow2 E).
    { rewrite Mtop, pow2_succ.
      change (inject_Z (2 ^ 53)) with (2 * inject_Z (Zpos (2 ^ 52))). ring. }
    destruct (Z.leb_spec (E + 1) (emax - prec)) as [Hfin|Hinf];
      change (emax - prec)%Z with 971%Z in *.
    - cbn [has_sign]. split; [reflexivity|]. split.
      { cbn [SpecFloat.valid_binary]. unfold bounded, canonical_mantissa.
        apply andb_true_intro. split; [apply Z.eqb_eq | apply Z.leb_le; exact Hfin].
        change (Zpos (digits2_pos (2 ^ 52))) with 53%Z.
        fold (fexp64 (53 + (E + 1))). rewrite fexp64_eq. lia. }
      exists (inject_Z M * pow2 E). split; [exact Hv|].
      rewrite ext_finite. apply signed_comp. rewrite V.
      symmetry. apply cap_small. rewrite <- V.
      rewrite pow2_1024_split, <- (pow2_Z 52) by lia.
      assert (pow2 (E + 1) <= pow2 971) by (apply pow2_le; lia).
      assert (pow2 52 <= pow2 53) by (apply pow2_le; lia).
      pose proof (pow2_pos 52). pose proof (pow2_pos (E + 1)).
      apply Qmult_le_compat_nonneg; split; lra.
    - cbn [has_sign]. split; [reflexivity|]. split; [reflexivity|].
      exists (inject_Z M * pow2 E). split; [exact Hv|].
      rewrite ext_infinity. apply signed_comp. symmetry. apply cap_big.
      rewrite pow2_1024_split, Mtop, <- (pow2_Z 53) by lia.
      apply Qmult_le_l; [apply pow2_pos|]. apply pow2_le. lia. }
  (* the mantissa fits *)
  assert (Hd : (Zdigits2 M <= 53)%Z).
  { destruct M as [|p|p]; try lia. cbn [Zdigits2].
    destruct (digits2_bounds p) as [D _].
    assert (2 ^ (Zpos (digits2_pos p) - 1) < 2 ^ 53)%Z by lia.
    apply Z.pow_lt_mono_r_iff in H; lia. }
  assert (E2' : e2 = E).
  { rewrite E2. rewrite fexp64_eq. lia. }
  rewrite E2' in I2.
  assert (Z2 : shr_m rs2 = M).
  { apply inv_shr_m. eapply inv_comp; [|exact I2].
    replace (E - E)%Z with 0%Z by lia. change (pow2 0) with 1. field. }
  rewrite Z2, E2'.
  destruct M as [|p|p]; try lia.
  destruct (Z.leb_spec E (emax - prec)) as [Hfin|Hinf];
    change (emax - prec)%Z with 971%Z in *.
  - cbn [has_sign]. split; [reflexivity|]. split.
    { cbn [SpecFloat.valid_binary]. unfold bounded, canonical_mantissa.
      apply andb_true_intro. split; [apply Z.eqb_eq | apply Z.leb_le; exact Hfin].
      fold (fexp64 (Zpos (digits2_pos p) + E)). rewrite fexp64_eq.
      cbn [Zdigits2] in Hd.
      destruct (Z.eq_dec E (-1074)) as [Em|Em]; [lia|].
      specialize (Mge ltac:(lia)). destruct (digits2_bounds p) as [_ D].
      assert (2 ^ 52 < 2 ^ Zpos (digits2_pos p))%Z by lia.
      apply Z.pow_lt_mono_r_iff in H; lia. }
    exists (inject_Z (Zpos p) * pow2 E). split; [exact Hv|].
    rewrite ext_finite. apply signed_comp.
    symmetry. apply cap_small.
    rewrite pow2_1024_split.
    assert (pow2 E <= pow2 971) by (apply pow2_le; lia).
    assert (inject_Z (Zpos p) <= pow2 53).
    { rewrite pow2_Z by lia. rewrite <- Zle_Qle. lia. }
    assert (0 <= inject_Z (Zpos p)) by (rewrite <- (Zle_Qle 0); lia).
    apply Qmult_le_compat_nonneg; split; lra.
  - cbn [has_sign]. split; [reflexivity|]. split; [reflexivity|].
    exists (inject_Z (Zpos p) * pow2 E). split; [exact Hv|].
    rewrite ext_infinity. apply signed_comp. symmetry. apply cap_big.
    assert (pow2 1024 == pow2 52 * pow2 972) by (rewrite <- pow2_add; reflexivity).
    rewrite H. specialize (Mge ltac:(lia)).
    assert (pow2 52 <= inject_Z (Zpos p)).
    { rewrite pow2_Z by lia. rewrite <- Zle_Qle. lia. }
    assert (pow2 972 <= pow2 E) by (apply pow2_le; lia).
    pose proof (pow2_pos 52). pose proof (pow2_pos 972).
    apply Qmult_le_compat_nonneg; split; lra.
Qed.

Lemma binade_comp u u' k : u == u' -> binade u k -> binade u' k.
Proof. intros H [A B]. split; rewrite <- H; assumption. Qed.

Lemma rounded_comp u u' v : u == u' -> rounded u v -> rounded u' v.
Proof.
  intros H [[A B]|(k & A & B)].
  - left. split; [now rewrite <- H | exact B].
  - right. exists k. split; [now apply (binade_comp u)|].
    rewrite B. rewrite (rne_comp (u / pow2 (fexp64 k)) (u' / pow2 (fexp64 k))); [reflexivity|].
    now rewrite H.
Qed.

Lemma rounded_nonneg u v : rounded u v -> 0 <= v.
Proof.
  intros [[A B]|(k & A & B)]; [lra|].
  rewrite B. pose proof (pow2_pos (fexp64 k)) as P.
  apply Qmult_le_0_compat; [|lra].
  rewrite <- (Zle_Qle 0). apply rne_ge_Z. change (inject_Z 0) with 0.
  apply Qle_shift_div_l; [exact P|]. apply binade_pos in A. lra.
Qed.

Lemma rounded_mono u w v v' :
  rounded u v -> rounded w v' -> u <= w -> v <= v'.
Proof.
  intros Hu Hw H.
  pose proof (rounded_nonneg _ _ Hw) as Nw.
  destruct Hu as [[A B]|(k & A & B)]; [lra|].
  pose proof (binade_pos _ _ A) as Pu.
  destruct Hw as [[A' B']|(k' & A' & B')]; [lra|].
  pose proof (binade_mono _ _ _ _ A A' H) as Hk.
  rewrite B, B'. clear B B'.
  pose proof (fexp64_eq k) as Ek. pose proof (fexp64_eq k') as Ek'.
  set (E := fexp64 k) in *. set (E' := fexp64 k') in *.
  pose proof (pow2_pos E) as PE. pose proof (pow2_pos E') as PE'.
  destruct (Z.eq_dec E E') as [EE|NE].
  - rewrite <- EE. apply Qmult_le_compat_r; [|lra].
    rewrite <- Zle_Qle. apply rne_mono.
    apply Qmult_le_compat_r; [exact H|]. apply Qlt_le_weak, Qinv_lt_0_compat, PE.
  - assert (HE : (E < E')%Z) by lia.
    assert (HE' : E' = (k' - 53)%Z) by lia.
    apply Qle_trans with (pow2 (k' - 1)).
    + (* below the binade of w *)
      assert (S : pow2 (k' - 1) == inject_Z (2 ^ (k' - 1 - E)) * pow2 E).
      { rewrite <- pow2_Z by lia. rewrite <- pow2_add.
        replace (k' - 1 - E + E)%Z with (k' - 1)%Z by lia. reflexivity. }
      rewrite S. apply Qmult_le_compat_r; [|lra].
      rewrite <- Zle_Qle. apply rne_le_Z.
      apply Qle_shift_div_r; [exact PE|]. rewrite <- S.
      destruct A as [_ A2].
      assert (pow2 k <= pow2 (k' - 1)) by (apply pow2_le; lia). lra.
    + assert (S : pow2 (k' - 1) == inject_Z (2 ^ 52) * pow2 E').
      { rewrite <- pow2_Z by lia. rewrite <- pow2_add.
        replace (52 + E')%Z with (k' - 1)%Z by lia. reflexivity. }
      rewrite S. apply Qmult_le_compat_r; [|lra].
      rewrite <- Zle_Qle. apply rne_ge_Z.
      apply Qle_shift_div_l; [exact PE'|]. rewrite <- S.
      destruct A' as [A1 _]. exact A1.
Qed.

Lemma cap_mono v v' : v <= v' -> cap v <= cap v'.
Proof. intros H. unfold cap. apply Q.min_le_compat_r. exact H. Qed.

Lemma cap_nonneg v : 0 <= v -> 0 <= cap v.
Proof.
  intros H. unfold cap. apply Q.min_glb; [exact H|].
  apply Qlt_le_weak, pow2_pos.
Qed.

Lemma cap_le v : cap v <= pow2 1024.
Proof. apply Q.le_min_r. Qed.

Lemma rnd_comp u u' r : u == u' -> rnd u r -> rnd u' r.
Proof.
  intros H (N & v & R & P1 & P2). split; [exact N|].
  exists v. split; [|split].
  - apply (rounded_comp (Qabs u)); [now rewrite H | exact R].
  - intros L. apply P1. now rewrite H.
  - intros L. apply P2. now rewrite H.
Qed.

(** Rounding is monotone. *)
Theorem rnd_mono u w r r' : rnd u r -> rnd w r' -> u <= w -> ext r <= ext r'.
Proof.
  intros (_ & v & R & P1 & P2) (_ & v' & R' & P1' & P2') H.
  pose proof (cap_nonneg _ (rounded_nonneg _ _ R)) as Nv.
  pose proof (cap_nonneg _ (rounded_nonneg _ _ R')) as Nv'.
  destruct (Qlt_le_dec u 0) as [Lu|Lu]; destruct (Qlt_le_dec w 0) as [Lw|Lw].
  - rewrite P2, P2' by lra.
    assert (cap v' <= cap v); [|lra].
    apply cap_mono. apply (rounded_mono _ _ _ _ R' R).
    rewrite !Qabs_neg by lra. lra.
  - rewrite P2, P1' by lra. lra.
  - lra.
  - rewrite P1, P1' by lra. apply cap_mono. apply (rounded_mono _ _ _ _ R R').
    rewrite !Qabs_pos by lra. exact H.
Qed.

Lemma rnd_unique u r r' : rnd u r -> rnd u r' -> ext r == ext r'.
Proof.
  intros H H'. apply Qle_antisym; eapply rnd_mono; eauto; lra.
Qed.

Lemma rnd_bounds u r : rnd u r -> - pow2 1024 <= ext r <= pow2 1024.
Proof.
  intros (_ & v & R & P1 & P2).
  pose proof (cap_nonneg _ (rounded_nonneg _ _ R)) as Nv.
  pose proof (cap_le v) as Cv.
  destruct (Qlt_le_dec u 0) as [L|L].
  - rewrite P2 by lra. lra.
  - rewrite P1 by lra. lra.
Qed.

(** From the statement with a sign to [rnd]. *)
Lemma rnd_of_signed s a r :
  0 <= a -> has_sign s r ->
  (exists v, rounded a v /\ ext r == signed s (cap v)) ->
  rnd (signed s a) r.
Proof.
  intros Ha Hs (v & R & E). split.
  { destruct r; try discriminate. contradiction. }
  exists v. split; [|split].
  - apply (rounded_comp a); [|exact R].
    destruct s; cbn [signed]; [rewrite Qabs_opp|]; rewrite Qabs_pos; lra.
  - intros L. destruct s; cbn [signed] in *; [|exact E].
    assert (A0 : a == 0) by lra.
    assert (V0 : v == 0).
    { destruct R as [[_ B]|(k & A & _)]; [exact B|]. apply binade_pos in A. lra. }
    rewrite E, V0. unfold cap. rewrite Q.min_l; [reflexivity|].
    apply Qlt_le_weak, pow2_pos.
  - intros L. destruct s; cbn [signed] in *; [exact E|].
    assert (A0 : a == 0) by lra.
    assert (V0 : v == 0).
    { destruct R as [[_ B]|(k & A & _)]; [exact B|]. apply binade_pos in A. lra. }
    rewrite E, V0. unfold cap. rewrite Q.min_l; [reflexivity|].
    apply Qlt_le_weak, pow2_pos.
Qed.

Lemma bounded_facts m e :
  bounded prec emax m e = true ->
  let d := Zpos (digits2_pos m) in
  fexp64 (d + e) = e /\ (d <= 53)%Z /\ (-1074 <= e <= 971)%Z /\
  ((-1074 < e)%Z -> d = 53%Z).
Proof.
  intros H d. unfold bounded, canonical_mantissa in H.
  apply andb_prop in H. destruct H as [C B].
  apply Z.eqb_eq in C. apply Z.leb_le in B.
  change (emax - prec)%Z with 971%Z in B.
  fold (fexp64 (Zpos (digits2_pos m) + e)) in C. fold d in C.
  pose proof (fexp64_eq (d + e)) as F. lia.
Qed.

Lemma mantissa_bounds m e :
  bounded prec emax m e = true ->
  0 < inject_Z (Zpos m) < pow2 53 /\
  ((-1074 < e)%Z -> pow2 52 <= inject_Z (Zpos m)).
Proof.
  intros H. destruct (bounded_facts m e H) as (_ & D & _ & N).
  destruct (digits2_bounds m) as [L U].
  split; [split|].
  - rewrite <- (Zlt_Qlt 0). lia.
  - rewrite pow2_Z by lia. rewrite <- Zlt_Qlt.
    eapply Z.lt_le_trans; [exact U|]. apply Z.pow_le_mono_r; lia.
  - intros He. rewrite (N He) in L. rewrite pow2_Z by lia.
    rewrite <- Zle_Qle. exact L.
Qed.

Lemma finite_value_bounds m e :
  bounded prec emax m e = true ->
  0 < inject_Z (Zpos m) * pow2 e < pow2 1024.
Proof.
  intros H. destruct (mantissa_bounds m e H) as ([A B] & _).
  destruct (bounded_facts m e H) as (_ & _ & E & _).
  pose proof (pow2_pos e) as P.
  split.
  - apply Qmult_lt_0_compat; assumption.
  - rewrite pow2_1024_split.
    apply Qlt_le_trans with (pow2 53 * pow2 e).
    + apply Qmult_lt_compat_r; assumption.
    + apply Qmult_le_l; [apply pow2_pos|]. apply pow2_le. lia.
Qed.

Lemma value_lt_of_exp_lt m1 e1 m2 e2 :
  bounded prec emax m1 e1 = true -> bounded prec emax m2 e2 = true ->
  (e1 < e2)%Z ->
  inject_Z (Zpos m1) * pow2 e1 < inject_Z (Zpos m2) * pow2 e2.
Proof.
  intros H1 H2 H.
  destruct (mantissa_bounds m1 e1 H1) as ([A1 B1] & _).
  destruct (mantissa_bounds m2 e2 H2) as (_ & C2).
  destruct (bounded_facts m1 e1 H1) as (_ & _ & E1 & _).
  specialize (C2 ltac:(lia)).
  pose proof (pow2_pos e1) as P1. pose proof (pow2_pos e2) as P2.
  apply Qlt_le_trans with (pow2 53 * pow2 e1).
  - apply Qmult_lt_compat_r; assumption.
  - apply Qle_trans with (pow2 52 * pow2 e2).
    + rewrite <- !pow2_add. apply pow2_le. lia.
    + apply Qmult_le_compat_r; [exact C2 | lra].
Qed.

Lemma value_compare_mantissa m1 m2 e :
  (inject_Z (Zpos m1) * pow2 e ?= inject_Z (Zpos m2) * pow2 e) = Pos.compare m1 m2.
Proof.
  pose proof (pow2_pos e) as P.
  destruct (Pos.compare_spec m1 m2) as [E|L|L].
  - subst. apply Qcompare_Eq. reflexivity.
  - apply Qcompare_Lt. apply Qmult_lt_compat_r; [exact P|].
    rewrite <- Zlt_Qlt. lia.
  - apply Qcompare_Gt. apply Qmult_lt_compat_r; [exact P|].
    rewrite <- Zlt_Qlt. lia.
Qed.

Lemma ext_finite_pos m e : ext (S754_finite false m e) = inject_Z (Zpos m) * pow2 e.
Proof. reflexivity. Qed.

Lemma ext_finite_neg m e : ext (S754_finite true m e) == - (inject_Z (Zpos m) * pow2 e).
Proof. apply (ext_finite true). Qed.

Lemma Qcompare_opp a b : (- a ?= - b) = CompOpp (a ?= b).
Proof.
  destruct (Qcompare_spec a b) as [E|L|L]; cbn [CompOpp].
  - apply Qcompare_Eq. lra.
  - apply Qcompare_Gt. lra.
  - apply Qcompare_Lt. lra.
Qed.

(** The comparison of two numbers is the comparison of their values. *)
Theorem SFcompare_ext f1 f2 :
  SpecFloat.valid_binary prec emax f1 = true ->
  SpecFloat.valid_binary prec emax f2 = true ->
  f1 <> S754_nan -> f2 <> S754_nan ->
  SFcompare f1 f2 = Some (ext f1 ?= ext f2).
Proof.
  intros V1 V2 N1 N2.
  pose proof (pow2_pos 1024) as P.
  destruct f1 as [s1|s1| |s1 m1 e1]; [| |congruence|];
  destruct f2 as [s2|s2| |s2 m2 e2]; try congruence;
  cbn [SpecFloat.valid_binary] in V1, V2;
  try pose proof (finite_value_bounds _ _ V1) as B1;
  try pose proof (finite_value_bounds _ _ V2) as B2;
  cbn [SFcompare]; f_equal; symmetry.
  - destruct s2; cbn [ext]; [apply Qcompare_Gt | apply Qcompare_Lt]; lra.
  - destruct s2; [rewrite ext_finite_neg; apply Qcompare_Gt
                 | rewrite ext_finite_pos; apply Qcompare_Lt]; cbn [ext]; lra.
  - destruct s1; cbn [ext]; [apply Qcompare_Lt | apply Qcompare_Gt]; lra.
  - destruct s1, s2; cbn [ext]; [apply Qcompare_Eq | apply Qcompare_Lt
                                | apply Qcompare_Gt | apply Qcompare_Eq]; lra.
  - destruct s1; [apply Qcompare_Lt | apply Qcompare_Gt];
      destruct s2; rewrite ?ext_finite_neg, ?ext_finite_pos; cbn [ext]; lra.
  - destruct s1; [rewrite ext_finite_neg; apply Qcompare_Lt
                 | rewrite ext_finite_pos; apply Qcompare_Gt]; cbn [ext]; lra.
  - destruct s2; [apply Qcompare_Gt | apply Qcompare_Lt];
      destruct s1; rewrite ?ext_finite_neg, ?ext_finite_pos; cbn [ext]; lra.
  - destruct s1, s2.
    + rewrite !ext_finite_neg, Qcompare_opp.
      destruct (Z.compare_spec e1 e2) as [E|L|L].
      * subst. rewrite value_compare_mantissa. reflexivity.
      * rewrite Qcompare_Lt by (now apply value_lt_of_exp_lt). reflexivity.
      * rewrite Qcompare_Gt by (now apply value_lt_of_exp_lt). reflexivity.
    + rewrite ext_finite_neg, ext_finite_pos. apply Qcompare_Lt. lra.
    + rewrite ext_finite_neg, ext_finite_pos. apply Qcompare_Gt. lra.
    + rewrite !ext_finite_pos.
      destruct (Z.compare_spec e1 e2) as [E|L|L].
      * subst. apply value_compare_mantissa.
      * apply Qcompare_Lt. now apply value_lt_of_exp_lt.
      * apply Qcompare_Gt. now apply value_lt_of_exp_lt.
Qed.

(** ** A double is its own rounding *)

Lemma rounded_float m e :
  bounded prec emax m e = true ->
  rounded (inject_Z (Zpos m) * pow2 e) (inject_Z (Zpos m) * pow2 e).
Proof.
  intros H. destruct (bounded_facts m e H) as (F & _).
  right. exists (Zpos (digits2_pos m) + e)%Z.
  split; [apply digits2_binade|].
  rewrite F.
  rewrite (rne_comp _ (inject_Z (Zpos m))), rne_Z; [reflexivity|].
  field. pow2_nz.
Qed.

Lemma rounded_top : rounded (pow2 1024) (pow2 1024).
Proof.
  right. exists 1025%Z. split.
  - split; [apply Qle_refl | apply pow2_lt; lia].
  - change (fexp64 1025) with 972%Z.
    rewrite (rne_comp _ (inject_Z (2 ^ 52))), rne_Z.
    + rewrite <- pow2_Z by lia. rewrite <- pow2_add. reflexivity.
    + rewrite <- pow2_Z by lia. rewrite <- pow2_sub. reflexivity.
Qed.

Lemma rounded_zero : rounded 0 0.
Proof. left. split; reflexivity. Qed.

(** A number is its own rounding. *)
Theorem rnd_float r :
  SpecFloat.valid_binary prec emax r = true -> r <> S754_nan -> rnd (ext r) r.
Proof.
  intros V N. destruct r as [s|s| |s m e]; [| |congruence|].
  - apply (rnd_comp (signed s 0)); [destruct s; reflexivity|].
    apply rnd_of_signed; [lra | reflexivity |].
    exists 0. split; [apply rounded_zero|].
    cbn [ext]. rewrite cap_small by (apply Qlt_le_weak, pow2_pos).
    destruct s; reflexivity.
  - apply (rnd_comp (signed s (pow2 1024))); [now rewrite ext_infinity|].
    apply rnd_of_signed; [apply Qlt_le_weak, pow2_pos | reflexivity |].
    exists (pow2 1024). split; [apply rounded_top|].
    rewrite ext_infinity, cap_small by apply Qle_refl. reflexivity.
  - cbn [SpecFloat.valid_binary] in V.
    pose proof (finite_value_bounds m e V) as [B1 B2].
    apply (rnd_comp (signed s (inject_Z (Zpos m) * pow2 e))); [now rewrite ext_finite|].
    apply rnd_of_signed; [lra | reflexivity |].
    exists (inject_Z (Zpos m) * pow2 e). split; [now apply rounded_float|].
    rewrite ext_finite, cap_small by lra. reflexivity.
Qed.

(** ** Alignment of two mantissas *)

Lemma Pos_iter_xO p d : Zpos (Pos.iter xO p d) = (Zpos p * 2 ^ Zpos d)%Z.
Proof.
  induction d as [|d IH] using Pos.peano_ind.
  - cbn. lia.
  - rewrite Pos.iter_succ, Pos2Z.inj_xO, IH, Pos2Z.inj_succ, Z.pow_succ_r by lia. lia.
Qed.

Lemma shl_align_spec mx ex ex' :
  snd (shl_align mx ex ex') = Z.min ex ex' /\
  inject_Z (Zpos (fst (shl_align mx ex ex'))) * pow2 (Z.min ex ex')
    == inject_Z (Zpos mx) * pow2 ex.
Proof.
  unfold shl_align. destruct (ex' - ex)%Z as [|d|d] eqn:E; cbn [fst snd].
  - replace (Z.min ex ex') with ex by lia. split; reflexivity.
  - replace (Z.min ex ex') with ex by lia. split; reflexivity.
  - replace (Z.min ex ex') with ex' by lia. split; [reflexivity|].
    rewrite Pos_iter_xO, inject_Z_mult, <- pow2_Z by lia.
    rewrite <- Qmult_assoc, <- pow2_add.
    replace (Z.pos d + ex')%Z with ex by lia. reflexivity.
Qed.

(** ** An integer times a power of two, rounded *)

Lemma exact_inv_bounds m (u : Q) e :
  u == inject_Z m * pow2 e ->
  inject_Z m <= u / pow2 e < inject_Z m + 1 /\ loc_Exact = loc_of (u / pow2 e) m.
Proof.
  intros H.
  assert (E : u / pow2 e == inject_Z m) by (rewrite H; field; pow2_nz).
  split; [rewrite E; lra|].
  unfold loc_of. rewrite Qcompare_Eq by (rewrite E; lra). reflexivity.
Qed.

Lemma binary_round_spec s p e :
  has_sign s (binary_round prec emax s p e) /\
  SpecFloat.valid_binary prec emax (binary_round prec emax s p e) = true /\
  exists v, rounded (inject_Z (Zpos p) * pow2 e) v /\
            ext (binary_round prec emax s p e) == signed s (cap v).
Proof.
  unfold binary_round.
  pose proof (shl_align_spec p e (SpecFloat.fexp prec emax (Zpos (digits2_pos p) + e)))
    as [A B].
  fold (fexp64 (Zpos (digits2_pos p) + e)) in *.
  destruct (shl_align p e (fexp64 (Z.pos (digits2_pos p) + e))) as [mz ez].
  cbn [fst snd] in A, B. rewrite <- A in B.
  destruct (exact_inv_bounds (Zpos mz) (inject_Z (Zpos p) * pow2 e) ez) as [Hb Hl].
  { now rewrite B. }
  apply binary_round_aux_spec; try assumption; [lia|].
  intros k Hk.
  rewrite (binade_unique _ _ _ Hk (digits2_binade p e)). lia.
Qed.

Lemma binary_normalize_spec z e :
  rnd (inject_Z z * pow2 e) (binary_normalize prec emax z e false).
Proof.
  pose proof (pow2_pos e) as P.
  destruct z as [|p|p]; cbn [binary_normalize].
  - apply (rnd_comp (signed false 0)); [cbn; change (inject_Z 0) with 0; ring|].
    apply rnd_of_signed; [lra | reflexivity |].
    exists 0. split; [apply rounded_zero|].
    cbn [ext signed]. rewrite cap_small by (apply Qlt_le_weak, pow2_pos). reflexivity.
  - destruct (binary_round_spec false p e) as (S & _ & R).
    apply (rnd_comp (signed false (inject_Z (Zpos p) * pow2 e))); [reflexivity|].
    apply rnd_of_signed; [|exact S|exact R].
    apply Qmult_le_0_compat; [|lra]. rewrite <- (Zle_Qle 0). lia.
  - destruct (binary_round_spec true p e) as (S & _ & R).
    apply (rnd_comp (signed true (inject_Z (Zpos p) * pow2 e))).
    { cbn [signed]. change (Zneg p) with (- Zpos p)%Z. rewrite inject_Z_opp. ring. }
    apply rnd_of_signed; [|exact S|exact R].
    apply Qmult_le_0_compat; [|lra]. rewrite <- (Zle_Qle 0). lia.
Qed.

(** ** Subtraction and multiplication of the specification *)

Lemma aligned_value s m e ez :
  (ez <= e)%Z ->
  inject_Z (cond_Zopp s (Zpos (fst (shl_align m e ez)))) * pow2 ez
    == ext (S754_finite s m e).
Proof.
  intros H. destruct (shl_align_spec m e ez) as [_ B].
  replace (Z.min e ez) with ez in B by lia.
  rewrite ext_finite.
  destruct s; cbn [cond_Zopp signed].
  - change (Z.opp (Zpos (fst (shl_align m e ez)))) with (- Zpos (fst (shl_align m e ez)))%Z.
    rewrite inject_Z_opp, <- B. ring.
  - exact B.
Qed.

Lemma ext_opp_finite s m e :
  ext (S754_finite (negb s) m e) == - ext (S754_finite s m e).
Proof. rewrite !ext_finite. destruct s; cbn [negb signed]; ring. Qed.

(** The difference of two finite doubles is the exact difference, rounded. *)
Theorem SFsub_rnd x y :
  SpecFloat.valid_binary prec emax x = true ->
  SpecFloat.valid_binary prec emax y = true ->
  fin x -> fin y ->
  rnd (ext x - ext y) (SFsub prec emax x y).
Proof.
  intros Vx Vy Fx Fy.
  destruct x as [sx|sx| |sx mx ex]; try contradiction;
  destruct y as [sy|sy| |sy my ey]; try contradiction; cbn [SFsub].
  - apply (rnd_comp 0); [cbn [ext]; ring|].
    destruct sx, sy; apply (rnd_float (S754_zero _)); try reflexivity; discriminate.
  - apply (rnd_comp (ext (S754_finite (negb sy) my ey))).
    { rewrite ext_opp_finite. cbn [ext]. ring. }
    apply rnd_float; [exact Vy | discriminate].
  - apply (rnd_comp (ext (S754_finite sx mx ex))); [cbn [ext]; ring|].
    apply rnd_float; [exact Vx | discriminate].
  - eapply rnd_comp; [|apply binary_normalize_spec].
    rewrite <- (aligned_value sx mx ex (Z.min ex ey)) by lia.
    rewrite <- (aligned_value sy my ey (Z.min ex ey)) by lia.
    unfold Z.sub at 1. rewrite inject_Z_plus, inject_Z_opp. ring.
Qed.

Lemma rnd_zero s u : u == 0 -> rnd u (S754_zero s).
Proof.
  intros H. apply (rnd_comp (ext (S754_zero s))); [now rewrite H|].
  apply rnd_float; [reflexivity | discriminate].
Qed.

Lemma ext_mul_finite sx mx ex sy my ey :
  ext (S754_finite sx mx ex) * ext (S754_finite sy my ey)
  == signed (xorb sx sy) (inject_Z (Zpos (mx * my)) * pow2 (ex + ey)).
Proof.
  rewrite !ext_finite, Pos2Z.inj_mul, inject_Z_mult, pow2_add.
  destruct sx, sy; cbn [xorb signed]; ring.
Qed.

Lemma digits_mul mx my :
  (Zpos (digits2_pos mx) + Zpos (digits2_pos my) - 1 <= Zpos (digits2_pos (mx * my)))%Z.
Proof.
  destruct (digits2_bounds mx) as [A _]. destruct (digits2_bounds my) as [B _].
  destruct (digits2_bounds (mx * my)) as [_ C].
  set (d1 := Zpos (digits2_pos mx)) in *. set (d2 := Zpos (digits2_pos my)) in *.
  set (d := Zpos (digits2_pos (mx * my))) in *.
  assert (H1 : (0 < d1)%Z) by (subst d1; lia).
  assert (H2 : (0 < d2)%Z) by (subst d2; lia).
  assert (H : (2 ^ (d1 - 1 + (d2 - 1)) < 2 ^ d)%Z).
  { rewrite Z.pow_add_r by lia. rewrite Pos2Z.inj_mul in C.
    eapply Z.le_lt_trans; [|exact C]. apply Z.mul_le_mono_nonneg; lia. }
  apply Z.pow_lt_mono_r_iff in H; subst d; lia.
Qed.

(** The product of two finite doubles is the exact product, rounded. *)
Theorem SFmul_rnd x y :
  SpecFloat.valid_binary prec emax x = true ->
  SpecFloat.valid_binary prec emax y = true ->
  fin x -> fin y ->
  rnd (ext x * ext y) (SFmul prec emax x y).
Proof.
  intros Vx Vy Fx Fy.
  destruct x as [sx|sx| |sx mx ex]; try contradiction;
  destruct y as [sy|sy| |sy my ey]; try contradiction; cbn [SFmul];
    try (apply rnd_zero; cbn [ext]; ring).
  cbn [SpecFloat.valid_binary] in Vx, Vy.
  eapply rnd_comp; [symmetry; apply ext_mul_finite|].
  set (u := inject_Z (Zpos (mx * my)) * pow2 (ex + ey)).
  destruct (exact_inv_bounds (Zpos (mx * my)) u (ex + ey)) as [Hb Hl]; [reflexivity|].
  destruct (binary_round_aux_spec (xorb sx sy) (Zpos (mx * my)) (ex + ey) loc_Exact u)
    as (S & _ & R); try assumption; [lia| |].
  - intros k Hk.
    rewrite (binade_unique _ _ _ Hk (digits2_binade (mx * my) (ex + ey))).
    pose proof (digits_mul mx my).
    destruct (bounded_facts mx ex Vx) as (_ & ? & ? & ?).
    destruct (bounded_facts my ey Vy) as (_ & ? & ? & ?).
    rewrite fexp64_eq. lia.
  - apply rnd_of_signed; [|exact S|exact R].
    subst u. pose proof (pow2_pos (ex + ey)).
    apply Qmult_le_0_compat; [|lra]. rewrite <- (Zle_Qle 0). lia.
Qed.

(** ** Division *)

Lemma new_location_spec m2 q r :
  (0 < m2)%Z -> (0 <= r < m2)%Z ->
  new_location m2 r = loc_of (inject_Z (q * m2 + r) / inject_Z m2) q.
Proof.
  intros Hm Hr.
  assert (Pm : 0 < inject_Z m2) by (rewrite <- (Zlt_Qlt 0); lia).
  assert (E : inject_Z (q * m2 + r) / inject_Z m2 - inject_Z q
              == inject_Z r / inject_Z m2).
  { rewrite inject_Z_plus, inject_Z_mult. field. lra. }
  unfold loc_of.
  assert (C0 : (inject_Z (q * m2 + r) / inject_Z m2 - inject_Z q ?= 0) = (r ?= 0)%Z).
  { destruct (Z.compare_spec r 0) as [H|H|H]; try lia.
    - apply Qcompare_Eq. rewrite E, H. change (inject_Z 0) with 0. field. lra.
    - apply Qcompare_Gt. rewrite E. apply Qlt_shift_div_l; [exact Pm|].
      rewrite Qmult_0_l. rewrite <- (Zlt_Qlt 0). lia. }
  assert (C1 : (inject_Z (q * m2 + r) / inject_Z m2 - inject_Z q ?= 1 # 2)
               = (2 * r ?= m2)%Z).
  { assert (T : inject_Z (2 * r) == 2 * inject_Z r) by (rewrite inject_Z_mult; reflexivity).
    destruct (Z.compare_spec (2 * r) m2) as [H|H|H].
    - apply Qcompare_Eq. rewrite E, <- H, T. field.
      rewrite <- H, T in Pm. lra.
    - apply Qcompare_Lt. rewrite E. apply Qlt_shift_div_r; [exact Pm|].
      rewrite Zlt_Qlt, T in H. lra.
    - apply Qcompare_Gt. rewrite E. apply Qlt_shift_div_l; [exact Pm|].
      rewrite Zlt_Qlt, T in H. lra. }
  rewrite C0, C1.
  unfold new_location.
  destruct (Z.even m2) eqn:Ev; unfold new_location_even, new_location_odd;
    destruct (Z.eqb_spec r 0) as [R0|R0]; try (subst r; reflexivity);
    replace (r ?= 0)%Z with Gt by (symmetry; apply Z.compare_gt_iff; lia);
    [reflexivity|].
  f_equal.
  assert (Odd : m2 <> (2 * r)%Z).
  { intros ->. rewrite Z.even_mul in Ev. discriminate. }
  destruct (Z.compare_spec (2 * r + 1) m2) as [H|H|H];
    destruct (Z.compare_spec (2 * r) m2) as [H'|H'|H']; try reflexivity; lia.
Qed.

Lemma SFdiv_core_spec m1 e1 m2 e2 :
  let u := (inject_Z (Zpos m1) * pow2 e1) / (inject_Z (Zpos m2) * pow2 e2) in
  let '(q, e', l) := SFdiv_core_binary prec emax (Zpos m1) e1 (Zpos m2) e2 in
  (0 <= q)%Z /\
  inject_Z q <= u / pow2 e' < inject_Z q + 1 /\ l = loc_of (u / pow2 e') q /\
  (forall k, binade u k -> (e' <= fexp64 k)%Z).
Proof.
  intros u. unfold SFdiv_core_binary. cbn [Zdigits2].
  set (d1 := Zpos (digits2_pos m1)). set (d2 := Zpos (digits2_pos m2)).
  fold (fexp64 (d1 + e1 - (d2 + e2))).
  set (e' := Z.min (fexp64 (d1 + e1 - (d2 + e2))) (e1 - e2)).
  set (s := (e1 - e2 - e')%Z).
  assert (Hs : (0 <= s)%Z) by (subst s e'; lia).
  set (m' := match s with Zpos _ => Z.shiftl (Zpos m1) s | Z0 => Zpos m1 | Zneg _ => 0%Z end).
  assert (Hm' : m' = (Zpos m1 * 2 ^ s)%Z).
  { subst m'. destruct s as [|p|p]; [lia| |lia]. apply Z.shiftl_mul_pow2. lia. }
  clearbody m'.
  pose proof (Z_div_mod m' (Zpos m2) ltac:(lia)) as DM.
  destruct (Z.div_eucl m' (Zpos m2)) as [q r]. destruct DM as [DM Hr].
  assert (P1 : 0 < pow2 e1) by apply pow2_pos.
  assert (P2 : 0 < pow2 e2) by apply pow2_pos.
  assert (P' : 0 < pow2 e') by apply pow2_pos.
  assert (Pm1 : 0 < inject_Z (Zpos m1)) by (rewrite <- (Zlt_Qlt 0); lia).
  assert (Pm2 : 0 < inject_Z (Zpos m2)) by (rewrite <- (Zlt_Qlt 0); lia).
  assert (T : u / pow2 e' == inject_Z (q * Zpos m2 + r) / inject_Z (Zpos m2)).
  { replace (q * Zpos m2 + r)%Z with m' by lia.
    rewrite Hm', inject_Z_mult, <- pow2_Z by lia. subst u s.
    rewrite !pow2_sub. field. repeat split; lra. }
  assert (Hq : (0 <= q)%Z) by nia.
  split; [exact Hq|].
  assert (B : inject_Z q <= u / pow2 e' < inject_Z q + 1).
  { rewrite T, inject_Z_plus, inject_Z_mult. split.
    - apply Qle_shift_div_l; [exact Pm2|].
      assert (0 <= inject_Z r) by (rewrite <- (Zle_Qle 0); lia). lra.
    - apply Qlt_shift_div_r; [exact Pm2|].
      assert (inject_Z r < inject_Z (Zpos m2)) by (rewrite <- Zlt_Qlt; lia). lra. }
  split; [exact B|]. split.
  - rewrite (loc_of_comp _ _ _ T). apply new_location_spec; lia.
  - intros k Hk.
    assert (K : (d1 + e1 - (d2 + e2) <= k)%Z).
    { destruct (digits2_binade m1 e1) as [A1 _]. destruct (digits2_binade m2 e2) as [_ A2].
      fold d1 in A1. fold d2 in A2. destruct Hk as [_ K2].
      assert (d1 + e1 - (d2 + e2) - 1 < k)%Z; [|lia].
      apply pow2_lt_inv. eapply Qle_lt_trans; [|exact K2].
      replace (d1 + e1 - (d2 + e2) - 1)%Z with ((d1 + e1 - 1) - (d2 + e2))%Z by lia.
      rewrite pow2_sub. subst u.
      pose proof (pow2_pos (d2 + e2)). pose proof (pow2_pos (d1 + e1 - 1)).
      apply Qle_shift_div_r; [lra|].
      set (X := inject_Z (Zpos m1) * pow2 e1) in *.
      set (Y := inject_Z (Zpos m2) * pow2 e2) in *.
      assert (PX : 0 < X) by (subst X; apply Qmult_lt_0_compat; assumption).
      assert (PY : 0 < Y) by (subst Y; apply Qmult_lt_0_compat; assumption).
      assert (PU : 0 < X / Y).
      { apply Qlt_shift_div_l; [exact PY|]. lra. }
      apply Qle_trans with (X / Y * Y).
      - assert (E : X / Y * Y == X) by (field; lra). rewrite E. exact A1.
      - apply Qmult_le_l; [exact PU | lra]. }
    subst e'. rewrite !fexp64_eq. lia.
Qed.

Lemma ext_div_finite sx mx ex sy my ey :
  ext (S754_finite sx mx ex) / ext (S754_finite sy my ey)
  == signed (xorb sx sy)
       ((inject_Z (Zpos mx) * pow2 ex) / (inject_Z (Zpos my) * pow2 ey)).
Proof.
  rewrite !ext_finite.
  assert (0 < inject_Z (Zpos my)) by (rewrite <- (Zlt_Qlt 0); lia).
  pose proof (pow2_pos ey).
  destruct sx, sy; cbn [xorb signed]; field; split; lra.
Qed.

(** The quotient of a finite double by one that is not zero is the exact
    quotient, rounded. *)
Theorem SFdiv_rnd x y :
  SpecFloat.valid_binary prec emax x = true ->
  SpecFloat.valid_binary prec emax y = true ->
  fin x -> (exists s m e, y = S754_finite s m e) ->
  rnd (ext x / ext y) (SFdiv prec emax x y).
Proof.
  intros Vx Vy Fx (sy & my & ey & ->).
  destruct x as [sx|sx| |sx mx ex]; try contradiction; cbn [SFdiv].
  - apply rnd_zero. cbn [ext]. unfold Qdiv. ring.
  - eapply rnd_comp; [symmetry; apply ext_div_finite|].
    pose proof (SFdiv_core_spec mx ex my ey) as H. cbv zeta in H.
    destruct (SFdiv_core_binary prec emax (Zpos mx) ex (Zpos my) ey) as [[q e'] l].
    destruct H as (Hq & Hb & Hl & Hk).
    destruct (binary_round_aux_spec (xorb sx sy) q e' l _ Hq Hb Hl Hk) as (S & _ & R).
    apply rnd_of_signed; [|exact S|exact R].
    assert (0 < inject_Z (Zpos mx)) by (rewrite <- (Zlt_Qlt 0); lia).
    assert (0 < inject_Z (Zpos my)) by (rewrite <- (Zlt_Qlt 0); lia).
    pose proof (pow2_pos ex). pose proof (pow2_pos ey).
    apply Qlt_le_weak, Qlt_shift_div_l.
    + apply Qmult_lt_0_compat; assumption.
    + rewrite Qmult_0_l. apply Qmult_lt_0_compat; assumption.
Qed.

(** ** NaN *)

Lemma SFcompare_refl f : f <> S754_nan -> SFcompare f f = Some Eq.
Proof.
  destruct f as [s|s| |s m e]; try congruence; intros _; cbn [SFcompare].
  - reflexivity.
  - destruct s; reflexivity.
  - rewrite Z.compare_refl, Pos.compare_cont_refl. destruct s; reflexivity.
Qed.

Lemma is_nan_spec x : is_nan x = true <-> Prim2SF x = S754_nan.
Proof.
  unfold is_nan. rewrite FloatAxioms.eqb_spec. unfold SFeqb. split.
  - intros H. destruct (Prim2SF x) eqn:E; try reflexivity;
      rewrite SFcompare_refl in H by discriminate; discriminate.
  - intros ->. reflexivity.
Qed.

Lemma is_nan_false x : is_nan x = false <-> Prim2SF x <> S754_nan.
Proof.
  rewrite <- is_nan_spec. destruct (is_nan x); split; congruence.
Qed.

Lemma is_nan_eq x : is_nan x = true -> x = nan.
Proof.
  intros H. apply Prim2SF_inj. apply is_nan_spec in H. rewrite H. reflexivity.
Qed.

(** ** The comparisons of the program *)

Lemma f64_compare x y :
  is_nan x = false -> is_nan y = false ->
  SFcompare (Prim2SF x) (Prim2SF y) = Some (val x ?= val y).
Proof.
  intros Hx Hy. apply SFcompare_ext; try apply Prim2SF_valid; now apply is_nan_false.
Qed.

Lemma SFcompare_nan_r f : SFcompare f S754_nan = None.
Proof. destruct f; reflexivity. Qed.

Lemma f64_compare_some x y c :
  SFcompare (Prim2SF x) (Prim2SF y) = Some c ->
  is_nan x = false /\ is_nan y = false.
Proof.
  intros H. split; apply is_nan_false; intros E; rewrite E in H.
  - discriminate.
  - rewrite SFcompare_nan_r in H. discriminate.
Qed.

Lemma leb_not_nan x y : (x <=? y)%float = true -> is_nan x = false /\ is_nan y = false.
Proof.
  rewrite FloatAxioms.leb_spec. unfold SFleb.
  destruct (SFcompare (Prim2SF x) (Prim2SF y)) as [c|] eqn:E; [|discriminate].
  intros _. eapply f64_compare_some; eauto.
Qed.

Lemma ltb_not_nan x y : (x <? y)%float = true -> is_nan x = false /\ is_nan y = false.
Proof.
  rewrite FloatAxioms.ltb_spec. unfold SFltb.
  destruct (SFcompare (Prim2SF x) (Prim2SF y)) as [c|] eqn:E; [|discriminate].
  intros _. eapply f64_compare_some; eauto.
Qed.

Lemma leb_val x y :
  is_nan x = false -> is_nan y = false ->
  ((x <=? y)%float = true <-> val x <= val y).
Proof.
  intros Hx Hy. rewrite FloatAxioms.leb_spec. unfold SFleb. rewrite (f64_compare x y Hx Hy).
  destruct (Qcompare_spec (val x) (val y)) as [E|E|E]; split; intros H;
    try reflexivity; try discriminate; lra.
Qed.

Lemma ltb_val x y :
  is_nan x = false -> is_nan y = false ->
  ((x <? y)%float = true <-> val x < val y).
Proof.
  intros Hx Hy. rewrite FloatAxioms.ltb_spec. unfold SFltb. rewrite (f64_compare x y Hx Hy).
  destruct (Qcompare_spec (val x) (val y)) as [E|E|E]; split; intros H;
    try reflexivity; try discriminate; lra.
Qed.

Lemma leb_false_val x y :
  is_nan x = false -> is_nan y = false ->
  ((x <=? y)%float = false <-> val y < val x).
Proof.
  intros Hx Hy. pose proof (leb_val x y Hx Hy) as H.
  destruct (x <=? y)%float; split; intros G; try reflexivity; try discriminate.
  - assert (val x <= val y) by now apply H. lra.
  - destruct (Qlt_le_dec (val y) (val x)) as [L|L]; [exact L|].
    apply H in L. discriminate.
Qed.

Lemma ltb_false_val x y :
  is_nan x = false -> is_nan y = false ->
  ((x <? y)%float = false <-> val y <= val x).
Proof.
  intros Hx Hy. pose proof (ltb_val x y Hx Hy) as H.
  destruct (x <? y)%float; split; intros G; try reflexivity; try discriminate.
  - assert (val x < val y) by now apply H. lra.
  - destruct (Qlt_le_dec (val x) (val y)) as [L|L]; [|exact L].
    apply H in L. discriminate.
Qed.

(** ** Finite numbers and infinities *)

Lemma finite_not_nan x : finite x -> is_nan x = false.
Proof.
  unfold finite. intros H. apply is_nan_false. intros E. rewrite E in H. exact H.
Qed.

Lemma rnd_val x : is_nan x = false -> rnd (val x) (Prim2SF x).
Proof.
  intros H. apply rnd_float; [apply Prim2SF_valid | now apply is_nan_false].
Qed.

Lemma val_bounds x : - pow2 1024 <= val x <= pow2 1024.
Proof.
  destruct (is_nan x) eqn:N.
  - apply is_nan_spec in N. unfold val. rewrite N. cbn [ext].
    pose proof (pow2_pos 1024). lra.
  - eapply rnd_bounds. apply rnd_val. exact N.
Qed.

Lemma finite_val_lt x : finite x -> - pow2 1024 < val x < pow2 1024.
Proof.
  unfold finite, val. pose proof (Prim2SF_valid x) as V.
  pose proof (pow2_pos 1024).
  destruct (Prim2SF x) as [s|s| |s m e]; try contradiction; intros _.
  - cbn [ext]. lra.
  - cbn [SpecFloat.valid_binary] in V. pose proof (finite_value_bounds m e V).
    rewrite ext_finite. destruct s; cbn [signed]; lra.
Qed.

Lemma val_lt_finite x :
  is_nan x = false -> - pow2 1024 < val x < pow2 1024 -> finite x.
Proof.
  intros N. apply is_nan_false in N. unfold finite, val.
  destruct (Prim2SF x) as [s|s| |s m e]; try congruence; cbn [fin]; try tauto.
  rewrite ext_infinity. destruct s; cbn [signed]; lra.
Qed.

(** ** The operations of the program *)

Lemma sub_rnd x y : finite x -> finite y -> rnd (val x - val y) (Prim2SF (x - y)).
Proof.
  intros Hx Hy. rewrite FloatAxioms.sub_spec. apply SFsub_rnd; try apply Prim2SF_valid; assumption.
Qed.

Lemma mul_rnd x y : finite x -> finite y -> rnd (val x * val y) (Prim2SF (x * y)).
Proof.
  intros Hx Hy. rewrite FloatAxioms.mul_spec. apply SFmul_rnd; try apply Prim2SF_valid; assumption.
Qed.

Lemma finite_nonzero x :
  finite x -> ~ val x == 0 -> exists s m e, Prim2SF x = S754_finite s m e.
Proof.
  unfold finite, val. destruct (Prim2SF x) as [s|s| |s m e]; try contradiction.
  - intros _ H. exfalso. apply H. reflexivity.
  - intros _ _. eauto.
Qed.

Lemma div_rnd x y :
  finite x -> finite y -> ~ val y == 0 -> rnd (val x / val y) (Prim2SF (x / y)).
Proof.
  intros Hx Hy Hz. rewrite FloatAxioms.div_spec.
  apply SFdiv_rnd; try apply Prim2SF_valid; [assumption|].
  now apply finite_nonzero.
Qed.

Lemma rnd_not_nan u x : rnd u (Prim2SF x) -> is_nan x = false.
Proof. intros [N _]. now apply is_nan_false. Qed.

Lemma classify x :
  is_nan x = false -> finite x \/ exists s, Prim2SF x = S754_infinity s.
Proof.
  intros N. apply is_nan_false in N. unfold finite.
  destruct (Prim2SF x) as [s|s| |s m e]; cbn [fin]; try tauto; try congruence; eauto.
Qed.

Lemma val_infinity x s : Prim2SF x = S754_infinity s -> val x == signed s (pow2 1024).
Proof. intros H. unfold val. rewrite H. apply ext_infinity. Qed.

(** ** Subtraction, monotone *)

Lemma sub_inf_r a c s :
  Prim2SF c = S754_infinity s -> is_nan (a - c) = false ->
  Prim2SF (a - c) = S754_infinity (negb s).
Proof.
  intros Hc N. apply is_nan_false in N. rewrite FloatAxioms.sub_spec in *. unfold SF64sub in *.
  rewrite Hc in *. destruct (Prim2SF a) as [sa|sa| |sa ma ea]; cbn [SFsub] in *;
    try reflexivity; try congruence.
  destruct sa, s; cbn [negb] in *; congruence.
Qed.

Lemma sub_inf_l a c s :
  Prim2SF a = S754_infinity s -> finite c -> Prim2SF (a - c) = S754_infinity s.
Proof.
  intros Ha Hc. unfold finite in Hc. rewrite FloatAxioms.sub_spec, Ha. unfold SF64sub.
  destruct (Prim2SF c); try contradiction; reflexivity.
Qed.

Lemma sub_not_nan a c : is_nan a = false -> finite c -> is_nan (a - c) = false.
Proof.
  intros Na Hc. destruct (classify a Na) as [F|[s E]].
  - eapply rnd_not_nan. now apply sub_rnd.
  - apply is_nan_false. rewrite (sub_inf_l a c s E Hc). discriminate.
Qed.

(** [a - c] does not decrease with [a]. *)
Theorem sub_mono a b c :
  (a <=? b)%float = true ->
  is_nan (a - c) = false -> is_nan (b - c) = false ->
  (a - c <=? b - c)%float = true.
Proof.
  intros H Na Nb. destruct (leb_not_nan _ _ H) as [Ha Hb].
  apply (leb_val a b Ha Hb) in H.
  apply leb_val; try assumption.
  destruct (is_nan c) eqn:Nc.
  { apply is_nan_spec in Nc. apply is_nan_false in Na.
    rewrite FloatAxioms.sub_spec, Nc in Na. unfold SF64sub in Na. destruct (Prim2SF a); now elim Na. }
  destruct (classify c Nc) as [Fc|[sc Ec]].
  2:{ unfold val. rewrite (sub_inf_r a c sc Ec Na), (sub_inf_r b c sc Ec Nb). lra. }
  destruct (classify a Ha) as [Fa|[sa Ea]]; destruct (classify b Hb) as [Fb|[sb Eb]].
  - apply (rnd_mono (val a - val c) (val b - val c)); try now apply sub_rnd. lra.
  - pose proof (finite_val_lt a Fa). rewrite (val_infinity b sb Eb) in H.
    unfold val at 2. rewrite (sub_inf_l b c sb Eb Fc), ext_infinity.
    destruct sb; cbn [signed] in *; [lra|]. apply val_bounds.
  - pose proof (finite_val_lt b Fb). rewrite (val_infinity a sa Ea) in H.
    unfold val at 1. rewrite (sub_inf_l a c sa Ea Fc), ext_infinity.
    destruct sa; cbn [signed] in *; [|lra]. apply val_bounds.
  - rewrite (val_infinity a sa Ea), (val_infinity b sb Eb) in H.
    unfold val. rewrite (sub_inf_l a c sa Ea Fc), (sub_inf_l b c sb Eb Fc), !ext_infinity.
    exact H.
Qed.

Lemma val_zero : val 0 == 0.
Proof. reflexivity. Qed.

Lemma val_one : val 1 == 1.
Proof. reflexivity. Qed.

Lemma rnd_val_eq u x y : rnd u (Prim2SF x) -> u == val y -> is_nan y = false -> val x == val y.
Proof.
  intros Hx E Ny. apply (rnd_unique u); [exact Hx|].
  apply (rnd_comp (val y)); [now symmetry | now apply rnd_val].
Qed.

Lemma sub_self a : finite a -> val (a - a) == 0.
Proof.
  intros H. rewrite <- val_zero.
  apply (rnd_val_eq (val a - val a)); [now apply sub_rnd | rewrite val_zero; ring | reflexivity].
Qed.

(** ** Division, monotone *)

Lemma div_inf_l a d s :
  Prim2SF a = S754_infinity s -> finite d ->
  Prim2SF (a / d) = S754_infinity (xorb s (match Prim2SF d with
                                            | S754_zero sd | S754_finite sd _ _ => sd
                                            | _ => false end)).
Proof.
  intros Ha Hd. unfold finite in Hd. rewrite FloatAxioms.div_spec, Ha. unfold SF64div.
  destruct (Prim2SF d); try contradiction; reflexivity.
Qed.

Lemma sign_of_positive d :
  finite d -> 0 < val d -> exists m e, Prim2SF d = S754_finite false m e.
Proof.
  unfold finite, val. pose proof (Prim2SF_valid d) as V.
  destruct (Prim2SF d) as [s|s| |s m e]; try contradiction; intros _ H.
  - cbn [ext] in H. lra.
  - cbn [SpecFloat.valid_binary] in V. pose proof (finite_value_bounds m e V).
    rewrite ext_finite in H. destruct s; cbn [signed] in H; [lra|eauto].
Qed.


Lemma div_not_nan a d :
  is_nan a = false -> finite d -> ~ val d == 0 -> is_nan (a / d) = false.
Proof.
  intros Na Hd Hz. destruct (classify a Na) as [F|[s E]].
  - eapply rnd_not_nan. now apply div_rnd.
  - apply is_nan_false. rewrite (div_inf_l a d s E Hd). discriminate.
Qed.

(** [a / d] does not decrease with [a] when [d] is positive and finite. *)
Theorem div_mono_pos a b d :
  (a <=? b)%float = true -> finite d -> 0 < val d ->
  (a / d <=? b / d)%float = true.
Proof.
  intros H Fd Pd. destruct (leb_not_nan _ _ H) as [Ha Hb].
  apply (leb_val a b Ha Hb) in H.
  assert (Hz : ~ val d == 0) by lra.
  apply leb_val; try (apply div_not_nan; assumption).
  destruct (sign_of_positive d Fd Pd) as (m & e & Ed).
  assert (Inf : forall x s, Prim2SF x = S754_infinity s ->
                 val (x / d) == signed s (pow2 1024)).
  { intros x s E. unfold val. rewrite (div_inf_l x d s E Fd), Ed, ext_infinity.
    now rewrite xorb_false_r. }
  assert (Q : forall x y, x <= y -> x / val d <= y / val d).
  { intros x y L. apply Qmult_le_compat_r; [exact L|].
    apply Qlt_le_weak, Qinv_lt_0_compat, Pd. }
  destruct (classify a Ha) as [Fa|[sa Ea]]; destruct (classify b Hb) as [Fb|[sb Eb]].
  - apply (rnd_mono (val a / val d) (val b / val d)); try now apply div_rnd. now apply Q.
  - pose proof (finite_val_lt a Fa). rewrite (val_infinity b sb Eb) in H.
    rewrite (Inf b sb Eb). destruct sb; cbn [signed] in *; [lra|]. apply val_bounds.
  - pose proof (finite_val_lt b Fb). rewrite (val_infinity a sa Ea) in H.
    rewrite (Inf a sa Ea). destruct sa; cbn [signed] in *; [|lra]. apply val_bounds.
  - rewrite (val_infinity a sa Ea), (val_infinity b sb Eb) in H.
    rewrite (Inf a sa Ea), (Inf b sb Eb). exact H.
Qed.


Lemma div_self d : finite d -> ~ val d == 0 -> val (d / d) == 1.
Proof.
  intros F Z. rewrite <- val_one.
  apply (rnd_val_eq (val d / val d)); [now apply div_rnd | | reflexivity].
  rewrite val_one. field. exact Z.
Qed.

Lemma zero_div n d : finite n -> val n == 0 -> finite d -> ~ val d == 0 -> val (n / d) == 0.
Proof.
  intros Fn Zn Fd Zd. rewrite <- val_zero.
  apply (rnd_val_eq (val n / val d)); [now apply div_rnd | | reflexivity].
  rewrite val_zero, Zn. field. exact Zd.
Qed.

(** ** Integers as doubles *)

Lemma binary_normalize_valid z e :
  SpecFloat.valid_binary prec emax (binary_normalize prec emax z e false) = true.
Proof.
  destruct z as [|p|p]; cbn [binary_normalize]; [reflexivity| |];
    apply binary_round_spec.
Qed.

Lemma Prim2SF_of_Z z : Prim2SF (B64.of_Z z) = binary_normalize prec emax z 0 false.
Proof. unfold B64.of_Z. apply Prim2SF_SF2Prim, binary_normalize_valid. Qed.

Lemma of_Z_rnd z : rnd (inject_Z z) (Prim2SF (B64.of_Z z)).
Proof.
  rewrite Prim2SF_of_Z. eapply rnd_comp; [|apply binary_normalize_spec].
  change (pow2 0) with 1. ring.
Qed.

Lemma rounded_small a v :
  (exists n, (0 <= n < 2 ^ 53)%Z /\ a == inject_Z n) -> rounded a v -> v == a.
Proof.
  intros (n & Hn & E) [[A B]|(k & Bk & B)]; [lra|].
  apply (binade_comp _ _ _ E) in Bk.
  assert (Hk : (k <= 53)%Z).
  { destruct Bk as [K _]. assert (k - 1 < 53)%Z; [|lia].
    apply pow2_lt_inv. eapply Qle_lt_trans; [exact K|].
    rewrite pow2_Z by lia. rewrite <- Zlt_Qlt. lia. }
  pose proof (fexp64_eq k) as F. set (E' := fexp64 k) in *.
  assert (HE : (E' <= 0)%Z) by lia.
  assert (S : a / pow2 E' == inject_Z (n * 2 ^ (- E'))).
  { rewrite E, inject_Z_mult, <- pow2_Z by lia.
    replace (- E')%Z with (0 - E')%Z by lia. rewrite pow2_sub.
    change (pow2 0) with 1. field. pow2_nz. }
  rewrite B, (rne_comp _ _ S), rne_Z, <- S. field. pow2_nz.
Qed.

(** An integer below [2^53] in absolute value is a double. *)
Lemma val_of_Z z : (Z.abs z < 2 ^ 53)%Z -> val (B64.of_Z z) == inject_Z z.
Proof.
  intros H. destruct (of_Z_rnd z) as (_ & v & R & P1 & P2).
  assert (V : v == Qabs (inject_Z z)).
  { apply rounded_small; [|exact R]. exists (Z.abs z). split; [lia|reflexivity]. }
  assert (C : cap v == v).
  { apply cap_small. rewrite V. change (Qabs (inject_Z z)) with (inject_Z (Z.abs z)).
    rewrite pow2_Z by lia. rewrite <- Zle_Qle.
    transitivity (2 ^ 53)%Z; [lia|]. apply Z.pow_le_mono_r; lia. }
  unfold val. destruct (Qlt_le_dec (inject_Z z) 0) as [L|L].
  - rewrite P2, C, V by lra. rewrite Qabs_neg by lra. ring.
  - rewrite P1, C, V by lra. rewrite Qabs_pos by lra. reflexivity.
Qed.

Lemma finite_of_Z z : (Z.abs z < 2 ^ 53)%Z -> finite (B64.of_Z z).
Proof.
  intros H. apply val_lt_finite.
  - eapply rnd_not_nan. apply of_Z_rnd.
  - rewrite (val_of_Z z H).
    assert (B : (- 2 ^ 1024 < z < 2 ^ 1024)%Z).
    { assert (2 ^ 53 < 2 ^ 1024)%Z by (apply Z.pow_lt_mono_r; lia). lia. }
    destruct B as [B1 B2]. rewrite Zlt_Qlt in B1, B2.
    rewrite inject_Z_opp in B1. rewrite <- pow2_Z in B1, B2 by lia. lra.
Qed.

(** ** The smallest doubles *)

Lemma finite_grid x : finite x -> exists n, val x == inject_Z n * pow2 (-1074).
Proof.
  unfold finite, val. pose proof (Prim2SF_valid x) as V.
  destruct (Prim2SF x) as [s|s| |s m e]; try contradiction; intros _.
  - exists 0%Z. cbn [ext]. change (inject_Z 0) with 0. ring.
  - cbn [SpecFloat.valid_binary] in V.
    destruct (bounded_facts m e V) as (_ & _ & E & _).
    exists (cond_Zopp s (Zpos m) * 2 ^ (e + 1074))%Z.
    cbn [ext]. rewrite inject_Z_mult, <- pow2_Z by lia.
    rewrite <- Qmult_assoc, <- pow2_add.
    replace (e + 1074 + -1074)%Z with e by lia. reflexivity.
Qed.

Lemma val_tiny : val 0x1p-1074 == pow2 (-1074).
Proof. reflexivity. Qed.

Theorem sub_pos a b : finite a -> finite b -> val b < val a -> 0 < val (a - b).
Proof.
  intros Fa Fb H.
  destruct (finite_grid a Fa) as [na Ea]. destruct (finite_grid b Fb) as [nb Eb].
  pose proof (pow2_pos (-1074)) as P.
  assert (G : pow2 (-1074) <= val a - val b).
  { rewrite Ea, Eb in *.
    assert (L : (nb < na)%Z).
    { destruct (Z_lt_le_dec nb na) as [L|L]; [exact L|].
      rewrite Zle_Qle in L.
      assert (inject_Z na * pow2 (-1074) <= inject_Z nb * pow2 (-1074))
        by (apply Qmult_le_compat_r; lra). lra. }
    assert (L' : (nb + 1 <= na)%Z) by lia.
    rewrite Zle_Qle, inject_Z_plus in L'. change (inject_Z 1) with 1 in L'.
    assert ((inject_Z nb + 1) * pow2 (-1074) <= inject_Z na * pow2 (-1074))
      by (apply Qmult_le_compat_r; lra). lra. }
  assert (R : rnd (pow2 (-1074)) (Prim2SF 0x1p-1074)).
  { apply (rnd_comp (val 0x1p-1074)); [apply val_tiny | now apply rnd_val]. }
  pose proof (rnd_mono _ _ _ _ R (sub_rnd a b Fa Fb) G) as M.
  fold (val 0x1p-1074) in M. rewrite val_tiny in M. fold (val (a - b)) in M. lra.
Qed.

Theorem sub_neg a b : finite a -> finite b -> val a < val b -> val (a - b) < 0.
Proof.
  intros Fa Fb H.
  destruct (finite_grid a Fa) as [na Ea]. destruct (finite_grid b Fb) as [nb Eb].
  pose proof (pow2_pos (-1074)) as P.
  assert (G : val a - val b <= - pow2 (-1074)).
  { rewrite Ea, Eb in *.
    assert (L : (na < nb)%Z).
    { destruct (Z_lt_le_dec na nb) as [L|L]; [exact L|].
      rewrite Zle_Qle in L.
      assert (inject_Z nb * pow2 (-1074) <= inject_Z na * pow2 (-1074))
        by (apply Qmult_le_compat_r; lra). lra. }
    assert (L' : (na + 1 <= nb)%Z) by lia.
    rewrite Zle_Qle, inject_Z_plus in L'. change (inject_Z 1) with 1 in L'.
    assert ((inject_Z na + 1) * pow2 (-1074) <= inject_Z nb * pow2 (-1074))
      by (apply Qmult_le_compat_r; lra). lra. }
  assert (R : rnd (- pow2 (-1074)) (Prim2SF (-0x1p-1074))).
  { apply (rnd_comp (val (-0x1p-1074))); [reflexivity | now apply rnd_val]. }
  pose proof (rnd_mono _ _ _ _ (sub_rnd a b Fa Fb) R G) as M.
  fold (val (a - b)) in M. change (ext (Prim2SF (-0x1p-1074))) with (val (-0x1p-1074)) in M.
  assert (E : val (-0x1p-1074) == - pow2 (-1074)) by reflexivity.
  rewrite E in M. lra.
Qed.

Lemma val_infinity_pos : val infinity == pow2 1024.
Proof. reflexivity. Qed.

Lemma val_infinity_neg : val neg_infinity == - pow2 1024.
Proof. reflexivity. Qed.

(** * The class over binary64 numbers: the control flow *)

Section OverBinary64.

Import B64.

Lemma f64_fill_points (pts : list point) (a : series) :
  fill (map entry_of_point pts) a =
  (mkSeries (x_values a ++ x_values (series_of pts))
            (r_values a ++ r_values (series_of pts))
            (g_values a ++ g_values (series_of pts))
            (b_values a ++ b_values (series_of pts)), Ok tt).
Proof.
  revert a.
  induction pts as [|[x [[r g] b]] pts IH]; intros a; simpl.
  - rewrite !app_nil_r. now destruct a.
  - rewrite IH. unfold push. simpl. now rewrite <- !app_assoc.
Qed.

Lemma f64_inputColorSeries_points (pts : list point) (cm : ColorMap) :
  inputColorSeries (map entry_of_point pts) cm =
  (mkColorMap (Some (series_of pts)) (x_range cm), Ok tt).
Proof.
  unfold inputColorSeries. rewrite f64_fill_points. reflexivity.
Qed.

Lemma f64_loaded_state (pts : list point) (range : float * float) (cm0 : ColorMap) :
  setInputRange range (load pts cm0) = mkColorMap (Some (series_of pts)) range.
Proof. unfold load. now rewrite f64_inputColorSeries_points. Qed.

Lemma f64_interpolateColor_loaded (rainbow : list point) (v : float)
    (format : option ColorFormat) (a : series) (range : float * float) :
  interpolateColor rainbow v format (mkColorMap (Some a) range) =
  (mkColorMap (Some a) range, interpolate a range v (default_format format)).
Proof. reflexivity. Qed.

Lemma f64_interpolateColor_fresh (rainbow : list point) (v : float)
    (format : option ColorFormat) (range : float * float) :
  interpolateColor rainbow v format (mkColorMap None range) =
  (mkColorMap (Some (series_of rainbow)) range,
   interpolate (series_of rainbow) range v (default_format format)).
Proof.
  unfold interpolateColor. simpl arrays. cbv iota.
  now rewrite f64_inputColorSeries_points.
Qed.

(** ** Reading the arrays *)

Lemma f64_get_nth (arr : list float) (z : Z) (q : float) :
  (0 <= z)%Z -> nth_error arr (Z.to_nat z) = Some q -> get arr (IInt z) = Some q.
Proof.
  intros Hz H. unfold get.
  destruct (z <? 0)%Z eqn:E; [lia|]. exact H.
Qed.

Lemma f64_get_Some_inside (arr : list float) (i : inum) (n : float) :
  get arr i = Some n ->
  exists z, i = IInt z /\ (0 <= z < Z.of_nat (List.length arr))%Z.
Proof.
  destruct i as [z| | |]; simpl; try discriminate.
  destruct (z <? 0)%Z eqn:E; [discriminate|].
  intros N. exists z. split; [reflexivity|].
  assert (Z.to_nat z < List.length arr)%nat
    by (apply nth_error_Some; congruence).
  lia.
Qed.

Lemma f64_lookupColor_point (pts : list point) (z : Z) (p : point) (format : ColorFormat) :
  (0 <= z)%Z -> nth_error pts (Z.to_nat z) = Some p ->
  lookupColor (series_of pts) (IInt z) format = formatColor (fraction (snd p)) format.
Proof.
  intros Hz H. unfold lookupColor, series_of.
  cbn [r_values g_values b_values].
  rewrite !(f64_get_nth _ z _ Hz (map_nth_error _ _ _ H)).
  now destruct p as [x [[r g] b]].
Qed.

Lemma f64_last_index_series (pts : list point) :
  last_index (x_values (series_of pts)) = IInt (Z.of_nat (List.length pts) - 1).
Proof. unfold last_index, series_of. simpl. now rewrite length_map. Qed.

Lemma f64_lookupColor_first (pts : list point) (p : point) (format : ColorFormat) :
  nth_error pts 0 = Some p ->
  lookupColor (series_of pts) (IInt 0) format = formatColor (fraction (snd p)) format.
Proof. intros H. now apply f64_lookupColor_point. Qed.

Lemma f64_lookupColor_last (pts : list point) (p : point) (format : ColorFormat) :
  nth_error pts (List.length pts - 1) = Some p ->
  lookupColor (series_of pts) (last_index (x_values (series_of pts))) format =
  formatColor (fraction (snd p)) format.
Proof.
  intros H. rewrite f64_last_index_series.
  assert (0 < List.length pts)%nat.
  { destruct pts; [destruct (0 - 1)%nat; discriminate | simpl; lia]. }
  apply f64_lookupColor_point; [lia|].
  now replace (Z.to_nat (Z.of_nat (List.length pts) - 1)) with (List.length pts - 1)%nat by lia.
Qed.

(** ** NaN *)

Lemma ltb_nan_r (x : float) : (x <? nan)%float = false.
Proof.
  destruct (x <? nan)%float eqn:E; [|reflexivity].
  apply ltb_not_nan in E. destruct E as [_ E]. discriminate E.
Qed.

Lemma ltb_nan_l (x : float) : (nan <? x)%float = false.
Proof.
  destruct (nan <? x)%float eqn:E; [|reflexivity].
  apply ltb_not_nan in E. destruct E as [E _]. discriminate E.
Qed.

Lemma mul_nan_l (y : float) : (nan * y)%float = nan.
Proof.
  apply Prim2SF_inj. rewrite FloatAxioms.mul_spec. reflexivity.
Qed.

(** ** The two loops of the search *)

Lemma f64_lt_get_inside (arr : list float) (i : inum) (x : float) :
  (to_number (get arr i) <? x)%float = true ->
  exists z, i = IInt z /\ (0 <= z < Z.of_nat (List.length arr))%Z.
Proof.
  destruct (get arr i) as [n|] eqn:E; [intros _; eapply f64_get_Some_inside; eauto|].
  cbn [to_number]. rewrite ltb_nan_l. discriminate.
Qed.

Lemma f64_gt_get_inside (arr : list float) (i : inum) (x : float) :
  (x <? to_number (get arr i))%float = true ->
  exists z, i = IInt z /\ (0 <= z < Z.of_nat (List.length arr))%Z.
Proof.
  destruct (get arr i) as [n|] eqn:E; [intros _; eapply f64_get_Some_inside; eauto|].
  cbn [to_number]. rewrite ltb_nan_r. discriminate.
Qed.

Lemma f64_scan_down_exit_fuel (fuel : nat) (xs : list float) (x : float) (i : inum) :
  match i with
  | IInt z => (z < Z.of_nat fuel \/ Z.of_nat (List.length xs) <= z)%Z
  | _ => True
  end ->
  down_guard xs x (scan_down fuel xs x i) = false.
Proof.
  revert i.
  induction fuel as [|fuel IH]; intros i H; cbn [scan_down].
  - destruct (down_guard xs x i) eqn:G; [|reflexivity].
    apply andb_prop in G. destruct G as [G _].
    apply f64_gt_get_inside in G. destruct G as (z & -> & Hz). lia.
  - destruct (down_guard xs x i) eqn:G; [|exact G].
    apply IH.
    apply andb_prop in G. destruct G as [G _].
    apply f64_gt_get_inside in G. destruct G as (z & -> & Hz).
    simpl. lia.
Qed.

(** The walk down has left its loop within [length xs] iterations: the
    condition of the loop is false at the index it returns. *)
Lemma f64_scan_down_exit (xs : list float) (x : float) (i : inum) :
  down_guard xs x (scan_down (List.length xs) xs x i) = false.
Proof.
  apply f64_scan_down_exit_fuel. destruct i; trivial. lia.
Qed.

Lemma f64_scan_up_exit_fuel (fuel : nat) (xs : list float) (x : float) (iMax i : inum) :
  match i with
  | IInt z => (Z.of_nat (List.length xs) - z <= Z.of_nat fuel \/ z < 0)%Z
  | _ => True
  end ->
  up_guard xs x iMax (scan_up fuel xs x iMax i) = false.
Proof.
  revert i.
  induction fuel as [|fuel IH]; intros i H; cbn [scan_up].
  - destruct (up_guard xs x iMax i) eqn:G; [|reflexivity].
    apply andb_prop in G. destruct G as [G _].
    apply f64_lt_get_inside in G. destruct G as (z & -> & Hz). lia.
  - destruct (up_guard xs x iMax i) eqn:G; [|exact G].
    apply IH.
    apply andb_prop in G. destruct G as [G _].
    apply f64_lt_get_inside in G. destruct G as (z & -> & Hz).
    simpl. lia.
Qed.

(** So has the walk up. *)
Lemma f64_scan_up_exit (xs : list float) (x : float) (iMax i : inum) :
  up_guard xs x iMax (scan_up (List.length xs) xs x iMax i) = false.
Proof.
  apply f64_scan_up_exit_fuel. destruct i; trivial. lia.
Qed.

Lemma f64_scan_down_range (fuel : nat) (xs : list float) (x : float) (z : Z) :
  (0 <= z)%Z ->
  exists z', scan_down fuel xs x (IInt z) = IInt z' /\ (0 <= z' <= z)%Z.
Proof.
  revert z.
  induction fuel as [|fuel IH]; intros z Hz; cbn [scan_down].
  - exists z. split; [reflexivity | lia].
  - destruct (down_guard _ _ _) eqn:G.
    + apply andb_prop in G. destruct G as [_ G].
      unfold igt, ilt in G. apply Z.ltb_lt in G.
      destruct (IH (z - 1)%Z ltac:(lia)) as (z' & E & Hz').
      exists z'. split; [exact E | lia].
    + exists z. split; [reflexivity | lia].
Qed.

Lemma f64_scan_up_range (fuel : nat) (xs : list float) (x : float) (m z : Z) :
  (z <= m)%Z ->
  exists z', scan_up fuel xs x (IInt m) (IInt z) = IInt z' /\ (z <= z' <= m)%Z.
Proof.
  revert z.
  induction fuel as [|fuel IH]; intros z Hz; cbn [scan_up].
  - exists z. split; [reflexivity | lia].
  - destruct (up_guard _ _ _ _) eqn:G.
    + apply andb_prop in G. destruct G as [_ G].
      unfold ilt in G. apply Z.ltb_lt in G.
      destruct (IH (z + 1)%Z ltac:(lia)) as (z' & E & Hz').
      exists z'. split; [exact E | lia].
    + exists z. split; [reflexivity | lia].
Qed.

(** A walk from an index that is no number stays there. *)
Lemma f64_scan_down_NaN (fuel : nat) (xs : list float) (x : float) :
  scan_down fuel xs x INaN = INaN.
Proof.
  destruct fuel; cbn [scan_down]; [reflexivity|].
  unfold down_guard. cbn [get to_number]. now rewrite ltb_nan_r.
Qed.

Lemma f64_scan_up_NaN (fuel : nat) (xs : list float) (x : float) (iMax : inum) :
  scan_up fuel xs x iMax INaN = INaN.
Proof.
  destruct fuel; cbn [scan_up]; [reflexivity|].
  unfold up_guard. cbn [get to_number]. now rewrite ltb_nan_l.
Qed.

(** ** The paths of a call *)

Lemma f64_interpolate_low (a : series) (range : float * float) (v : float) (format : ColorFormat) :
  (normalize range v <=? 0)%float = true ->
  interpolate a range v format = lookupColor a (IInt 0) format.
Proof. intros H. unfold interpolate. now rewrite H. Qed.

Lemma f64_interpolate_high (a : series) (range : float * float) (v : float) (format : ColorFormat) :
  (normalize range v <=? 0)%float = false ->
  (1 <=? normalize range v)%float = true ->
  interpolate a range v format = lookupColor a (last_index (x_values a)) format.
Proof. intros H0 H1. unfold interpolate. now rewrite H0, H1. Qed.

Lemma f64_interpolate_inside (a : series) (range : float * float) (v : float)
    (format : ColorFormat) (iLo iHi : inum) :
  (normalize range v <=? 0)%float = false ->
  (1 <=? normalize range v)%float = false ->
  bracket (x_values a) (normalize range v) = (iLo, iHi) ->
  interpolate a range v format =
  if strict_eq iLo iHi then lookupColor a iLo format
  else formatColor (blend a (normalize range v) iLo (succ iLo)) format.
Proof. intros H0 H1 Hb. unfold interpolate. now rewrite H0, H1, Hb. Qed.

(** With NaN for normalized position both tests fail, the search stays on
    NaN, which is not equal to itself, and every channel blended is NaN. *)
Lemma f64_interpolate_NaN (a : series) (range : float * float) (v : float)
    (format : ColorFormat) :
  is_nan (normalize range v) = true ->
  interpolate a range v format = formatColor [Some nan; Some nan; Some nan] format.
Proof.
  intros H. apply is_nan_eq in H. unfold interpolate. rewrite H.
  change (nan <=? 0)%float with false. change (1 <=? nan)%float with false.
  cbv iota. unfold bracket. rewrite mul_nan_l.
  change (ceil nan) with INaN.
  rewrite f64_scan_down_NaN, f64_scan_up_NaN.
  reflexivity.
Qed.

(** ** The clamp *)

Lemma in_unit_spec (c : float) :
  in_unit c = true <-> is_nan c = false /\ 0 <= val c <= 1.
Proof.
  unfold in_unit. rewrite andb_true_iff. split.
  - intros [A B]. destruct (leb_not_nan _ _ A) as [_ N].
    apply (leb_val 0 c) in A; [|reflexivity|exact N].
    apply (leb_val c 1) in B; [|exact N|reflexivity].
    rewrite val_zero in A. rewrite val_one in B. auto.
  - intros (N & A & B). split.
    + apply leb_val; [reflexivity | exact N | now rewrite val_zero].
    + apply leb_val; [exact N | reflexivity | now rewrite val_one].
Qed.

Lemma f64_enforceBounds_clamps (x : float) :
  is_nan (enforceBounds x) = true \/ in_unit (enforceBounds x) = true.
Proof.
  unfold enforceBounds.
  destruct (x <? 0)%float eqn:L0; [right; reflexivity|].
  destruct (1 <? x)%float eqn:L1; [right; reflexivity|].
  destruct (is_nan x) eqn:N; [left; reflexivity|right].
  apply in_unit_spec. split; [exact N|].
  apply (ltb_false_val x 0) in L0; [|exact N|reflexivity].
  apply (ltb_false_val 1 x) in L1; [|reflexivity|exact N].
  rewrite val_zero in L0. rewrite val_one in L1. auto.
Qed.

Lemma f64_blend_clamped (a : series) (x : float) (iLo iHi : inum) :
  exists r g b, blend a x iLo iHi = [r; g; b] /\
                clamped r /\ clamped g /\ clamped b.
Proof.
  unfold blend. do 3 eexists. split; [reflexivity|].
  repeat split; eexists; (split; [reflexivity | apply f64_enforceBounds_clamps]).
Qed.

End OverBinary64.

Lemma f64_enforceBounds_twice (y : float) :
  B64.enforceBounds (B64.enforceBounds y) = B64.enforceBounds y.
Proof.
  unfold B64.enforceBounds.
  destruct (y <? 0)%float eqn:L0; [reflexivity|].
  destruct (1 <? y)%float eqn:L1; [reflexivity|].
  now rewrite L0, L1.
Qed.

(** More iterations than [length xs] change nothing. *)
Lemma f64_scan_down_more (fuel : nat) (xs : list float) (x : float) (i : inum) :
  (List.length xs <= fuel)%nat ->
  B64.scan_down fuel xs x i = B64.scan_down (List.length xs) xs x i.
Proof.
  assert (stable : forall k j, B64.down_guard xs x j = false -> B64.scan_down k xs x j = j).
  { intros [|k] j G; cbn [B64.scan_down]; [reflexivity|].
    now rewrite G. }
  assert (split : forall a b j,
             B64.scan_down (a + b) xs x j = B64.scan_down b xs x (B64.scan_down a xs x j)).
  { induction a as [|a IHa]; intros b j; cbn [B64.scan_down Nat.add]; [reflexivity|].
    destruct (B64.down_guard xs x j) eqn:G; [apply IHa|].
    symmetry. now apply stable. }
  intros Hle.
  replace fuel with (List.length xs + (fuel - List.length xs))%nat by lia.
  rewrite split. apply stable, f64_scan_down_exit.
Qed.

Lemma f64_scan_up_more (fuel : nat) (xs : list float) (x : float) (iMax i : inum) :
  (List.length xs <= fuel)%nat ->
  B64.scan_up fuel xs x iMax i = B64.scan_up (List.length xs) xs x iMax i.
Proof.
  assert (stable : forall k j,
             B64.up_guard xs x iMax j = false -> B64.scan_up k xs x iMax j = j).
  { intros [|k] j G; cbn [B64.scan_up]; [reflexivity|].
    now rewrite G. }
  assert (split : forall a b j,
             B64.scan_up (a + b) xs x iMax j =
             B64.scan_up b xs x iMax (B64.scan_up a xs x iMax j)).
  { induction a as [|a IHa]; intros b j; cbn [B64.scan_up Nat.add]; [reflexivity|].
    destruct (B64.up_guard xs x iMax j) eqn:G; [apply IHa|].
    symmetry. now apply stable. }
  intros Hle.
  replace fuel with (List.length xs + (fuel - List.length xs))%nat by lia.
  rewrite split. apply stable, f64_scan_up_exit.
Qed.

Section OverBinary64b.

Import B64.

(** ** The seed of the search *)

Lemma f64_ceil_finite (a : float) : finite a -> ceil a = IInt (Qceiling (val a)).
Proof.
  unfold finite, ceil. destruct (Prim2SF a); try contradiction; reflexivity.
Qed.

Lemma f64_round_finite (a : float) : finite a -> round a = IInt (Qfloor (val a + (1 # 2))).
Proof.
  unfold finite, round. destruct (Prim2SF a); try contradiction; reflexivity.
Qed.

Lemma pow2_1024_big : 1 < pow2 1024.
Proof. change 1 with (pow2 0). apply pow2_lt. lia. Qed.

(** Strictly between the two tests the normalized position is a finite number
    between 0 and 1. *)
Lemma f64_inside (x : float) :
  is_nan x = false -> (x <=? 0)%float = false -> (1 <=? x)%float = false ->
  finite x /\ 0 < val x < 1.
Proof.
  intros N L0 L1.
  apply (leb_false_val x 0) in L0; [|exact N|reflexivity].
  apply (leb_false_val 1 x) in L1; [|reflexivity|exact N].
  rewrite val_zero in L0. rewrite val_one in L1.
  pose proof pow2_1024_big.
  split; [apply val_lt_finite; [exact N|lra] | lra].
Qed.

Lemma f64_seed_range (x : float) (m : Z) :
  is_nan x = false -> (x <=? 0)%float = false -> (1 <=? x)%float = false ->
  (0 <= m < 2 ^ 53)%Z ->
  exists s, ceil (x * of_int (IInt m)) = IInt s /\ (0 <= s <= m)%Z.
Proof.
  intros N L0 L1 Hm.
  destruct (f64_inside x N L0 L1) as [Fx [X0 X1]].
  cbn [of_int].
  assert (Fm : finite (of_Z m)) by (apply finite_of_Z; lia).
  assert (Vm : val (of_Z m) == inject_Z m) by (apply val_of_Z; lia).
  assert (M0 : 0 <= inject_Z m) by (rewrite <- (Zle_Qle 0); lia).
  pose proof (mul_rnd x (of_Z m) Fx Fm) as R.
  assert (B0 : 0 <= val (x * of_Z m)).
  { rewrite <- val_zero.
    apply (rnd_mono (val 0) (val x * val (of_Z m)) _ _ (rnd_val 0 eq_refl) R).
    rewrite val_zero, Vm. apply Qmult_le_0_compat; lra. }
  assert (B1 : val (x * of_Z m) <= inject_Z m).
  { rewrite <- Vm.
    apply (rnd_mono (val x * val (of_Z m)) (val (of_Z m)) _ _ R
             (rnd_val _ (finite_not_nan _ Fm))).
    rewrite Vm. nra. }
  assert (Fp : finite (x * of_Z m)).
  { apply val_lt_finite; [eapply rnd_not_nan; exact R|].
    pose proof (pow2_pos 1024).
    assert (inject_Z m < pow2 1024).
    { rewrite pow2_Z by lia. rewrite <- Zlt_Qlt.
      assert (2 ^ 53 < 2 ^ 1024)%Z by (apply Z.pow_lt_mono_r; lia). lia. }
    lra. }
  exists (Qceiling (val (x * of_Z m))). split; [now apply f64_ceil_finite|].
  split.
  - change 0%Z with (Qceiling 0). now apply Qceiling_resp_le.
  - rewrite <- (Qceiling_Z m) at 2. now apply Qceiling_resp_le.
Qed.

Lemma f64_bracket_range (xs : list float) (x : float) :
  (0 < List.length xs)%nat -> (Z.of_nat (List.length xs) < 2 ^ 53)%Z ->
  is_nan x = false -> (x <=? 0)%float = false -> (1 <=? x)%float = false ->
  exists lo hi, bracket xs x = (IInt lo, IInt hi) /\
                (0 <= lo)%Z /\ (lo <= hi < Z.of_nat (List.length xs))%Z.
Proof.
  intros Hlen Hbig N L0 L1. unfold bracket, last_index.
  destruct (f64_seed_range x (Z.of_nat (List.length xs) - 1) N L0 L1 ltac:(lia))
    as (s & -> & Hs).
  destruct (f64_scan_down_range (List.length xs) xs x s ltac:(lia)) as (lo & -> & Hlo).
  destruct (f64_scan_up_range (List.length xs) xs x (Z.of_nat (List.length xs) - 1) lo
              ltac:(lia)) as (hi & -> & Hhi).
  exists lo, hi. split; [reflexivity | lia].
Qed.

Lemma f64_bracket_NaN (xs : list float) (x : float) :
  is_nan x = true -> bracket xs x = (INaN, INaN).
Proof.
  intros H. apply is_nan_eq in H. subst x. unfold bracket.
  rewrite mul_nan_l. change (ceil nan) with INaN.
  now rewrite f64_scan_down_NaN, f64_scan_up_NaN.
Qed.

(** ** The range *)

(** A range with [min < max] whose width is not infinite has finite bounds
    and a finite positive width. *)
Lemma f64_range_facts (rmin rmax : float) :
  (rmin <? rmax)%float = true -> (rmax - rmin <? infinity)%float = true ->
  finite rmin /\ finite rmax /\ finite (rmax - rmin) /\ 0 < val (rmax - rmin).
Proof.
  intros H D. destruct (ltb_not_nan _ _ H) as [Nmin Nmax].
  destruct (ltb_not_nan _ _ D) as [Nd _].
  apply (ltb_val rmin rmax Nmin Nmax) in H.
  apply (ltb_val _ infinity Nd eq_refl) in D. rewrite val_infinity_pos in D.
  pose proof (val_bounds rmin) as Bmin. pose proof (val_bounds rmax) as Bmax.
  pose proof (pow2_pos 1024) as P.
  assert (Fmin : finite rmin).
  { destruct (classify rmin Nmin) as [F|[s E]]; [exact F|exfalso].
    pose proof (sub_inf_r rmax rmin s E Nd) as Ed.
    rewrite (val_infinity rmin s E) in H.
    unfold val in D. rewrite Ed, ext_infinity in D.
    destruct s; cbn [signed negb] in *; lra. }
  assert (Fmax : finite rmax).
  { destruct (classify rmax Nmax) as [F|[s E]]; [exact F|exfalso].
    pose proof (sub_inf_l rmax rmin s E Fmin) as Ed.
    rewrite (val_infinity rmax s E) in H.
    unfold val in D. rewrite Ed, ext_infinity in D.
    destruct s; cbn [signed] in *; lra. }
  pose proof (sub_pos rmax rmin Fmax Fmin H) as Pd.
  repeat split; try assumption.
  apply val_lt_finite; [exact Nd | lra].
Qed.

(** A range with [min > max] whose width is not infinite. *)
Lemma f64_inverted_facts (rmin rmax : float) :
  (rmax <? rmin)%float = true -> (neg_infinity <? rmax - rmin)%float = true ->
  finite rmin /\ finite rmax /\ finite (rmax - rmin) /\ val (rmax - rmin) < 0.
Proof.
  intros H D. destruct (ltb_not_nan _ _ H) as [Nmax Nmin].
  destruct (ltb_not_nan _ _ D) as [_ Nd].
  apply (ltb_val rmax rmin Nmax Nmin) in H.
  apply (ltb_val neg_infinity _ eq_refl Nd) in D. rewrite val_infinity_neg in D.
  pose proof (val_bounds rmin) as Bmin. pose proof (val_bounds rmax) as Bmax.
  pose proof (pow2_pos 1024) as P.
  assert (Fmin : finite rmin).
  { destruct (classify rmin Nmin) as [F|[s E]]; [exact F|exfalso].
    pose proof (sub_inf_r rmax rmin s E Nd) as Ed.
    rewrite (val_infinity rmin s E) in H.
    unfold val in D. rewrite Ed, ext_infinity in D.
    destruct s; cbn [signed negb] in *; lra. }
  assert (Fmax : finite rmax).
  { destruct (classify rmax Nmax) as [F|[s E]]; [exact F|exfalso].
    pose proof (sub_inf_l rmax rmin s E Fmin) as Ed.
    rewrite (val_infinity rmax s E) in H.
    unfold val in D. rewrite Ed, ext_infinity in D.
    destruct s; cbn [signed] in *; lra. }
  pose proof (sub_neg rmax rmin Fmax Fmin H) as Pd.
  repeat split; try assumption.
  apply val_lt_finite; [exact Nd | lra].
Qed.

Lemma f64_val_zero_finite (n : float) : is_nan n = false -> val n == 0 -> finite n.
Proof.
  intros N Z. apply val_lt_finite; [exact N|].
  pose proof (pow2_pos 1024). lra.
Qed.

(** The normalized position at and beyond the bounds of a range of finite
    nonzero width [d = max - min]. *)
Lemma f64_normalize_at_min (rmin rmax : float) :
  finite rmin -> finite (rmax - rmin) -> ~ val (rmax - rmin) == 0 ->
  val (normalize (rmin, rmax) rmin) == 0.
Proof.
  intros Fmin Fd Zd. unfold normalize. cbn [fst snd].
  apply zero_div; try assumption; [|now apply sub_self].
  apply f64_val_zero_finite; [|now apply sub_self].
  eapply rnd_not_nan. now apply sub_rnd.
Qed.

Lemma f64_normalize_at_max (rmin rmax : float) :
  finite (rmax - rmin) -> ~ val (rmax - rmin) == 0 ->
  val (normalize (rmin, rmax) rmax) == 1.
Proof.
  intros Fd Zd. unfold normalize. cbn [fst snd]. now apply div_self.
Qed.

Lemma f64_normalize_not_nan (rmin rmax v : float) :
  is_nan v = false -> finite rmin -> finite (rmax - rmin) -> ~ val (rmax - rmin) == 0 ->
  is_nan (normalize (rmin, rmax) v) = false.
Proof.
  intros N Fmin Fd Zd. unfold normalize. cbn [fst snd].
  apply div_not_nan; try assumption. now apply sub_not_nan.
Qed.

(** The normalized position does not decrease with the value when the width
    is positive, and does not increase with it when the width is negative. *)
Lemma f64_normalize_mono (rmin rmax v1 v2 : float) :
  finite rmin -> finite (rmax - rmin) -> 0 < val (rmax - rmin) ->
  (v1 <=? v2)%float = true ->
  (normalize (rmin, rmax) v1 <=? normalize (rmin, rmax) v2)%float = true.
Proof.
  intros Fmin Fd Pd H. destruct (leb_not_nan _ _ H) as [N1 N2].
  unfold normalize. cbn [fst snd].
  apply div_mono_pos; try assumption.
  apply sub_mono; try assumption; now apply sub_not_nan.
Qed.



End OverBinary64b.

(** ** The stored colours and the bytes *)

Lemma f64_fraction_in_unit (pts : list B64.point) (p : B64.point) :
  B64.channels_in_unit pts = true -> In p pts ->
  exists r g b, B64.fraction (snd p) = [r; g; b] /\
                B64.clamped r /\ B64.clamped g /\ B64.clamped b.
Proof.
  intros H Hin. unfold B64.channels_in_unit in H.
  rewrite forallb_forall in H. specialize (H p Hin).
  destruct p as [x [[r g] b]]. cbn [snd] in H.
  apply andb_prop in H. destruct H as [H Hb].
  apply andb_prop in H. destruct H as [Hr Hg].
  exists (Some r), (Some g), (Some b). split; [reflexivity|].
  repeat split; eexists; (split; [reflexivity | right; assumption]).
Qed.

Lemma f64_nth_inside (pts : list B64.point) (z : Z) :
  (0 <= z < Z.of_nat (List.length pts))%Z ->
  exists p, nth_error pts (Z.to_nat z) = Some p.
Proof.
  intros Hz. destruct (nth_error pts (Z.to_nat z)) as [p|] eqn:E; [eauto|].
  apply nth_error_None in E. lia.
Qed.

(** The FRACTION output of a call on a loaded non-empty series: the stored
    colour of one control point, or a blended and clamped triplet. *)
Lemma f64_interpolate_cases (pts : list B64.point) (range : float * float) (v : float) :
  (0 < List.length pts)%nat -> (Z.of_nat (List.length pts) < 2 ^ 53)%Z ->
  (exists z p, (0 <= z)%Z /\ nth_error pts (Z.to_nat z) = Some p /\
               B64.interpolate (B64.series_of pts) range v B64.DOUBLE =
               Ok (B64.Double (B64.fraction (snd p)))) \/
  (exists r g b, B64.interpolate (B64.series_of pts) range v B64.DOUBLE =
                 Ok (B64.Double [r; g; b]) /\
                 B64.clamped r /\ B64.clamped g /\ B64.clamped b).
Proof.
  intros Hlen Hbig.
  set (x := B64.normalize range v).
  destruct (x <=? 0)%float eqn:L0.
  { left. destruct (f64_nth_inside pts 0 ltac:(lia)) as [p Hp].
    exists 0%Z, p. split; [lia|]. split; [exact Hp|].
    rewrite (f64_interpolate_low _ _ _ _ L0).
    exact (f64_lookupColor_point pts 0 p B64.DOUBLE ltac:(lia) Hp). }
  destruct (1 <=? x)%float eqn:L1.
  { left. destruct (f64_nth_inside pts (Z.of_nat (List.length pts) - 1) ltac:(lia)) as [p Hp].
    exists (Z.of_nat (List.length pts) - 1)%Z, p. split; [lia|]. split; [exact Hp|].
    rewrite (f64_interpolate_high _ _ _ _ L0 L1), f64_last_index_series.
    exact (f64_lookupColor_point pts (Z.of_nat (List.length pts) - 1) p B64.DOUBLE
             ltac:(lia) Hp). }
  destruct (is_nan x) eqn:N.
  { right. rewrite (f64_interpolate_NaN _ _ _ _ N).
    exists (Some nan), (Some nan), (Some nan). split; [reflexivity|].
    repeat split; eexists; (split; [reflexivity | left; reflexivity]). }
  destruct (f64_bracket_range (map fst pts) x) as (lo & hi & Hb & Hlo & Hhi);
    try assumption; try (rewrite length_map; assumption).
  rewrite length_map in Hhi. change (float * B64.color)%type with B64.point in Hhi.
  rewrite (f64_interpolate_inside (B64.series_of pts) range v B64.DOUBLE
             (IInt lo) (IInt hi) L0 L1 Hb).
  destruct (strict_eq (IInt lo) (IInt hi)) eqn:S.
  - left. destruct (f64_nth_inside pts lo ltac:(lia)) as [p Hp].
    exists lo, p. split; [lia|]. split; [exact Hp|].
    exact (f64_lookupColor_point pts lo p B64.DOUBLE ltac:(lia) Hp).
  - right. destruct (f64_blend_clamped (B64.series_of pts) x (IInt lo) (succ (IInt lo)))
      as (r & g & b & E & H).
    exists r, g, b. fold x. unfold B64.formatColor. rewrite E. auto.
Qed.

(** The triplet a call formats has three channels and is the same whatever
    the format. *)
Lemma f64_interpolate_triplet (a : B64.series) (range : float * float) (v : float) :
  exists dv, List.length dv = 3%nat /\
    forall format, B64.interpolate a range v format = B64.formatColor dv format.
Proof.
  unfold B64.interpolate, B64.lookupColor.
  destruct (_ <=? 0)%float; [eexists; split; [|intros; reflexivity]; reflexivity|].
  destruct (1 <=? _)%float; [eexists; split; [|intros; reflexivity]; reflexivity|].
  destruct (B64.bracket _ _) as [iLo iHi].
  destruct (strict_eq _ _); eexists; (split; [|intros; reflexivity]); reflexivity.
Qed.

Lemma f64_interpolateColor_body (rainbow : list B64.point) (cm : B64.ColorMap) (v : float) :
  exists a range, forall format,
    snd (B64.interpolateColor rainbow v format cm) =
    B64.interpolate a range v (B64.default_format format).
Proof.
  destruct cm as [[a|] range].
  - exists a, range. intros format. now rewrite f64_interpolateColor_loaded.
  - exists (B64.series_of rainbow), range. intros format.
    now rewrite f64_interpolateColor_fresh.
Qed.

Lemma val_255 : val 255 == 255 # 1.
Proof. reflexivity. Qed.

(** The byte of a fraction within [0, 1]: the double [255 * c] rounded half
    away from zero, an integer from 0 to 255. *)
Lemma f64_to_byte_unit (c : float) :
  B64.in_unit c = true ->
  B64.to_byte (Some c) = IInt (round_half_away (val (255 * c))) /\
  (0 <= round_half_away (val (255 * c)) <= 255)%Z.
Proof.
  intros H. apply in_unit_spec in H. destruct H as (N & C0 & C1).
  pose proof pow2_1024_big as Big.
  assert (Fc : finite c) by (apply val_lt_finite; [exact N | lra]).
  pose proof (mul_rnd 255 c I Fc) as R.
  assert (B0 : 0 <= val (255 * c)).
  { rewrite <- val_zero.
    apply (rnd_mono (val 0) (val 255 * val c) _ _ (rnd_val 0 eq_refl) R).
    rewrite val_zero, val_255. lra. }
  assert (B1 : val (255 * c) <= 255 # 1).
  { rewrite <- val_255.
    apply (rnd_mono (val 255 * val c) (val 255) _ _ R (rnd_val 255 eq_refl)).
    rewrite val_255. lra. }
  assert (Fp : finite (255 * c)).
  { apply val_lt_finite; [eapply rnd_not_nan; exact R|].
    assert ((255 # 1) < pow2 1024).
    { apply Qlt_trans with (pow2 8); [reflexivity | apply pow2_lt; lia]. }
    lra. }
  unfold B64.to_byte. cbn [B64.to_number]. rewrite (f64_round_finite _ Fp).
  unfold round_half_away.
  assert (L : Qle_bool 0 (val (255 * c)) = true) by now apply Qle_bool_iff.
  rewrite L. split; [reflexivity|]. split.
  - apply (Z.le_trans _ (Qfloor (1 # 2))); [discriminate|].
    apply Qfloor_resp_le. lra.
  - apply (Z.le_trans _ (Qfloor ((255 # 1) + (1 # 2)))); [|discriminate].
    apply Qfloor_resp_le. lra.
Qed.

(** ** Equal bounds and the empty series *)







Lemma f64_get_nil (i : inum) : B64.get [] i = None.
Proof.
  destruct i as [z| | |]; try reflexivity.
  unfold B64.get. destruct (z <? 0)%Z; [reflexivity|].
  now destruct (Z.to_nat z).
Qed.

Lemma f64_seed_number (x m : float) :
  finite x -> finite m -> B64.ceil (x * m) <> INaN.
Proof.
  intros Fx Fm. pose proof (rnd_not_nan _ _ (mul_rnd x m Fx Fm)) as N.
  apply is_nan_false in N. unfold B64.ceil.
  destruct (Prim2SF (x * m)) as [s|[|]| |s p e]; congruence.
Qed.

Lemma strict_eq_refl (i : inum) : i <> INaN -> strict_eq i i = true.
Proof.
  destruct i; cbn [strict_eq]; try reflexivity; [intros _; apply Z.eqb_refl | congruence].
Qed.

(** The body of a call on the empty series. *)
Lemma f64_interpolate_empty (range : float * float) (v : float) (format : B64.ColorFormat) :
  is_nan (B64.normalize range v) = false ->
  B64.interpolate (B64.mkSeries [] [] [] []) range v format =
  B64.formatColor [None; None; None] format.
Proof.
  intros N. unfold B64.interpolate, B64.lookupColor.
  cbn [B64.x_values B64.r_values B64.g_values B64.b_values].
  destruct (_ <=? 0)%float eqn:L0; [now rewrite !f64_get_nil|].
  destruct (1 <=? _)%float eqn:L1; [now rewrite !f64_get_nil|].
  destruct (f64_inside _ N L0 L1) as [Fx _].
  unfold B64.bracket. cbn [List.length B64.scan_down B64.scan_up].
  rewrite strict_eq_refl; [now rewrite !f64_get_nil|].
  apply f64_seed_number; [exact Fx|].
  cbn [B64.last_index List.length B64.of_int]. now apply finite_of_Z.
Qed.

(** * The claims of the specification *)

(** C1, the search for the bracket.  The code departs from the claim.  The
    series [skewed] has five points, positions from 0 to 1 strictly
    increasing and channels within [0, 1]; on the value 1/4 the two loops end
    with [iLo = 1] and [iHi = 3], which are not adjacent; the assignment
    inside [console.assert] then sets [iHi = 2], whose position 1/8 lies below
    1/4, and the call returns the red channel 1, above the red of both
    bracketing points 2 and 3 (1/2 and 3/4). *)
Theorem search_misses_bracket (rainbow : list point) :
  increasing (map fst skewed) = true /\
  channels_in_unit skewed = true /\
  nth_error (map fst skewed) 0 = Some 0 /\
  nth_error (map fst skewed) (List.length skewed - 1) = Some 1 /\
  bracket (map fst skewed) (normalize (0, 1) (1 # 4)) = (IInt 1, IInt 3) /\
  get (map fst skewed) (succ (IInt 1)) = Some (Fin (1 # 8)) /\
  lt (Fin (1 # 8)) (normalize (0, 1) (1 # 4)) = true /\
  get (r_values (series_of skewed)) (IInt 2) = Some (Fin (1 # 2)) /\
  get (r_values (series_of skewed)) (IInt 3) = Some (Fin (3 # 4)) /\
  returns_fraction
    (snd (interpolateColor rainbow (1 # 4) DOUBLE (load skewed fresh))) 1 0 0.
Proof.
  unfold load. rewrite inputColorSeries_points. cbn [fst].
  rewrite interpolateColor_loaded.
  vm_compute. repeat split; reflexivity.
Qed.

(** C2, the exact hit.  The code departs from the claim.  The series
    [skewed_hit] has five points, positions from 0 to 1 strictly increasing
    and channels within [0, 1]; the value 1/4 is the position of point 3,
    whose colour is (3/4, 0, 0); the search ends with [iLo = 1] and
    [iHi = 3], the call blends points 1 and 2 and returns (1, 0, 0). *)
Theorem exact_hit_blended (rainbow : list point) :
  increasing (map fst skewed_hit) = true /\
  channels_in_unit skewed_hit = true /\
  nth_error (map fst skewed_hit) 0 = Some 0 /\
  nth_error (map fst skewed_hit) (List.length skewed_hit - 1) = Some 1 /\
  nth_error skewed_hit 3 = Some (1 # 4, (3 # 4, 0, 0)) /\
  le (normalize (0, 1) (1 # 4)) (Fin (1 # 4)) = true /\
  ge (normalize (0, 1) (1 # 4)) (Fin (1 # 4)) = true /\
  bracket (map fst skewed_hit) (normalize (0, 1) (1 # 4)) = (IInt 1, IInt 3) /\
  returns_fraction
    (snd (interpolateColor rainbow (1 # 4) DOUBLE (load skewed_hit fresh))) 1 0 0.
Proof.
  unfold load. rewrite inputColorSeries_points. cbn [fst].
  rewrite interpolateColor_loaded.
  vm_compute. repeat split; reflexivity.
Qed.

(** C3 as stated fails: at the lower end of the range the stored colour is
    returned as it is, here with a red channel of 2. *)
Lemma lookup_not_clamped :
  snd (interpolateColor [] 0 DOUBLE overbright) =
    Ok (Double [Some (Fin 2); Some (Fin 0); Some (Fin 0)]) /\
  1 < 2.
Proof. split; reflexivity. Qed.

(** C3, amended.  For a loaded non-empty series (a JavaScript array has fewer
    than 2^53 elements), whatever its colours, the range and the value, the
    FRACTION output is either the stored colour of a control point, as it is,
    or a blended triplet whose channels are each within [0, 1] or NaN.  The
    first case is that of the two ends of the range and of an exact hit.  When
    the stored channels lie in [0, 1], every output channel lies in [0, 1] or
    is NaN. *)
Theorem fraction_bounds (rainbow pts : list B64.point) (range : float * float)
    (v : float) (cm0 : B64.ColorMap) :
  (0 < List.length pts)%nat ->
  (Z.of_nat (List.length pts) < 2 ^ 53)%Z ->
  let x := B64.normalize range v in
  let out := snd (B64.interpolateColor rainbow v (Some B64.DOUBLE)
                    (B64.setInputRange range (B64.load pts cm0))) in
  ((exists p, In p pts /\ out = Ok (B64.Double (B64.fraction (snd p)))) \/
   (exists r g b, out = Ok (B64.Double [r; g; b]) /\
                  B64.clamped r /\ B64.clamped g /\ B64.clamped b)) /\
  ((x <=? 0)%float = true ->
   exists p, nth_error pts 0 = Some p /\
             out = Ok (B64.Double (B64.fraction (snd p)))) /\
  ((x <=? 0)%float = false -> (1 <=? x)%float = true ->
   exists p, nth_error pts (List.length pts - 1) = Some p /\
             out = Ok (B64.Double (B64.fraction (snd p)))) /\
  (forall i, (x <=? 0)%float = false -> (1 <=? x)%float = false ->
   B64.bracket (map fst pts) x = (IInt i, IInt i) ->
   exists p, nth_error pts (Z.to_nat i) = Some p /\
             out = Ok (B64.Double (B64.fraction (snd p)))) /\
  (B64.channels_in_unit pts = true ->
   exists r g b, out = Ok (B64.Double [r; g; b]) /\
                 B64.clamped r /\ B64.clamped g /\ B64.clamped b).
Proof.
  intros Hlen Hbig x out. subst out.
  rewrite f64_loaded_state, f64_interpolateColor_loaded. cbn [snd B64.default_format].
  pose proof (f64_interpolate_cases pts range v Hlen Hbig) as Cases.
  split; [|split; [|split; [|split]]].
  - destruct Cases as [(z & p & Hz & Hp & E) | H]; [left|right; exact H].
    exists p. split; [eapply nth_error_In; eauto | exact E].
  - intros L0. destruct (f64_nth_inside pts 0 ltac:(lia)) as [p Hp].
    exists p. split; [exact Hp|].
    rewrite (f64_interpolate_low _ _ _ _ L0).
    exact (f64_lookupColor_point pts 0 p B64.DOUBLE ltac:(lia) Hp).
  - intros L0 L1.
    destruct (f64_nth_inside pts (Z.of_nat (List.length pts) - 1) ltac:(lia)) as [p Hp].
    replace (Z.to_nat (Z.of_nat (List.length pts) - 1))
      with (List.length pts - 1)%nat in Hp by lia.
    exists p. split; [exact Hp|].
    rewrite (f64_interpolate_high _ _ _ _ L0 L1).
    exact (f64_lookupColor_last pts p B64.DOUBLE Hp).
  - intros i L0 L1 Hb.
    assert (N : is_nan x = false).
    { destruct (is_nan x) eqn:N; [|reflexivity].
      rewrite (f64_bracket_NaN _ _ N) in Hb. discriminate. }
    destruct (f64_bracket_range (map fst pts) x) as (lo & hi & Hb' & Hlo & Hhi);
      try assumption; try (rewrite length_map; assumption).
    rewrite length_map in Hhi. change (float * B64.color)%type with B64.point in Hhi.
    rewrite Hb in Hb'. injection Hb' as <- <-.
    destruct (f64_nth_inside pts i ltac:(lia)) as [p Hp].
    exists p. split; [exact Hp|].
    rewrite (f64_interpolate_inside (B64.series_of pts) range v B64.DOUBLE
               (IInt i) (IInt i) L0 L1 Hb).
    cbn [strict_eq]. rewrite Z.eqb_refl.
    exact (f64_lookupColor_point pts i p B64.DOUBLE ltac:(lia) Hp).
  - intros Hch.
    destruct Cases as [(z & p & Hz & Hp & E) | H]; [|exact H].
    destruct (f64_fraction_in_unit pts p Hch (nth_error_In _ _ Hp))
      as (r & g & b & F & H).
    exists r, g, b. rewrite E, F. auto.
Qed.

Lemma fraction_bounds_witness :
  exists r g b,
    snd (B64.interpolateColor [] 0.5%float (Some B64.DOUBLE)
           (B64.setInputRange (0, 1)%float (B64.load B64.smallSeries B64.fresh))) =
      Ok (B64.Double [r; g; b]) /\
    B64.clamped r /\ B64.clamped g /\ B64.clamped b.
Proof.
  refine (proj2 (proj2 (proj2 (proj2
            (fraction_bounds [] B64.smallSeries (0, 1)%float 0.5%float B64.fresh _ _)))) _).
  - simpl. lia.
  - simpl. lia.
  - reflexivity.
Defined.

(** C4 as stated fails: a raw load that meets an element without colour
    throws after the four arrays were reset and partly filled, and the series
    loaded before is lost. *)
Lemma raw_load_not_atomic :
  inputColorSeries truncated small_map =
    (mkColorMap (Some (mkSeries [0; 1] [0] [0] [0])) (0, 1), Throw TypeError) /\
  fst (inputColorSeries truncated small_map) <> small_map.
Proof.
  split; [reflexivity|].
  intros H.
  apply (f_equal (fun cm => option_map (fun a => List.length (x_values a)) (arrays cm))) in H.
  discriminate H.
Qed.

(** C4, amended.  A load by name that fails does so on the name, before any
    change to the store.  A raw load of control points cannot fail and
    replaces the four sequences together.  No load, failed or not, changes
    the input range.  A raw load stopped by a malformed element is not
    undone: the four sequences hold the points before that element, and the
    position of the element when only its colour is missing. *)
Theorem load_failures (rainbow : list point) :
  (forall name cm e,
      snd (useColorSeries rainbow name cm) = Throw e ->
      e = UnrecognizedName name /\ fst (useColorSeries rainbow name cm) = cm) /\
  (forall pts cm,
      inputColorSeries (map entry_of_point pts) cm =
      (mkColorMap (Some (series_of pts)) (x_range cm), Ok tt)) /\
  (forall values cm, x_range (fst (inputColorSeries values cm)) = x_range cm) /\
  (forall name cm, x_range (fst (useColorSeries rainbow name cm)) = x_range cm) /\
  (forall pts rest cm,
      inputColorSeries (map entry_of_point pts ++ Null :: rest) cm =
      (mkColorMap (Some (series_of pts)) (x_range cm), Throw TypeError)) /\
  (forall pts x rest cm,
      inputColorSeries (map entry_of_point pts ++ Lone x :: rest) cm =
      (mkColorMap (Some (mkSeries (push (x_values (series_of pts)) x)
                                  (r_values (series_of pts))
                                  (g_values (series_of pts))
                                  (b_values (series_of pts))))
                  (x_range cm), Throw TypeError)).
Proof.
  repeat split.
  - now apply (useColorSeries_throw rainbow name cm e).
  - now apply (useColorSeries_throw rainbow name cm e).
  - apply inputColorSeries_points.
  - apply inputColorSeries_range.
  - apply useColorSeries_range.
  - intros pts rest cm. unfold inputColorSeries.
    now rewrite fill_null, fill_points.
  - intros pts x rest cm. unfold inputColorSeries.
    now rewrite fill_lone, fill_points.
Qed.

Lemma load_failures_witness :
  snd (useColorSeries smallSeries "viridis" small_map)
    = Throw (UnrecognizedName "viridis") /\
  fst (useColorSeries smallSeries "viridis" small_map) = small_map.
Proof.
  split; [reflexivity|].
  apply (proj1 (load_failures smallSeries) "viridis"%string small_map
               (UnrecognizedName "viridis")).
  reflexivity.
Defined.

(** C5 as stated fails: the width of the range from [-2^1023] to [2^1023] is
    not a finite double; at the value [max] the normalized position is
    Infinity / Infinity, which is NaN, neither test holds, and the call
    returns three NaN, not the last colour. *)
Lemma clamp_overflow :
  (- B64.huge <? B64.huge)%float = true /\
  (B64.huge <=? B64.huge)%float = true /\
  (B64.huge - - B64.huge)%float = infinity /\
  is_nan (B64.normalize (- B64.huge, B64.huge)%float B64.huge) = true /\
  snd (B64.interpolateColor [] B64.huge (Some B64.DOUBLE)
         (B64.setInputRange (- B64.huge, B64.huge)%float
            (B64.load B64.smallSeries B64.fresh))) =
    Ok (B64.Double [Some nan; Some nan; Some nan]) /\
  nth_error B64.smallSeries 5 = Some (1, (1, 0.6, 0.5))%float.
Proof. repeat split; reflexivity. Qed.

(** C5, amended.  When [min < max] and the width [max - min] computed by the
    program is not infinite, every value at or below [min] is normalized to a
    position [x <= 0] and returns the colour of the first control point, and
    every value at or above [max] is normalized to a position [x >= 1], not
    [x <= 0], and returns the colour of the last one, in the format asked
    for.  The tests are the exact comparisons of the doubles. *)
Theorem boundary_clamp (rainbow pts : list B64.point) (p0 pn : B64.point)
    (rmin rmax v : float) (format : option B64.ColorFormat) (cm0 : B64.ColorMap) :
  nth_error pts 0 = Some p0 ->
  nth_error pts (List.length pts - 1) = Some pn ->
  (rmin <? rmax)%float = true ->
  (rmax - rmin <? infinity)%float = true ->
  let cm := B64.setInputRange (rmin, rmax) (B64.load pts cm0) in
  let x := B64.normalize (rmin, rmax) v in
  ((v <=? rmin)%float = true ->
   (x <=? 0)%float = true /\
   snd (B64.interpolateColor rainbow v format cm) =
   B64.formatColor (B64.fraction (snd p0)) (B64.default_format format)) /\
  ((rmax <=? v)%float = true ->
   (x <=? 0)%float = false /\ (1 <=? x)%float = true /\
   snd (B64.interpolateColor rainbow v format cm) =
   B64.formatColor (B64.fraction (snd pn)) (B64.default_format format)).
Proof.
  intros H0 Hn Hlt Hd cm x. subst cm.
  rewrite f64_loaded_state, f64_interpolateColor_loaded. cbn [snd].
  destruct (f64_range_facts rmin rmax Hlt Hd) as (Fmin & Fmax & Fd & Pd).
  assert (Zd : ~ val (rmax - rmin) == 0) by lra.
  split.
  - intros Hv. destruct (leb_not_nan _ _ Hv) as [Nv _].
    assert (L : (x <=? 0)%float = true).
    { pose proof (f64_normalize_mono rmin rmax v rmin Fmin Fd Pd Hv) as M.
      destruct (leb_not_nan _ _ M) as [Nx Nm].
      apply (leb_val _ _ Nx Nm) in M.
      rewrite (f64_normalize_at_min rmin rmax Fmin Fd Zd) in M.
      apply leb_val; [exact Nx | reflexivity | now rewrite val_zero]. }
    split; [exact L|].
    rewrite (f64_interpolate_low _ _ _ _ L). now apply f64_lookupColor_first.
  - intros Hv. destruct (leb_not_nan _ _ Hv) as [_ Nv].
    pose proof (f64_normalize_mono rmin rmax rmax v Fmin Fd Pd Hv) as M.
    destruct (leb_not_nan _ _ M) as [Nm Nx].
    apply (leb_val _ _ Nm Nx) in M.
    rewrite (f64_normalize_at_max rmin rmax Fd Zd) in M.
    assert (L0 : (x <=? 0)%float = false).
    { apply leb_false_val; [exact Nx | reflexivity |]. rewrite val_zero. fold x in M. lra. }
    assert (L1 : (1 <=? x)%float = true).
    { apply leb_val; [reflexivity | exact Nx | now rewrite val_one]. }
    split; [exact L0|]. split; [exact L1|].
    rewrite (f64_interpolate_high _ _ _ _ L0 L1). now apply f64_lookupColor_last.
Qed.

Lemma boundary_clamp_witness :
  (B64.normalize (-40, 160)%float (-50)%float <=? 0)%float = true /\
  snd (B64.interpolateColor [] (-50)%float (Some B64.DOUBLE)
         (B64.setInputRange (-40, 160)%float (B64.load B64.smallSeries B64.fresh))) =
  B64.formatColor (B64.fraction (0, 0.6, 0.55)%float) B64.DOUBLE.
Proof.
  refine (proj1 (boundary_clamp [] B64.smallSeries (0, (0, 0.6, 0.55))%float
                   (1, (1, 0.6, 0.5))%float (-40)%float 160%float (-50)%float
                   (Some B64.DOUBLE) B64.fresh _ _ _ _) _); reflexivity.
Defined.

(** C6 as stated fails: on a store whose series has a red channel of 2 the
    BYTE output is 510, outside [0, 255], and the HEX output keeps only the
    last two digits of 1fe. *)
Lemma byte_out_of_range :
  snd (interpolateColor [] 0 RGB overbright) = Ok (Rgb [IInt 510; IInt 0; IInt 0]) /\
  snd (interpolateColor [] 0 HEX overbright) = Ok (Hex "#fe0000") /\
  (255 < 510)%Z.
Proof. repeat split. Qed.

(** C6, amended.  For every store and every value, the BYTE output (also the
    output when no format is given) is [Math.round(255 * c)] of each channel
    [c] of the FRACTION output of the same call, and the HEX output is [#]
    followed by the last two characters of [0] and the hexadecimal digits of
    each BYTE value: 7 characters.  When the three channels of the FRACTION
    output are numbers within [0, 1], each BYTE value is the double [255 * c]
    rounded half away from zero, an integer from 0 to 255, and the HEX output
    is made of their two-digit, zero-padded, lowercase hexadecimal forms. *)
Theorem formats_agree (rainbow : list B64.point) :
  (forall cm v, exists dv,
      List.length dv = 3%nat /\
      snd (B64.interpolateColor rainbow v (Some B64.DOUBLE) cm) = Ok (B64.Double dv) /\
      snd (B64.interpolateColor rainbow v (Some B64.RGB) cm) =
        Ok (B64.Rgb (map B64.to_byte dv)) /\
      snd (B64.interpolateColor rainbow v None cm) =
        Ok (B64.Rgb (map B64.to_byte dv)) /\
      snd (B64.interpolateColor rainbow v (Some B64.HEX) cm) =
        Ok (B64.Hex (String "#" (String.concat "" (map to_hex2 (map B64.to_byte dv))))) /\
      String.length (String "#" (String.concat "" (map to_hex2 (map B64.to_byte dv))))
        = 7%nat) /\
  (forall cm v r g b,
      snd (B64.interpolateColor rainbow v (Some B64.DOUBLE) cm) =
        Ok (B64.Double [Some r; Some g; Some b]) ->
      B64.in_unit r = true -> B64.in_unit g = true -> B64.in_unit b = true ->
      let zr := round_half_away (val (255 * r)) in
      let zg := round_half_away (val (255 * g)) in
      let zb := round_half_away (val (255 * b)) in
      (0 <= zr <= 255)%Z /\ (0 <= zg <= 255)%Z /\ (0 <= zb <= 255)%Z /\
      snd (B64.interpolateColor rainbow v (Some B64.RGB) cm) =
        Ok (B64.Rgb [IInt zr; IInt zg; IInt zb]) /\
      snd (B64.interpolateColor rainbow v (Some B64.HEX) cm) =
        Ok (B64.Hex (String "#" (hex2 zr ++ hex2 zg ++ hex2 zb)))).
Proof.
  split.
  - intros cm v.
    destruct (f64_interpolateColor_body rainbow cm v) as (a & range & body).
    destruct (f64_interpolate_triplet a range v) as (dv & Hlen & E).
    exists dv. rewrite !body, !E. cbn [B64.default_format].
    repeat split; try assumption.
    destruct dv as [|c1 [|c2 [|c3 [|c4 dv]]]]; try discriminate.
    apply hex_length.
  - intros cm v r g b Hout Hr Hg Hb.
    destruct (f64_interpolateColor_body rainbow cm v) as (a & range & body).
    destruct (f64_interpolate_triplet a range v) as (dv & Hlen & E).
    rewrite body, E in Hout. cbn [B64.default_format B64.formatColor] in Hout.
    injection Hout as ->.
    rewrite !body, !E. cbn [B64.default_format].
    destruct (f64_to_byte_unit r Hr) as [Er Hzr].
    destruct (f64_to_byte_unit g Hg) as [Eg Hzg].
    destruct (f64_to_byte_unit b Hb) as [Eb Hzb].
    cbv zeta. unfold B64.formatColor. cbn [map]. rewrite Er, Eg, Eb.
    rewrite (to_hex2_byte _ Hzr), (to_hex2_byte _ Hzg), (to_hex2_byte _ Hzb).
    repeat split; first [apply Hzr | apply Hzg | apply Hzb].
Qed.

Lemma formats_agree_witness :
  exists r g b,
    snd (B64.interpolateColor [] 0.3%float (Some B64.DOUBLE)
           (B64.setInputRange (0, 1)%float (B64.load B64.smallSeries B64.fresh))) =
      Ok (B64.Double [Some r; Some g; Some b]) /\
    let zr := round_half_away (val (255 * r)) in
    let zg := round_half_away (val (255 * g)) in
    let zb := round_half_away (val (255 * b)) in
    (0 <= zr <= 255)%Z /\ (0 <= zg <= 255)%Z /\ (0 <= zb <= 255)%Z /\
    snd (B64.interpolateColor [] 0.3%float (Some B64.RGB)
           (B64.setInputRange (0, 1)%float (B64.load B64.smallSeries B64.fresh))) =
      Ok (B64.Rgb [IInt zr; IInt zg; IInt zb]) /\
    snd (B64.interpolateColor [] 0.3%float (Some B64.HEX)
           (B64.setInputRange (0, 1)%float (B64.load B64.smallSeries B64.fresh))) =
      Ok (B64.Hex (String "#" (hex2 zr ++ hex2 zg ++ hex2 zb))).
Proof.
  do 3 eexists. split; [reflexivity|].
  apply (proj2 (formats_agree [])); reflexivity.
Defined.




(** C8.  With the six-point series of the test suite loaded and the range
    set to [-40, 160], the value -20 is normalized to 1/10, the search gives
    the first two control points, and the FRACTION output is
    (0.1, 0.5, 0.545). *)
Theorem remapped_range_example (rainbow : list point) (cm0 : ColorMap) :
  returns_fraction
    (snd (interpolateColor rainbow (- (20 # 1)) DOUBLE
            (setInputRange (- (40 # 1), 160 # 1) (load smallSeries cm0))))
    (1 # 10) (1 # 2) (545 # 1000) /\
  le (normalize (- (40 # 1), 160 # 1) (- (20 # 1))) (Fin (1 # 10)) = true /\
  ge (normalize (- (40 # 1), 160 # 1) (- (20 # 1))) (Fin (1 # 10)) = true /\
  bracket (map fst smallSeries) (normalize (- (40 # 1), 160 # 1) (- (20 # 1))) =
    (IInt 0, IInt 1).
Proof.
  rewrite loaded_state, interpolateColor_loaded.
  vm_compute. repeat split; reflexivity.
Qed.

(** C9, loading by name.  The code departs from the claim: [toString] is not
    among the names [listColorSeries] returns, yet [useColorSeries] accepts it,
    because the operator [in] also finds the properties inherited from
    [Object.prototype]; the call does not throw and leaves the store with
    four empty arrays. *)
Theorem inherited_name_accepted (rainbow : list point) (cm : ColorMap) :
  mem "toString" (listColorSeries rainbow) = false /\
  useColorSeries rainbow "toString" cm =
    (mkColorMap (Some (mkSeries [] [] [] [])) (x_range cm), Ok tt).
Proof. split; reflexivity. Qed.

(** C10.  [setInputRange] leaves the four sequences as they are; a load, by
    name or raw, leaves the input range as it is; [interpolateColor] on a
    store with a series loaded leaves the whole store as it is, and on a
    store never loaded it loads the rainbow series and changes nothing
    else. *)
Theorem frame_conditions (rainbow : list point) :
  (forall range cm, arrays (setInputRange range cm) = arrays cm) /\
  (forall values cm, x_range (fst (inputColorSeries values cm)) = x_range cm) /\
  (forall name cm, x_range (fst (useColorSeries rainbow name cm)) = x_range cm) /\
  (forall val format a range,
      fst (interpolateColor rainbow val format (mkColorMap (Some a) range)) =
      mkColorMap (Some a) range) /\
  (forall val format range,
      fst (interpolateColor rainbow val format (mkColorMap None range)) =
      mkColorMap (Some (series_of rainbow)) range).
Proof.
  repeat split.
  - apply inputColorSeries_range.
  - apply useColorSeries_range.
  - intros. now rewrite interpolateColor_fresh.
Qed.

(** * Further properties of the class *)

(** ** The constructor and the default series *)

(** X1.  A map built without a name, or with the empty name, holds no series
    and the range [0, 1]; built with the name [rainbow] it holds the rainbow
    series.  Both answer every call alike, and are equal stores after the
    call: the default of [interpolateColor] is the load by name. *)
Theorem default_is_rainbow (rainbow : list point) (val : Q) (format : ColorFormat) :
  new_ColorMap rainbow None = (fresh, Ok tt) /\
  new_ColorMap rainbow (Some ""%string) = (fresh, Ok tt) /\
  new_ColorMap rainbow (Some "rainbow"%string) =
    (mkColorMap (Some (series_of rainbow)) (0, 1), Ok tt) /\
  interpolateColor rainbow val format (fst (new_ColorMap rainbow None)) =
  interpolateColor rainbow val format (fst (new_ColorMap rainbow (Some "rainbow"%string))).
Proof.
  assert (E : new_ColorMap rainbow (Some "rainbow"%string) =
              (mkColorMap (Some (series_of rainbow)) (0, 1), Ok tt))
    by (unfold new_ColorMap; apply useColorSeries_rainbow).
  split; [reflexivity|]. split; [reflexivity|]. split; [exact E|].
  rewrite E. cbn [fst new_ColorMap].
  now rewrite interpolateColor_fresh, interpolateColor_loaded.
Qed.

(** X2.  Calls do not disturb one another: after any call the store holds a
    series, a second call leaves the store as the first left it, and answers
    as it would have on the store before the first. *)
Theorem calls_do_not_interfere (rainbow : list point) (v1 v2 : Q)
    (f1 f2 : ColorFormat) (cm : ColorMap) :
  let cm1 := fst (interpolateColor rainbow v1 f1 cm) in
  (exists a, arrays cm1 = Some a) /\
  fst (interpolateColor rainbow v2 f2 cm1) = cm1 /\
  snd (interpolateColor rainbow v2 f2 cm1) = snd (interpolateColor rainbow v2 f2 cm).
Proof.
  destruct cm as [[a|] range]; cbv zeta.
  - rewrite !interpolateColor_loaded. cbn [fst snd].
    rewrite !interpolateColor_loaded. split; [eexists; reflexivity | split; reflexivity].
  - rewrite !interpolateColor_fresh. cbn [fst snd].
    rewrite !interpolateColor_loaded. split; [eexists; reflexivity | split; reflexivity].
Qed.

(** X3.  The two loops of the search end, whatever the array, the number
    searched and the index they start from (NaN and the infinities included):
    within [length xs] iterations their condition is false, and further
    iterations change nothing. *)
Theorem search_loops_end (xs : list Q) (x : num) (iMax i : inum) (fuel : nat) :
  (List.length xs <= fuel)%nat ->
  scan_down fuel xs x i = scan_down (List.length xs) xs x i /\
  down_guard xs x (scan_down fuel xs x i) = false /\
  scan_up fuel xs x iMax i = scan_up (List.length xs) xs x iMax i /\
  up_guard xs x iMax (scan_up fuel xs x iMax i) = false.
Proof.
  intros H.
  rewrite (scan_down_more fuel xs x i H), (scan_up_more fuel xs x iMax i H).
  repeat split; [apply scan_down_exit | apply scan_up_exit].
Qed.

Lemma search_loops_end_witness :
  scan_down 9 (map fst smallSeries) (Fin (1 # 10)) (IInt 5) = IInt 0 /\
  down_guard (map fst smallSeries) (Fin (1 # 10))
    (scan_down 9 (map fst smallSeries) (Fin (1 # 10)) (IInt 5)) = false.
Proof.
  destruct (search_loops_end (map fst smallSeries) (Fin (1 # 10)) (IInt 5) (IInt 5) 9
              ltac:(simpl; lia)) as (E & G & _).
  split; [rewrite E; reflexivity | exact G].
Defined.

(** X20.  On doubles too the two loops of the search end, whatever the
    array, the number searched and the index they start from (NaN and the
    infinities included): within [length xs] iterations their condition is
    false, and further iterations change nothing. *)
Theorem search_loops_end_on_doubles (xs : list float) (x : float) (iMax i : inum)
    (fuel : nat) :
  (List.length xs <= fuel)%nat ->
  B64.scan_down fuel xs x i = B64.scan_down (List.length xs) xs x i /\
  B64.down_guard xs x (B64.scan_down fuel xs x i) = false /\
  B64.scan_up fuel xs x iMax i = B64.scan_up (List.length xs) xs x iMax i /\
  B64.up_guard xs x iMax (B64.scan_up fuel xs x iMax i) = false.
Proof.
  intros H.
  rewrite (f64_scan_down_more fuel xs x i H), (f64_scan_up_more fuel xs x iMax i H).
  repeat split; [apply f64_scan_down_exit | apply f64_scan_up_exit].
Qed.

Lemma search_loops_end_on_doubles_witness :
  B64.scan_down 9 (map fst B64.smallSeries) 0.1%float (IInt 5) = IInt 0 /\
  B64.down_guard (map fst B64.smallSeries) 0.1%float
    (B64.scan_down 9 (map fst B64.smallSeries) 0.1%float (IInt 5)) = false.
Proof.
  destruct (search_loops_end_on_doubles (map fst B64.smallSeries) 0.1%float
              (IInt 5) (IInt 5) 9 ltac:(simpl; lia)) as (E & G & _).
  split; [rewrite E; reflexivity | exact G].
Defined.

(** ** Edge cases of a call *)



(** X7.  An empty series is a loaded series: the call does not fall back on
    the rainbow series and leaves the store as it is; whatever the range and
    the value, the BYTE output is three NaN and the HEX output [#aNaNaN]; each
    channel read is [undefined], so the FRACTION output is three [undefined],
    unless the normalized position is NaN, where it is three NaN. *)
Theorem empty_series (rainbow : list B64.point) (range : float * float) (v : float)
    (cm0 : B64.ColorMap) :
  let cm := B64.setInputRange range (fst (B64.inputColorSeries [] cm0)) in
  (forall format, fst (B64.interpolateColor rainbow v format cm) = cm) /\
  snd (B64.interpolateColor rainbow v (Some B64.RGB) cm) = Ok (B64.Rgb [INaN; INaN; INaN]) /\
  snd (B64.interpolateColor rainbow v (Some B64.HEX) cm) = Ok (B64.Hex "#aNaNaN") /\
  (is_nan (B64.normalize range v) = false ->
   snd (B64.interpolateColor rainbow v (Some B64.DOUBLE) cm) =
     Ok (B64.Double [None; None; None])) /\
  (is_nan (B64.normalize range v) = true ->
   snd (B64.interpolateColor rainbow v (Some B64.DOUBLE) cm) =
     Ok (B64.Double [Some nan; Some nan; Some nan])).
Proof.
  intros cm. subst cm.
  change (B64.setInputRange range (fst (B64.inputColorSeries [] cm0)))
    with (B64.mkColorMap (Some (B64.mkSeries [] [] [] [])) range).
  split; [intros format; now rewrite f64_interpolateColor_loaded|].
  rewrite !f64_interpolateColor_loaded. cbn [snd B64.default_format].
  destruct (is_nan (B64.normalize range v)) eqn:N.
  - rewrite !(f64_interpolate_NaN _ _ _ _ N).
    repeat split; try reflexivity. discriminate.
  - rewrite !(f64_interpolate_empty _ _ _ N).
    repeat split; try reflexivity. discriminate.
Qed.

(** X8.  A series of a single point answers every value with the colour of
    that point, unless the normalized position is NaN, where the call returns
    three NaN; the position is a number when the value is one and the width
    of the range is finite and not zero. *)
Theorem single_point (rainbow : list B64.point) (p : B64.point) (rmin rmax v : float)
    (format : option B64.ColorFormat) (cm0 : B64.ColorMap) :
  let cm := B64.setInputRange (rmin, rmax) (B64.load [p] cm0) in
  (is_nan (B64.normalize (rmin, rmax) v) = false ->
   snd (B64.interpolateColor rainbow v format cm) =
   B64.formatColor (B64.fraction (snd p)) (B64.default_format format)) /\
  (is_nan (B64.normalize (rmin, rmax) v) = true ->
   snd (B64.interpolateColor rainbow v format cm) =
   B64.formatColor [Some nan; Some nan; Some nan] (B64.default_format format)) /\
  (is_nan v = false ->
   ((rmin <? rmax)%float = true /\ (rmax - rmin <? infinity)%float = true \/
    (rmax <? rmin)%float = true /\ (neg_infinity <? rmax - rmin)%float = true) ->
   is_nan (B64.normalize (rmin, rmax) v) = false).
Proof.
  intros cm. subst cm.
  rewrite f64_loaded_state, f64_interpolateColor_loaded. cbn [snd].
  split; [|split].
  - intros N.
    destruct (B64.normalize (rmin, rmax) v <=? 0)%float eqn:L0.
    { rewrite (f64_interpolate_low _ _ _ _ L0). now apply f64_lookupColor_first. }
    destruct (1 <=? B64.normalize (rmin, rmax) v)%float eqn:L1.
    { rewrite (f64_interpolate_high _ _ _ _ L0 L1). now apply f64_lookupColor_last. }
    destruct (f64_bracket_range (map fst [p]) _ ltac:(simpl; lia) ltac:(simpl; lia) N L0 L1)
      as (lo & hi & E & Hlo & Hhi).
    simpl in Hhi. assert (lo = 0%Z) by lia. assert (hi = 0%Z) by lia. subst lo hi.
    rewrite (f64_interpolate_inside (B64.series_of [p]) (rmin, rmax) v _ (IInt 0) (IInt 0)
               L0 L1 E).
    cbn [strict_eq Z.eqb]. now apply f64_lookupColor_first.
  - intros N. now apply f64_interpolate_NaN.
  - intros Nv [[H D]|[H D]].
    + destruct (f64_range_facts rmin rmax H D) as (Fmin & _ & Fd & Pd).
      apply f64_normalize_not_nan; try assumption. lra.
    + destruct (f64_inverted_facts rmin rmax H D) as (Fmin & _ & Fd & Pd).
      apply f64_normalize_not_nan; try assumption. lra.
Qed.

(** ** Errors *)

(** X9.  A call throws for one reason only, its format: with [DOUBLE], [RGB],
    [HEX] or no format at all it returns a colour whatever the store and the
    value (without a format, the BYTE output); with a symbol that is none of
    the three it throws a TypeError, raised by the template literal of the
    message, and with any other primitive value it throws the error
    [Unrecognized ColorFormat], whatever the store and the value; and on a
    store never loaded it has by then loaded the rainbow series. *)
Theorem throws_on_format_only (rainbow : list B64.point) (v : float)
    (cm : B64.ColorMap) (range : float * float) :
  (exists c, snd (B64.interpolateColor rainbow v (Some B64.DOUBLE) cm) = Ok (B64.Double c)) /\
  (exists c, snd (B64.interpolateColor rainbow v (Some B64.RGB) cm) = Ok (B64.Rgb c)) /\
  (exists c, snd (B64.interpolateColor rainbow v None cm) = Ok (B64.Rgb c)) /\
  (exists s, snd (B64.interpolateColor rainbow v (Some B64.HEX) cm) = Ok (B64.Hex s)) /\
  snd (B64.interpolateColor rainbow v (Some B64.OtherSymbol) cm) = Throw TypeError /\
  snd (B64.interpolateColor rainbow v (Some B64.OtherValue) cm) = Throw UnrecognizedFormat /\
  B64.interpolateColor rainbow v (Some B64.OtherSymbol) (B64.mkColorMap None range) =
    (B64.mkColorMap (Some (B64.series_of rainbow)) range, Throw TypeError) /\
  B64.interpolateColor rainbow v (Some B64.OtherValue) (B64.mkColorMap None range) =
    (B64.mkColorMap (Some (B64.series_of rainbow)) range, Throw UnrecognizedFormat).
Proof.
  destruct (f64_interpolateColor_body rainbow cm v) as (a & r & body).
  destruct (f64_interpolate_triplet a r v) as (dv & _ & E).
  rewrite !body, !E. cbn [B64.default_format B64.formatColor].
  repeat split; try (eexists; reflexivity);
    rewrite f64_interpolateColor_fresh;
    destruct (f64_interpolate_triplet (B64.series_of rainbow) range v) as (dv' & _ & E');
    now rewrite E'.
Qed.

(** ** Loading *)

(** X10.  Which names [useColorSeries] accepts, and what it loads: the name
    [rainbow] loads the rainbow series; a name inherited from
    [Object.prototype] loads four empty arrays; any other name throws and
    leaves the store as it is. *)
Theorem names_accepted (rainbow : list point) (name : string) (cm : ColorMap) :
  useColorSeries rainbow name cm =
    if String.eqb name "rainbow"
    then (mkColorMap (Some (series_of rainbow)) (x_range cm), Ok tt)
    else if mem name Object_prototype
         then (mkColorMap (Some (mkSeries [] [] [] [])) (x_range cm), Ok tt)
         else (cm, Throw (UnrecognizedName name)).
Proof.
  unfold useColorSeries, has_property, table_get, listColorSeries, ColorSeriesTable.
  cbn [map fst snd find mem existsb].
  destruct (String.eqb name "rainbow") eqn:E.
  - cbn [orb negb entries]. apply inputColorSeries_points.
  - cbn [orb]. destruct (mem name Object_prototype); reflexivity.
Qed.

(** X11.  A load overrides the one before, failed or not: only the last
    array handed over counts.  The same holds of the range, and a load and a
    change of range can be made in either order. *)
Theorem last_load_wins (v1 v2 : list entry) (r1 r2 : Q * Q) (cm : ColorMap) :
  inputColorSeries v2 (fst (inputColorSeries v1 cm)) = inputColorSeries v2 cm /\
  setInputRange r2 (setInputRange r1 cm) = setInputRange r2 cm /\
  fst (inputColorSeries v2 (setInputRange r1 cm)) =
    setInputRange r1 (fst (inputColorSeries v2 cm)) /\
  snd (inputColorSeries v2 (setInputRange r1 cm)) = snd (inputColorSeries v2 cm).
Proof.
  unfold inputColorSeries, setInputRange.
  destruct (fill v1 _) as [a1 e1]. destruct (fill v2 _) as [a2 e2].
  repeat split.
Qed.

Lemma fill_lengths (values : list entry) (a : series) :
  exists n,
    (n <= List.length values)%nat /\
    List.length (r_values (fst (fill values a))) = (List.length (r_values a) + n)%nat /\
    List.length (g_values (fst (fill values a))) = (List.length (g_values a) + n)%nat /\
    List.length (b_values (fst (fill values a))) = (List.length (b_values a) + n)%nat /\
    match snd (fill values a) with
    | Ok _ =>
        n = List.length values /\
        List.length (x_values (fst (fill values a))) = (List.length (x_values a) + n)%nat
    | Throw _ =>
        (n < List.length values)%nat /\
        (List.length (x_values (fst (fill values a))) = (List.length (x_values a) + n)%nat \/
         List.length (x_values (fst (fill values a))) = (List.length (x_values a) + n + 1)%nat)
    end.
Proof.
  revert a.
  induction values as [|[x [[r g] b]|x|] rest IH]; intros a; cbn [fill].
  - exists 0%nat. cbn [fst snd List.length]. repeat split; lia.
  - destruct (IH (mkSeries (push (x_values a) x) (push (r_values a) r)
                           (push (g_values a) g) (push (b_values a) b)))
      as (n & Hn & Hr & Hg & Hb & Hx).
    exists (S n). cbn [x_values r_values g_values b_values] in *.
    unfold push in *. rewrite !length_app in *. cbn [List.length] in *.
    repeat split; try lia.
    destruct (snd (fill rest _)); lia.
  - exists 0%nat. cbn [fst snd x_values r_values g_values b_values List.length].
    unfold push. rewrite length_app. cbn [List.length]. repeat split; lia.
  - exists 0%nat. cbn [fst snd List.length]. repeat split; lia.
Qed.

(** X12.  After any raw load the arrays are set, and the three colour arrays
    have the same length.  When the load succeeds the four arrays have one
    element for each element handed over; when it throws, the colour arrays
    hold fewer elements than were handed over and [x_values] the same number
    or one more. *)
Theorem arrays_after_load (values : list entry) (cm : ColorMap) :
  exists a n,
    arrays (fst (inputColorSeries values cm)) = Some a /\
    List.length (r_values a) = n /\ List.length (g_values a) = n /\
    List.length (b_values a) = n /\
    match snd (inputColorSeries values cm) with
    | Ok _ => n = List.length values /\ List.length (x_values a) = n
    | Throw _ =>
        (n < List.length values)%nat /\
        (List.length (x_values a) = n \/ List.length (x_values a) = S n)
    end.
Proof.
  unfold inputColorSeries.
  destruct (fill_lengths values (mkSeries [] [] [] []))
    as (n & Hn & Hr & Hg & Hb & Hx).
  destruct (fill values (mkSeries [] [] [] [])) as [a e].
  cbn [fst snd x_values r_values g_values b_values List.length arrays] in *.
  exists a, n. split; [reflexivity|].
  repeat split; try assumption.
  destruct e; [exact Hx|]. split; [apply Hx|]. destruct Hx as [_ [H|H]]; lia.
Qed.

(** ** The clamp *)

Lemma enforceBounds_id (v : Q) : 0 <= v <= 1 -> enforceBounds (Fin v) = Fin v.
Proof.
  intros [H0 H1]. unfold enforceBounds, gt.
  destruct (lt (Fin v) (Fin 0)) eqn:L0; [apply lt_Fin in L0; lra|].
  destruct (lt (Fin 1) (Fin v)) eqn:L1; [apply lt_Fin in L1; lra|].
  reflexivity.
Qed.

(** X13.  [enforceBounds] maps every number but NaN into [0, 1]: +Infinity
    and what is above 1 to 1, -Infinity and what is below 0 to 0, and a
    number of [0, 1] to itself; it leaves NaN as it is, and applied twice
    gives what it gives once.  The same holds of the function on doubles. *)
Theorem enforceBounds_clamps (x : num) (y : float) :
  enforceBounds (enforceBounds x) = enforceBounds x /\
  match x with
  | NaN => enforceBounds x = NaN
  | _ => exists v, enforceBounds x = Fin v /\ 0 <= v <= 1
  end /\
  enforceBounds PInf = Fin 1 /\
  enforceBounds NInf = Fin 0 /\
  (forall v, 1 < v -> enforceBounds (Fin v) = Fin 1) /\
  (forall v, v < 0 -> enforceBounds (Fin v) = Fin 0) /\
  (forall v, 0 <= v <= 1 -> enforceBounds (Fin v) = Fin v) /\
  B64.enforceBounds infinity = 1%float /\
  B64.enforceBounds neg_infinity = 0%float /\
  B64.enforceBounds (B64.enforceBounds y) = B64.enforceBounds y /\
  (is_nan y = true -> B64.enforceBounds y = y) /\
  (is_nan y = false -> B64.in_unit (B64.enforceBounds y) = true) /\
  ((1 <? y)%float = true -> B64.enforceBounds y = 1%float) /\
  ((y <? 0)%float = true -> B64.enforceBounds y = 0%float) /\
  (B64.in_unit y = true -> B64.enforceBounds y = y).
Proof.
  assert (H : match x with
              | NaN => enforceBounds x = NaN
              | _ => exists v, enforceBounds x = Fin v /\ 0 <= v <= 1
              end).
  { destruct x as [v| | |]; [| | |reflexivity]; apply enforceBounds_unit; discriminate. }
  split; [|split; [exact H|]].
  { destruct x as [v| | |]; try reflexivity.
    destruct H as (v' & -> & Hv). now apply enforceBounds_id. }
  split; [reflexivity|]. split; [reflexivity|].
  split.
  { intros v Hv. unfold enforceBounds, gt.
    destruct (lt (Fin v) (Fin 0)) eqn:L0; [apply lt_Fin in L0; lra|].
    destruct (lt (Fin 1) (Fin v)) eqn:L1; [reflexivity|].
    assert (L : lt (Fin 1) (Fin v) = true) by now apply lt_Fin.
    congruence. }
  split.
  { intros v Hv. unfold enforceBounds.
    destruct (lt (Fin v) (Fin 0)) eqn:L0; [reflexivity|].
    assert (L : lt (Fin v) (Fin 0) = true) by now apply lt_Fin.
    congruence. }
  split; [intros v Hv; now apply enforceBounds_id|].
  split; [reflexivity|]. split; [reflexivity|].
  split; [apply f64_enforceBounds_twice|].
  split.
  { intros N. apply is_nan_eq in N. subst y. reflexivity. }
  split.
  { intros N. destruct (f64_enforceBounds_clamps y) as [C|C]; [|exact C].
    unfold B64.enforceBounds in *.
    destruct (y <? 0)%float; [discriminate|].
    destruct (1 <? y)%float; [discriminate|congruence]. }
  split.
  { intros L. unfold B64.enforceBounds. rewrite L.
    destruct (y <? 0)%float eqn:L0; [|reflexivity].
    destruct (ltb_not_nan _ _ L) as [_ N].
    apply (ltb_val 1 y eq_refl N) in L. apply (ltb_val y 0 N eq_refl) in L0.
    rewrite val_one in L. rewrite val_zero in L0. lra. }
  split.
  { intros L. unfold B64.enforceBounds. now rewrite L. }
  intros U. apply in_unit_spec in U. destruct U as [N [U0 U1]].
  unfold B64.enforceBounds.
  destruct (y <? 0)%float eqn:L0.
  { apply (ltb_val y 0 N eq_refl) in L0. rewrite val_zero in L0. lra. }
  destruct (1 <? y)%float eqn:L1; [|reflexivity].
  apply (ltb_val 1 y eq_refl N) in L1. rewrite val_one in L1. lra.
Qed.

(** ** Reading the HEX output back *)

Lemma to_N_app (s1 s2 : string) (acc : N) :
  HexString.Raw.to_N (s1 ++ s2) acc =
  HexString.Raw.to_N s2 (HexString.Raw.to_N s1 acc).
Proof.
  revert acc. induction s1 as [|ch s1 IH]; intros acc; simpl; [reflexivity|].
  apply IH.
Qed.

Lemma digit_of_hex_digit (d : Z) :
  (0 <= d < 16)%Z -> HexString.ascii_to_digit (hex_digit d) = Some (Z.to_N d).
Proof.
  intros Hd.
  assert (all : forallb (fun n =>
             match HexString.ascii_to_digit (hex_digit (Z.of_nat n)) with
             | Some v => N.eqb v (Z.to_N (Z.of_nat n))
             | None => false
             end) (seq 0 16) = true) by (vm_compute; reflexivity).
  rewrite forallb_forall in all.
  specialize (all (Z.to_nat d)). rewrite Z2Nat.id in all by lia.
  assert (Hin : In (Z.to_nat d) (seq 0 16)) by (apply in_seq; lia).
  specialize (all Hin).
  destruct (HexString.ascii_to_digit (hex_digit d)) as [v|]; [|discriminate].
  apply N.eqb_eq in all. now subst v.
Qed.

Lemma to_N_hex2 (z : Z) (acc : N) :
  (0 <= z <= 255)%Z ->
  HexString.Raw.to_N (hex2 z) acc = (256 * acc + Z.to_N z)%N.
Proof.
  intros Hz. unfold hex2. cbn [HexString.Raw.to_N].
  assert (H1 : (0 <= z / 16 < 16)%Z)
    by (split; [apply Z.div_pos; lia | apply Z.div_lt_upper_bound; lia]).
  assert (H0 : (0 <= z mod 16 < 16)%Z) by (apply Z.mod_pos_bound; lia).
  rewrite (digit_of_hex_digit _ H1), (digit_of_hex_digit _ H0).
  pose proof (Z.div_mod z 16 ltac:(lia)) as E.
  lia.
Qed.

(** X15.  For channels within [0, 1] the HEX output read back as a
    hexadecimal number is the BYTE output of the same triplet:
    [65536 * red + 256 * green + blue]. *)
Theorem hex_reads_back (r g b : Q) :
  0 <= r <= 1 -> 0 <= g <= 1 -> 0 <= b <= 1 ->
  exists zr zg zb h,
    formatColor [Some (Fin r); Some (Fin g); Some (Fin b)] RGB =
      Ok (Rgb [IInt zr; IInt zg; IInt zb]) /\
    formatColor [Some (Fin r); Some (Fin g); Some (Fin b)] HEX =
      Ok (Hex (String "#" h)) /\
    hex_value h = Z.to_N (65536 * zr + 256 * zg + zb).
Proof.
  intros Hr Hg Hb.
  destruct (to_byte_range r Hr) as (zr & Er & Hzr).
  destruct (to_byte_range g Hg) as (zg & Eg & Hzg).
  destruct (to_byte_range b Hb) as (zb & Eb & Hzb).
  exists zr, zg, zb. eexists.
  cbn [formatColor map]. rewrite Er, Eg, Eb.
  split; [reflexivity|]. split; [reflexivity|].
  rewrite (to_hex2_byte _ Hzr), (to_hex2_byte _ Hzg), (to_hex2_byte _ Hzb).
  unfold hex_value. cbn [String.concat].
  rewrite !to_N_app.
  rewrite (to_N_hex2 zr 0 Hzr). cbn [HexString.Raw.to_N].
  rewrite (to_N_hex2 zg _ Hzg). rewrite (to_N_hex2 zb _ Hzb).
  lia.
Qed.

Lemma hex_reads_back_witness :
  exists zr zg zb h,
    formatColor [Some (Fin (6 # 10)); Some (Fin (2 # 10)); Some (Fin (52 # 100))] RGB =
      Ok (Rgb [IInt zr; IInt zg; IInt zb]) /\
    formatColor [Some (Fin (6 # 10)); Some (Fin (2 # 10)); Some (Fin (52 # 100))] HEX =
      Ok (Hex (String "#" h)) /\
    hex_value h = Z.to_N (65536 * zr + 256 * zg + zb).
Proof.
  apply (hex_reads_back (6 # 10) (2 # 10) (52 # 100)).
  - unfold Qle. simpl. lia.
  - unfold Qle. simpl. lia.
  - unfold Qle. simpl. lia.
Defined.

(** ** Lookup after a load *)

(** X16.  After a raw load of control points, [lookupColor] at an index of
    the series gives the colour of the point at that index, as it was handed
    over; at a negative index or one past the end each channel is
    [undefined]. *)
Theorem lookup_after_load (pts : list point) (cm : ColorMap) (z : Z)
    (format : ColorFormat) :
  arrays (load pts cm) = Some (series_of pts) /\
  (forall p, (0 <= z)%Z -> nth_error pts (Z.to_nat z) = Some p ->
     lookupColor (series_of pts) (IInt z) format =
     formatColor (fraction (snd p)) format) /\
  ((z < 0)%Z \/ (Z.of_nat (List.length pts) <= z)%Z ->
     lookupColor (series_of pts) (IInt z) format =
     formatColor [None; None; None] format).
Proof.
  split; [unfold load; now rewrite inputColorSeries_points|].
  split; [intros p Hz Hp; now apply lookupColor_point|].
  intros Hout. unfold lookupColor, series_of, get.
  cbn [r_values g_values b_values].
  destruct (z <? 0)%Z eqn:E; [reflexivity|].
  apply Z.ltb_ge in E.
  assert (Hn : forall (f : point -> Q), nth_error (map f pts) (Z.to_nat z) = None).
  { intros f. apply nth_error_None. rewrite length_map. lia. }
  now rewrite !Hn.
Qed.

Lemma lookup_after_load_witness :
  lookupColor (series_of smallSeries) (IInt 3) RGB =
    formatColor (fraction (6 # 10, 2 # 10, 52 # 100)) RGB /\
  lookupColor (series_of smallSeries) (IInt 6) RGB =
    formatColor [None; None; None] RGB.
Proof.
  split.
  - apply (proj1 (proj2 (lookup_after_load smallSeries fresh 3 RGB))
             (6 # 10, (6 # 10, 2 # 10, 52 # 100))).
    + lia.
    + reflexivity.
  - apply (proj2 (proj2 (lookup_after_load smallSeries fresh 6 RGB))).
    right. simpl. lia.
Defined.

(** ** The scenarios of the specification, on doubles *)

(** X17.  With the six-point series loaded, each decimal standing for the
    double nearest to it: over the range [0, 1] the value -0.1 gives the
    FRACTION output (0, 0.6, 0.55), the value 1.1 gives (1, 0.6, 0.5), the
    value 0.5 gives (0.5, 0.2, 0.525), the value 0.3 gives the BYTE output
    (77, 77, 136) and the value 0.6 the HEX output [#993385]; over the range
    [-40, 160] the value -20 gives the FRACTION output (0.1, 0.5, 0.545), the
    BYTE output (26, 128, 139) and the HEX output [#1a808b]. *)
Theorem scenarios_on_doubles :
  let st := B64.load B64.smallSeries B64.fresh in
  let st' := B64.setInputRange (-40, 160)%float st in
  snd (B64.interpolateColor [] (-0.1)%float (Some B64.DOUBLE) st) =
    Ok (B64.Double [Some 0; Some 0.6; Some 0.55])%float /\
  snd (B64.interpolateColor [] 1.1%float (Some B64.DOUBLE) st) =
    Ok (B64.Double [Some 1; Some 0.6; Some 0.5])%float /\
  snd (B64.interpolateColor [] 0.5%float (Some B64.DOUBLE) st) =
    Ok (B64.Double [Some 0.5; Some 0.2; Some 0.525])%float /\
  snd (B64.interpolateColor [] 0.3%float (Some B64.RGB) st) =
    Ok (B64.Rgb [IInt 77; IInt 77; IInt 136]) /\
  snd (B64.interpolateColor [] 0.6%float (Some B64.HEX) st) = Ok (B64.Hex "#993385") /\
  snd (B64.interpolateColor [] (-20)%float (Some B64.DOUBLE) st') =
    Ok (B64.Double [Some 0.1; Some 0.5; Some 0.545])%float /\
  snd (B64.interpolateColor [] (-20)%float (Some B64.RGB) st') =
    Ok (B64.Rgb [IInt 26; IInt 128; IInt 139]) /\
  snd (B64.interpolateColor [] (-20)%float (Some B64.HEX) st') = Ok (B64.Hex "#1a808b").
Proof. repeat split; reflexivity. Qed.

(** X18.  The rounding of the doubles shows in the output.  With the
    six-point series loaded: over the range [0, 1] the value 0.3 gives the
    green channel 0.30000000000000004; over the range [0, 3] the value 0.6 is
    normalized to 0.19999999999999998, below the position 0.2 of the second
    control point, so that the search brackets it between the first two
    points and the call blends them; and over the range from [0] to [-0] the
    width is the negative zero, the value 1 is normalized to -Infinity and
    the call returns the first colour. *)
Theorem rounding_shows :
  let st := B64.load B64.smallSeries B64.fresh in
  snd (B64.interpolateColor [] 0.3%float (Some B64.DOUBLE) st) =
    Ok (B64.Double [Some 0.3; Some 0.30000000000000004; Some 0.535])%float /\
  B64.normalize (0, 3)%float 0.6%float = 0.19999999999999998%float /\
  B64.bracket (map fst B64.smallSeries) (B64.normalize (0, 3)%float 0.6%float) =
    (IInt 0, IInt 1) /\
  snd (B64.interpolateColor [] 0.6%float (Some B64.DOUBLE)
         (B64.setInputRange (0, 3)%float st)) =
    Ok (B64.Double [Some 0.19999999999999998; Some 0.4; Some 0.54])%float /\
  B64.normalize (0, -0)%float 1%float = neg_infinity /\
  snd (B64.interpolateColor [] 1%float (Some B64.DOUBLE)
         (B64.setInputRange (0, -0)%float st)) =
    Ok (B64.Double [Some 0; Some 0.6; Some 0.55])%float.
Proof. repeat split; reflexivity. Qed.

(** ** The departures from the specification, on doubles *)

(** X19.  The inputs on which the code departs from the specification are
    made of numbers that are doubles, and the program on doubles does the
    same on them: on the series [skewed] and on the series [skewed_hit] the
    search for the value 0.25 ends with [iLo = 1] and [iHi = 3] and the call
    returns (1, 0, 0), which on [skewed_hit] is not the colour (0.75, 0, 0)
    of the point at the position 0.25; and on a store whose first colour has
    a red channel of 2 the value 0 gives the FRACTION output (2, 0, 0), the
    BYTE output (510, 0, 0) and the HEX output [#fe0000]. *)
Theorem failures_on_doubles :
  B64.bracket (map fst B64.skewed) (B64.normalize (0, 1)%float 0.25%float) =
    (IInt 1, IInt 3) /\
  snd (B64.interpolateColor [] 0.25%float (Some B64.DOUBLE)
         (B64.load B64.skewed B64.fresh)) =
    Ok (B64.Double [Some 1; Some 0; Some 0])%float /\
  nth_error B64.skewed_hit 3 = Some (0.25, (0.75, 0, 0))%float /\
  B64.bracket (map fst B64.skewed_hit) (B64.normalize (0, 1)%float 0.25%float) =
    (IInt 1, IInt 3) /\
  snd (B64.interpolateColor [] 0.25%float (Some B64.DOUBLE)
         (B64.load B64.skewed_hit B64.fresh)) =
    Ok (B64.Double [Some 1; Some 0; Some 0])%float /\
  snd (B64.interpolateColor [] 0%float (Some B64.DOUBLE) B64.overbright) =
    Ok (B64.Double [Some 2; Some 0; Some 0])%float /\
  snd (B64.interpolateColor [] 0%float (Some B64.RGB) B64.overbright) =
    Ok (B64.Rgb [IInt 510; IInt 0; IInt 0]) /\
  snd (B64.interpolateColor [] 0%float (Some B64.HEX) B64.overbright) =
    Ok (B64.Hex "#fe0000").
Proof. repeat split; reflexivity. Qed.
